(** * DragonEgg constant conversion (Constants.cpp): bit slices, the bit/type
    bridge, field contents and the aggregate builders.

    The C++ code is embedded shallowly.  Machine [int]s are [Z]; where the
    source converts to [unsigned] the reduction modulo [2^32] is written out.
    Quantities the source holds in 64 bits are not reduced.  An [assert]
    that fails and a call of [DieAbjectly] are both the fault [None]: the
    model is the build with assertions enabled. *)

From Stdlib Require Import ZArith List Bool Lia.
From Stdlib Require String.
Import ListNotations.
Local Open Scope Z_scope.
Local Set Warnings "-register-all".

(** ** Faults *)

Notation "x <- c ;; k" := (match c with Some x => k | None => None end)
  (at level 61, c at next level, right associativity).

Definition assert (b : bool) : option unit := if b then Some tt else None.

Definition to_unsigned (z : Z) : Z := z mod 2 ^ 32.

(** ** Range<int> *)

Record SignedRange := mkRange { First : Z; Last : Z }.

Module Range.

(** Modelled from the spec: the class template [Range] of
    dragonegg/ADT/Range.h, which is not among the sources.  A half-open
    interval [First, Last); [First = Last] denotes the empty range, and an
    interval written with [Last < First] holds no integer either.  All empty
    ranges compare equal (the assertions of [ExtendRange] and [ReduceRange]
    rely on it). *)
Definition empty (r : SignedRange) : bool := Last r <=? First r.

Definition getFirst (r : SignedRange) : Z := First r.
Definition getLast (r : SignedRange) : Z := Last r.
Definition getWidth (r : SignedRange) : Z :=
  if empty r then 0 else Last r - First r.

Definition eqb (a b : SignedRange) : bool :=
  (empty a && empty b) || ((First a =? First b) && (Last a =? Last b)).

Definition contains (a b : SignedRange) : bool :=
  empty b || (negb (empty a) && (First a <=? First b) && (Last b <=? Last a)).

Definition intersects (a b : SignedRange) : bool :=
  negb (empty a) && negb (empty b) && (First b <? Last a) && (First a <? Last b).

Definition Displace (r : SignedRange) (Delta : Z) : SignedRange :=
  mkRange (First r + Delta) (Last r + Delta).

(** Convex hull. *)
Definition Join (a b : SignedRange) : SignedRange :=
  if empty a then b else if empty b then a
  else mkRange (Z.min (First a) (First b)) (Z.max (Last a) (Last b)).

(** Intersection. *)
Definition Meet (a b : SignedRange) : SignedRange :=
  if empty a || empty b then mkRange 0 0
  else mkRange (Z.max (First a) (First b)) (Z.min (Last a) (Last b)).

End Range.

(** A range a 32-bit [int] can hold, for which widths and the differences of
    end points survive the conversion to [unsigned]. *)
Definition int_range (r : SignedRange) : Prop :=
  - 2 ^ 31 <= First r /\ First r <= Last r /\ Last r < 2 ^ 31.

(** ** LLVM types and constants *)

Inductive FPKind :=
  | FloatTyID | DoubleTyID | X86_FP80TyID | FP128TyID | PPC_FP128TyID
  | X86_MMXTyID.

Inductive Ty :=
  | VoidTy
  | LabelTy
  | OpaqueTy
  | IntegerTy (BitWidth : Z)
  | PrimitiveTy (k : FPKind)
  | PointerTy (Pointee : Ty)
  | ArrayTy (Elt : Ty) (NumElts : Z)
  | StructTy (Packed : bool) (Elts : list Ty)
  | VectorTy (Elt : Ty) (NumElts : Z).

(** Constants.  An integer constant carries, besides its bits, the mask of the
    bits whose value is undefined: bit [i] of [Undef] set means that bit [i]
    holds no defined value.  [UndefValue] of an integer type is the constant
    all of whose bits are undefined.  Floating point constants are held as
    their bit pattern and pointer constants as their numeric address. *)
Inductive Constant :=
  | ConstantInt (BitWidth Value Undef : Z)
  | ConstantFP (k : FPKind) (Bits Undef : Z)
  | ConstantPointer (Pointee : Ty) (Address Undef : Z)
  | ConstantArray (Elt : Ty) (Vals : list Constant)
  | ConstantStruct (Packed : bool) (Vals : list Constant)
  | ConstantVector (Elt : Ty) (Vals : list Constant)
  | ConstantOther (T : Ty).

Definition FPKind_eqb (a b : FPKind) : bool :=
  match a, b with
  | FloatTyID, FloatTyID | DoubleTyID, DoubleTyID
  | X86_FP80TyID, X86_FP80TyID | FP128TyID, FP128TyID
  | PPC_FP128TyID, PPC_FP128TyID | X86_MMXTyID, X86_MMXTyID => true
  | _, _ => false
  end.

(** Types are uniqued in LLVM, so [==] on [Type*] is structural equality. *)
Fixpoint Ty_eqb (a b : Ty) {struct a} : bool :=
  match a, b with
  | VoidTy, VoidTy | LabelTy, LabelTy | OpaqueTy, OpaqueTy => true
  | IntegerTy w, IntegerTy w' => w =? w'
  | PrimitiveTy k, PrimitiveTy k' => FPKind_eqb k k'
  | PointerTy p, PointerTy p' => Ty_eqb p p'
  | ArrayTy e n, ArrayTy e' n' => Ty_eqb e e' && (n =? n')
  | VectorTy e n, VectorTy e' n' => Ty_eqb e e' && (n =? n')
  | StructTy p es, StructTy p' es' =>
      Bool.eqb p p' &&
      (fix all2 (xs ys : list Ty) {struct xs} : bool :=
         match xs, ys with
         | [], [] => true
         | x :: xs', y :: ys' => Ty_eqb x y && all2 xs' ys'
         | _, _ => false
         end) es es'
  | _, _ => false
  end.

Fixpoint getType (C : Constant) : Ty :=
  match C with
  | ConstantInt w _ _ => IntegerTy w
  | ConstantFP k _ _ => PrimitiveTy k
  | ConstantPointer p _ _ => PointerTy p
  | ConstantArray e vals => ArrayTy e (Z.of_nat (length vals))
  | ConstantStruct p vals => StructTy p (map getType vals)
  | ConstantVector e vals => VectorTy e (Z.of_nat (length vals))
  | ConstantOther T => T
  end.

(** [Type::getPrimitiveSizeInBits]. *)
Definition FPBits (k : FPKind) : Z :=
  match k with
  | FloatTyID => 32 | DoubleTyID => 64 | X86_FP80TyID => 80
  | FP128TyID => 128 | PPC_FP128TyID => 128 | X86_MMXTyID => 64
  end.

Definition getPrimitiveSizeInBits (T : Ty) : Z :=
  match T with
  | IntegerTy w => w
  | PrimitiveTy k => FPBits k
  | VectorTy (IntegerTy w) n => n * w
  | VectorTy (PrimitiveTy k) n => n * FPBits k
  | _ => 0
  end.

Definition isSized (T : Ty) : bool :=
  match T with
  | VoidTy | LabelTy | OpaqueTy => false
  | _ => true
  end.

(** [UndefValue::get] and [Constant::getNullValue], with aggregates spelled
    out element by element (extracting an element of an undefined aggregate
    gives an undefined element, of a zero aggregate a zero element). *)
Fixpoint UndefValue (T : Ty) : Constant :=
  match T with
  | IntegerTy w => ConstantInt w 0 (Z.ones w)
  | PrimitiveTy k => ConstantFP k 0 (Z.ones (FPBits k))
  | PointerTy p => ConstantPointer p 0 (-1)
  | ArrayTy e n => ConstantArray e (repeat (UndefValue e) (Z.to_nat n))
  | VectorTy e n => ConstantVector e (repeat (UndefValue e) (Z.to_nat n))
  | StructTy p es => ConstantStruct p (map UndefValue es)
  | _ => ConstantOther T
  end.

Fixpoint getNullValue (T : Ty) : Constant :=
  match T with
  | IntegerTy w => ConstantInt w 0 0
  | PrimitiveTy k => ConstantFP k 0 0
  | PointerTy p => ConstantPointer p 0 0
  | ArrayTy e n => ConstantArray e (repeat (getNullValue e) (Z.to_nat n))
  | VectorTy e n => ConstantVector e (repeat (getNullValue e) (Z.to_nat n))
  | StructTy p es => ConstantStruct p (map getNullValue es)
  | _ => ConstantOther T
  end.

(** ** The target layout oracle *)

(** Modelled from the spec: the TargetLayout service (LLVM's [TargetData]).
    The target fixes the pointer width and the ABI alignment, in bytes, of
    the scalar types; sizes and struct layouts follow from them by LLVM's
    rules. *)
Record TargetData := mkTargetData {
  PointerSizeInBits : Z;
  PointerABIAlignment : Z;
  IntegerABIAlignment : Z -> Z;
  FPABIAlignment : FPKind -> Z;
  VectorABIAlignment : Z -> Z
}.

Definition RoundUpAlignment (Val Alignment : Z) : Z :=
  (Val + Alignment - 1) / Alignment * Alignment.

(** Alloc size in bits of a type with the given size in bits and alignment. *)
Definition AllocBitsOf (sa : Z * Z) : Z :=
  8 * RoundUpAlignment ((fst sa + 7) / 8) (snd sa).

(** [StructLayout]: member offsets in bytes, the size in bytes and the
    alignment, from the (size in bits, ABI alignment) of the members. *)
Fixpoint StructLayoutFrom (Packed : bool) (members : list (Z * Z))
    (StructSize StructAlignment : Z) : list Z * Z * Z :=
  match members with
  | [] =>
      let A := if StructAlignment =? 0 then 1 else StructAlignment in
      ([], RoundUpAlignment StructSize A, A)
  | m :: ms =>
      let TyAlign := if Packed then 1 else snd m in
      let Off := RoundUpAlignment StructSize TyAlign in
      let '(offs, sz, al) :=
        StructLayoutFrom Packed ms (Off + AllocBitsOf m / 8)
                         (Z.max TyAlign StructAlignment) in
      (Off :: offs, sz, al)
  end.

Section Layout.
Variable TD : TargetData.

(** Size in bits and ABI alignment in bytes of a type. *)
Fixpoint SizeAndAlignment (T : Ty) : Z * Z :=
  match T with
  | VoidTy => (8, IntegerABIAlignment TD 8)
  | LabelTy => (PointerSizeInBits TD, PointerABIAlignment TD)
  | OpaqueTy => (0, 1)
  | IntegerTy w => (w, IntegerABIAlignment TD w)
  | PrimitiveTy k => (FPBits k, FPABIAlignment TD k)
  | PointerTy _ => (PointerSizeInBits TD, PointerABIAlignment TD)
  | ArrayTy e n =>
      let sa := SizeAndAlignment e in (n * AllocBitsOf sa, snd sa)
  | VectorTy e n =>
      let sa := SizeAndAlignment e in
      (n * fst sa, VectorABIAlignment TD (n * fst sa))
  | StructTy p es =>
      let '(_, sz, al) := StructLayoutFrom p (map SizeAndAlignment es) 0 0 in
      (8 * sz, if p then 1 else al)
  end.

Definition getTypeSizeInBits (T : Ty) : Z := fst (SizeAndAlignment T).
Definition getABITypeAlignment (T : Ty) : Z := snd (SizeAndAlignment T).
Definition getTypeStoreSizeInBits (T : Ty) : Z :=
  8 * ((getTypeSizeInBits T + 7) / 8).
Definition getTypeAllocSizeInBits (T : Ty) : Z :=
  AllocBitsOf (SizeAndAlignment T).

(** [getStructLayout(STy)->getElementOffset(i)], in bytes. *)
Definition getElementOffsets (Packed : bool) (Elts : list Ty) : list Z :=
  fst (fst (StructLayoutFrom Packed (map SizeAndAlignment Elts) 0 0)).

(** [StructLayout::getElementContainingOffset]: the last member whose offset
    is at most [Offset] (an upper bound search, stepped back by one). *)
Fixpoint upper_bound (offs : list Z) (Offset : Z) : Z :=
  match offs with
  | [] => 0
  | o :: os => if o <=? Offset then 1 + upper_bound os Offset else 0
  end.

Definition getElementContainingOffset (offs : list Z) (Offset : Z)
    : option Z :=
  let SI := upper_bound offs Offset in
  _ <- assert (negb (SI =? 0)) ;;
  Some (SI - 1).

Definition getIntPtrType : Ty := IntegerTy (PointerSizeInBits TD).

End Layout.

(** ** The constant folder on integers *)

(** Modelled from the spec: the TypedConstant operations of LLVM's folder
    ([TheFolder]).  A bit of a result is defined when the defined bits of the
    operands determine it: zero extension and shifts bring in defined zeros,
    [and] with a defined zero and [or] with a defined one are defined.

    LLVM's own folder knows an integer constant only as defined in every bit
    or as undefined as a whole, and folds an operation on an undefined
    operand to a defined constant.  The two agree on the constants without
    an undefined bit ([Undef = 0]), where every operation below is LLVM's:
    what is proved of the values read out of constants is stated for those. *)

Definition IntegerType_get (NumBits : Z) : Ty := IntegerTy (to_unsigned NumBits).

(** [ConstantInt::get(Ty, V)]: the value is truncated to the type's width. *)
Definition ConstantInt_get (T : Ty) (V : Z) : option Constant :=
  match T with
  | IntegerTy w => Some (ConstantInt w (V mod 2 ^ w) 0)
  | _ => None
  end.

Definition CreateZExtOrBitCast (C : Constant) (DestTy : Ty) : option Constant :=
  match C, DestTy with
  | ConstantInt w v u, IntegerTy W =>
      if w <=? W then Some (ConstantInt W v u) else None
  | _, _ => None
  end.

Definition CreateTruncOrBitCast (C : Constant) (DestTy : Ty) : option Constant :=
  match C, DestTy with
  | ConstantInt w v u, IntegerTy W =>
      if W <=? w then Some (ConstantInt W (v mod 2 ^ W) (u mod 2 ^ W)) else None
  | _, _ => None
  end.

Definition CreateShl (C ShiftAmt : Constant) : option Constant :=
  match C, ShiftAmt with
  | ConstantInt w v u, ConstantInt w' k 0 =>
      if negb (w =? w') then None
      else if k <? w
      then Some (ConstantInt w (Z.shiftl v k mod 2 ^ w) (Z.shiftl u k mod 2 ^ w))
      else Some (UndefValue (IntegerTy w))
  | _, _ => None
  end.

Definition CreateLShr (C ShiftAmt : Constant) : option Constant :=
  match C, ShiftAmt with
  | ConstantInt w v u, ConstantInt w' k 0 =>
      if negb (w =? w') then None
      else if k <? w
      then Some (ConstantInt w (Z.shiftr v k) (Z.shiftr u k))
      else Some (UndefValue (IntegerTy w))
  | _, _ => None
  end.

Definition CreateAnd (A B : Constant) : option Constant :=
  match A, B with
  | ConstantInt w va ua, ConstantInt w' vb ub =>
      if negb (w =? w') then None
      else
        let U := Z.land (Z.land (Z.lor ua ub) (Z.lor va ua)) (Z.lor vb ub) in
        Some (ConstantInt w (Z.ldiff (Z.land va vb) U) U)
  | _, _ => None
  end.

Definition CreateOr (A B : Constant) : option Constant :=
  match A, B with
  | ConstantInt w va ua, ConstantInt w' vb ub =>
      if negb (w =? w') then None
      else
        let U := Z.ldiff (Z.ldiff (Z.lor ua ub) (Z.ldiff va ua)) (Z.ldiff vb ub) in
        Some (ConstantInt w (Z.ldiff (Z.lor va vb) U) U)
  | _, _ => None
  end.

(** [APInt::getBitsSet(numBits, loBit, hiBit)]: bits [loBit, hiBit) set. *)
Definition getBitsSet (numBits loBit hiBit : Z) : Z :=
  Z.shiftl (Z.ones (hiBit - loBit)) loBit mod 2 ^ numBits.

(** [ConstantInt::get(Context, ~Bits)] for an [APInt] of width [numBits]. *)
Definition ConstantInt_not (numBits Bits : Z) : Constant :=
  ConstantInt numBits (Z.ldiff (Z.ones numBits) Bits) 0.

(** ** BitSlice *)

Module Slice.

Record BitSlice := mkBitSlice {
  R : SignedRange;
  Contents : option Constant  (* null if and only if the range is empty *)
}.

Definition empty (s : BitSlice) : bool := Range.empty (R s).
Definition getBitWidth (s : BitSlice) : Z := to_unsigned (Range.getWidth (R s)).
Definition getFirst (s : BitSlice) : Z := to_unsigned (Range.getFirst (R s)).
Definition getLast (s : BitSlice) : Z := to_unsigned (Range.getLast (R s)).
Definition getRange (s : BitSlice) : SignedRange := R s.

Definition contentsValid (s : BitSlice) : bool :=
  if empty s then
    match Contents s with None => true | Some _ => false end
  else
    match Contents s with
    | Some C =>
        match getType C with
        | IntegerTy w => getBitWidth s =? w
        | _ => false
        end
    | None => false
    end.

(** The constructors [BitSlice(r, contents)], with their assertion. *)
Definition make (r : SignedRange) (contents : option Constant) : option BitSlice :=
  let s := mkBitSlice r contents in
  _ <- assert (contentsValid s) ;;
  Some s.

(** The default constructor: the empty range. *)
Definition nil : BitSlice := mkBitSlice (mkRange 0 0) None.

Definition Displace (s : BitSlice) (Offset : Z) : option BitSlice :=
  make (Range.Displace (R s) Offset) (Contents s).

Section Endian.
Variable BYTES_BIG_ENDIAN : bool.

Definition ExtendRange (s : BitSlice) (r : SignedRange) : option BitSlice :=
  _ <- assert (Range.contains r (R s)) ;;
  if Range.eqb (R s) r then Some s
  else
    _ <- assert (negb (Range.empty r)) ;;
    let ExtTy := IntegerType_get (Range.getWidth r) in
    if empty s then make r (Some (UndefValue ExtTy))
    else
      C0 <- Contents s ;;
      C <- CreateZExtOrBitCast C0 ExtTy ;;
      let deltaFirst := to_unsigned (Range.getFirst (R s) - Range.getFirst r) in
      let deltaLast := to_unsigned (Range.getLast r - Range.getLast (R s)) in
      C <- (if BYTES_BIG_ENDIAN && negb (deltaLast =? 0) then
              ShiftAmt <- ConstantInt_get (getType C) deltaLast ;;
              CreateShl C ShiftAmt
            else if negb BYTES_BIG_ENDIAN && negb (deltaFirst =? 0) then
              ShiftAmt <- ConstantInt_get (getType C) deltaFirst ;;
              CreateShl C ShiftAmt
            else Some C) ;;
      make r (Some C).

Definition ReduceRange (s : BitSlice) (r : SignedRange) : option BitSlice :=
  _ <- assert (Range.contains (R s) r) ;;
  if Range.eqb (R s) r then Some s
  else if Range.empty r then Some nil
  else
    _ <- assert (negb (Range.empty (R s))) ;;
    C <- Contents s ;;
    let deltaFirst := to_unsigned (Range.getFirst r - Range.getFirst (R s)) in
    let deltaLast := to_unsigned (Range.getLast (R s) - Range.getLast r) in
    C <- (if BYTES_BIG_ENDIAN && negb (deltaLast =? 0) then
            ShiftAmt <- ConstantInt_get (getType C) deltaLast ;;
            CreateLShr C ShiftAmt
          else if negb BYTES_BIG_ENDIAN && negb (deltaFirst =? 0) then
            ShiftAmt <- ConstantInt_get (getType C) deltaFirst ;;
            CreateLShr C ShiftAmt
          else Some C) ;;
    let RedTy := IntegerType_get (Range.getWidth r) in
    C <- CreateTruncOrBitCast C RedTy ;;
    make r (Some C).

(** [getBits] returns [Contents], which is null for an empty slice; the
    callers only reach that with a non-empty [r], so it is a fault here. *)
Definition getBits (s : BitSlice) (r : SignedRange) : option Constant :=
  _ <- assert (negb (Range.empty r)) ;;
  if Range.eqb (R s) r then Contents s
  else
    let RetTy := IntegerType_get (Range.getWidth r) in
    if empty s then Some (UndefValue RetTy)
    else
      Slice <- ExtendRange s (Range.Join (R s) r) ;;
      Slice <- ReduceRange Slice r ;;
      Contents Slice.

Definition Merge (this other : BitSlice) : option BitSlice :=
  if empty other then Some this
  else if empty this then Some other
  else
    _ <- assert (negb (Range.intersects (R this) (getRange other))) ;;
    let Hull := Range.Join (R this) (getRange other) in
    ExtThis <- ExtendRange this Hull ;;
    ExtOther <- ExtendRange other Hull ;;
    let HullFirst := Range.getFirst Hull in
    let HullLast := Range.getLast Hull in
    let HullWidth := to_unsigned (Range.getWidth Hull) in
    let '(ThisBits, OtherBits) :=
      if BYTES_BIG_ENDIAN then
        (getBitsSet HullWidth (to_unsigned (HullLast - getLast this))
                              (to_unsigned (HullLast - getFirst this)),
         getBitsSet HullWidth (to_unsigned (HullLast - getLast other))
                              (to_unsigned (HullLast - getFirst other)))
      else
        (getBitsSet HullWidth (to_unsigned (getFirst this - HullFirst))
                              (to_unsigned (getLast this - HullFirst)),
         getBitsSet HullWidth (to_unsigned (getFirst other - HullFirst))
                              (to_unsigned (getLast other - HullFirst))) in
    let ClearThis := ConstantInt_not HullWidth ThisBits in
    let ClearOther := ConstantInt_not HullWidth OtherBits in
    CT <- Contents ExtThis ;;
    CO <- Contents ExtOther ;;
    ThisPart <- CreateAnd CT ClearOther ;;
    OtherPart <- CreateAnd CO ClearThis ;;
    C <- CreateOr ThisPart OtherPart ;;
    make Hull (Some C).

End Endian.
End Slice.

Abbreviation BitSlice := Slice.BitSlice.

(** ** The bit/type bridge *)

(** Conversion of an [unsigned] to [int]. *)
Definition to_int (z : Z) : Z := (z + 2 ^ 31) mod 2 ^ 32 - 2 ^ 31.

(** The indices [lo, lo+1, ..., hi-1] of a counting loop. *)
Definition upto (lo hi : Z) : list Z :=
  map (fun k => lo + Z.of_nat k) (seq 0 (Z.to_nat (hi - lo))).

Definition nth_view {A} (l : list (option A)) (i : Z) : option A :=
  match nth_error l (Z.to_nat i) with
  | Some (Some a) => Some a
  | _ => None
  end.

Definition CreatePtrToInt (C : Constant) (DestTy : Ty) : option Constant :=
  match C, DestTy with
  | ConstantPointer _ a u, IntegerTy w =>
      Some (ConstantInt w (a mod 2 ^ w) (u mod 2 ^ w))
  | _, _ => None
  end.

Definition CreateIntToPtr (C : Constant) (DestTy : Ty) : option Constant :=
  match C, DestTy with
  | ConstantInt _ v u, PointerTy p => Some (ConstantPointer p v u)
  | _, _ => None
  end.

(** [CreateBitCast] between an integer and a scalar of the same width. *)
Definition CreateBitCast (C : Constant) (DestTy : Ty) : option Constant :=
  match C, DestTy with
  | ConstantInt w v u, IntegerTy w' =>
      if w =? w' then Some C else None
  | ConstantFP k v u, IntegerTy w' =>
      if FPBits k =? w' then Some (ConstantInt w' v u) else None
  | ConstantInt w v u, PrimitiveTy k =>
      if w =? FPBits k then Some (ConstantFP k v u) else None
  | ConstantFP k v u, PrimitiveTy k' =>
      if FPKind_eqb k k' then Some C else None
  | _, _ => None
  end.

Section Bridge.
Variable TD : TargetData.
Variable BYTES_BIG_ENDIAN : bool.

(** [ViewAsBits].  The source switches on the type of [C]; a constant of
    pointer, scalar, array, struct or vector type is the constant of that
    form, and every other type ends in [DieAbjectly].  The array and the
    vector case differ only in the instruction that extracts an element
    ([CreateExtractValue], [CreateExtractElement]) and share [sequential].
    The loops extract element [i] and view it; here the views of the
    elements are tabulated and the loop looks up the one it needs. *)
Fixpoint ViewAsBits (C : Constant) (R : SignedRange) {struct C} : option BitSlice :=
  if Range.empty R then Some Slice.nil
  else
    let T := getType C in
    let StoreSize := getTypeStoreSizeInBits TD T in
    let R := Range.Meet R (mkRange 0 StoreSize) in
    if Range.empty R then Some Slice.nil
    else
      _ <- assert (0 <? StoreSize) ;;
      let scalar :=
        let BitWidth := to_unsigned (getPrimitiveSizeInBits T) in
        let IntTy := IntegerType_get BitWidth in
        C' <- CreateBitCast C IntTy ;;
        if BYTES_BIG_ENDIAN
        then Slice.make (mkRange (to_int (to_unsigned (StoreSize - BitWidth))) StoreSize)
                        (Some C')
        else Slice.make (mkRange 0 (to_int BitWidth)) (Some C') in
      let sequential (EltTy : Ty) (Vals : list Constant) :=
        let NumElts := to_unsigned (Z.of_nat (length Vals)) in
        let Stride := to_unsigned (getTypeAllocSizeInBits TD EltTy) in
        _ <- assert (0 <? Stride) ;;
        let FirstElt := to_unsigned (Range.getFirst R) / Stride in
        let LastElt := to_unsigned (Range.getLast R + Stride - 1) / Stride in
        _ <- assert (LastElt <=? NumElts) ;;
        let StrideRange := mkRange 0 (to_int Stride) in
        let EltViews := map (fun Elt => ViewAsBits Elt StrideRange) Vals in
        fold_left
          (fun Bits i =>
             Bits <- Bits ;;
             EltBits <- nth_view EltViews i ;;
             Moved <- Slice.Displace EltBits (to_int (to_unsigned (i * Stride))) ;;
             Slice.Merge BYTES_BIG_ENDIAN Bits Moved)
          (upto FirstElt LastElt) (Some Slice.nil) in
      match C with
      | ConstantPointer _ _ _ =>
          let IntTy := getIntPtrType TD in
          C' <- CreatePtrToInt C IntTy ;;
          Slice.make (mkRange 0 StoreSize) (Some C')
      | ConstantFP _ _ _ => scalar
      | ConstantInt _ _ _ => scalar
      | ConstantArray EltTy Vals => sequential EltTy Vals
      | ConstantStruct Packed Vals =>
          let SL := getElementOffsets TD Packed (map getType Vals) in
          FirstIdx <- getElementContainingOffset SL (Z.quot (Range.getFirst R + 7) 8) ;;
          LastIdx' <- getElementContainingOffset SL (Z.quot (Range.getLast R + 6) 8) ;;
          let FirstIdx := to_unsigned FirstIdx in
          let LastIdx := to_unsigned (1 + LastIdx') in
          let FieldViews :=
            map (fun Field =>
                   let FieldStoreSize :=
                     to_unsigned (getTypeStoreSizeInBits TD (getType Field)) in
                   ViewAsBits Field (mkRange 0 (to_int FieldStoreSize))) Vals in
          fold_left
            (fun Bits i =>
               Bits <- Bits ;;
               FieldBits <- nth_view FieldViews i ;;
               Off <- nth_error SL (Z.to_nat i) ;;
               Moved <- Slice.Displace FieldBits (to_int (to_unsigned (Off * 8))) ;;
               Slice.Merge BYTES_BIG_ENDIAN Bits Moved)
            (upto FirstIdx LastIdx) (Some Slice.nil)
      | ConstantVector EltTy Vals => sequential EltTy Vals
      | ConstantOther _ => None
      end.

(** The integer case of [InterpretAsType]. *)
Definition InterpretAsIntegerTy (C : Constant) (T : Ty) (StartingBit : Z)
    : option Constant :=
  let BitWidth := to_unsigned (getPrimitiveSizeInBits T) in
  let StoreSize := to_unsigned (getTypeStoreSizeInBits TD T) in
  Bits <- ViewAsBits C (mkRange StartingBit
                                (to_int (to_unsigned (StartingBit + StoreSize)))) ;;
  Bits <- Slice.Displace Bits (- StartingBit) ;;
  if BYTES_BIG_ENDIAN
  then Slice.getBits BYTES_BIG_ENDIAN Bits
         (mkRange (to_int (to_unsigned (StoreSize - BitWidth))) (to_int StoreSize))
  else Slice.getBits BYTES_BIG_ENDIAN Bits (mkRange 0 (to_int BitWidth)).

(** [InterpretAsType(C, IntTy, StartingBit)] for an integer type [IntTy], as
    the pointer and scalar cases call it: the fast path, then the integer
    case. *)
Definition InterpretAsInteger (C : Constant) (IntTy : Ty) (StartingBit : Z)
    : option Constant :=
  if Ty_eqb (getType C) IntTy then Some C
  else InterpretAsIntegerTy C IntTy StartingBit.

Definition all_of_type (T : Ty) (Vals : list Constant) : bool :=
  forallb (fun V => Ty_eqb (getType V) T) Vals.

(** Collect the results of a loop that fills a vector of constants. *)
Fixpoint collect {A} (l : list (option A)) : option (list A) :=
  match l with
  | [] => Some []
  | x :: xs => a <- x ;; r <- collect xs ;; Some (a :: r)
  end.

Fixpoint InterpretAsType (T : Ty) (C : Constant) (StartingBit : Z) {struct T}
    : option Constant :=
  if Ty_eqb (getType C) T then Some C
  else
    match T with
    | IntegerTy _ => InterpretAsIntegerTy C T StartingBit
    | PointerTy _ =>
        let IntTy := getIntPtrType TD in
        C' <- InterpretAsInteger C IntTy StartingBit ;;
        CreateIntToPtr C' T
    | PrimitiveTy _ =>
        let BitWidth := to_unsigned (getPrimitiveSizeInBits T) in
        let IntTy := IntegerType_get BitWidth in
        C' <- InterpretAsInteger C IntTy StartingBit ;;
        CreateBitCast C' T
    | ArrayTy EltTy NumElts' =>
        let Stride := to_unsigned (getTypeAllocSizeInBits TD EltTy) in
        let NumElts := to_unsigned NumElts' in
        Vals <- collect
          (map (fun i => InterpretAsType EltTy C
                           (to_int (to_unsigned (StartingBit + i * Stride))))
               (upto 0 NumElts)) ;;
        _ <- assert (all_of_type EltTy Vals) ;;
        Some (ConstantArray EltTy Vals)
    | StructTy Packed Elts =>
        let SL := getElementOffsets TD Packed Elts in
        Vals <- collect
          ((fix fields (Tys : list Ty) (i : nat) {struct Tys} :=
              match Tys with
              | [] => []
              | T :: Tys' =>
                  (Off <- nth_error SL i ;;
                   InterpretAsType T C
                     (to_int (to_unsigned (StartingBit + Off * 8))))
                  :: fields Tys' (S i)
              end) Elts 0%nat) ;;
        _ <- assert (Ty_eqb (StructTy Packed (map getType Vals)) T) ;;
        Some (ConstantStruct Packed Vals)
    | VectorTy EltTy NumElts' =>
        let Stride := to_unsigned (getTypeAllocSizeInBits TD EltTy) in
        let NumElts := to_unsigned NumElts' in
        Vals <- collect
          (map (fun i => InterpretAsType EltTy C
                           (to_int (to_unsigned (StartingBit + i * Stride))))
               (upto 0 NumElts)) ;;
        _ <- assert (all_of_type EltTy Vals) ;;
        Some (ConstantVector EltTy Vals)
    | _ => None
    end.

End Bridge.


(** ** FieldContents *)

Definition BITS_PER_UNIT : Z := 8.

(** Modelled from the spec: [GetUnitType] of dragonegg/Internals.h, which is
    not among the sources: the integer type one address unit wide, or for any
    other count the array of that many units (the byte arrays and the empty
    array of the comments in [extractContents]). *)
Definition GetUnitType (NumUnits : Z) : Ty :=
  if NumUnits =? 1 then IntegerTy BITS_PER_UNIT
  else ArrayTy (IntegerTy BITS_PER_UNIT) NumUnits.

Module Field.

Record FieldContents := mkFieldContents {
  R : SignedRange;       (* the range of bits occupied by the constant *)
  C : option Constant;   (* the constant; may be null if the range is empty *)
  Starts : Z             (* the first bit of the constant is positioned here *)
}.

(** The private constructor, with its assertion. *)
Definition make (r : SignedRange) (c : option Constant) (starts : Z)
    : option FieldContents :=
  _ <- assert (Range.empty r || match c with Some _ => true | None => false end) ;;
  Some (mkFieldContents r c starts).

(** The default constructor: the empty range. *)
Definition nil : FieldContents := mkFieldContents (mkRange 0 0) None 0.

Definition get (first last : Z) (c : Constant) : option FieldContents :=
  make (mkRange first last) (Some c) first.

Definition getRange (F : FieldContents) : SignedRange := R F.

Definition ChangeRangeTo (F : FieldContents) (r : SignedRange) : FieldContents :=
  mkFieldContents r (C F) (Starts F).

Section Target.
Variable TD : TargetData.
Variable BYTES_BIG_ENDIAN : bool.

(** [getAsBits]: the outer option is the fault, the inner one the null
    pointer returned for an empty range. *)
Definition getAsBits (F : FieldContents) : option (option Constant) :=
  if Range.empty (R F) then Some None
  else
    let IntTy := IntegerType_get (Range.getWidth (R F)) in
    c <- C F ;;
    r <- InterpretAsType TD BYTES_BIG_ENDIAN IntTy c
           (Range.getFirst (R F) - Starts F) ;;
    Some (Some r).

Definition isSafeToReturnContentsDirectly (F : FieldContents) : bool :=
  match C F with
  | None => false
  | Some c =>
      if negb (Range.empty (R F)) && negb (Range.getFirst (R F) =? Starts F)
      then false
      else
        let T := getType c in
        let AllocBits := to_unsigned (getTypeAllocSizeInBits TD T) in
        AllocBits <=? to_unsigned (Range.getWidth (R F))
  end.

(** [extractContents] caches what it computes in the field; the result is
    the constant together with the updated field. *)
Definition extractContents (F : FieldContents) : option (Constant * FieldContents) :=
  if isSafeToReturnContentsDirectly F then
    c <- C F ;; Some (c, F)
  else if Range.empty (R F) then
    let c := UndefValue (GetUnitType 0) in
    let F := mkFieldContents (R F) (Some c) (Starts F) in
    _ <- assert (isSafeToReturnContentsDirectly F) ;;
    Some (c, F)
  else
    _ <- assert (Z.rem (Range.getWidth (R F)) BITS_PER_UNIT =? 0) ;;
    let Units := to_unsigned (Z.quot (Range.getWidth (R F)) BITS_PER_UNIT) in
    bits <- getAsBits F ;;
    c <- bits ;;
    let F := mkFieldContents (R F) (Some c) (Range.getFirst (R F)) in
    if isSafeToReturnContentsDirectly F then Some (c, F)
    else
      c <- InterpretAsType TD BYTES_BIG_ENDIAN (GetUnitType Units) c 0 ;;
      let F := mkFieldContents (R F) (Some c) (Starts F) in
      _ <- assert (isSafeToReturnContentsDirectly F) ;;
      Some (c, F).

Definition JoinWith (F S0 : FieldContents) : option FieldContents :=
  a <- getAsBits F ;;
  Bits <- Slice.make (R F) a ;;
  b <- getAsBits S0 ;;
  Other <- Slice.make (R S0) b ;;
  Bits <- Slice.Merge BYTES_BIG_ENDIAN Bits Other ;;
  let r := Slice.getRange Bits in
  c <- Slice.getBits BYTES_BIG_ENDIAN Bits r ;;
  Some (mkFieldContents r (Some c) (if Range.empty r then 0 else Range.getFirst r)).

End Target.
End Field.

Abbreviation FieldContents := Field.FieldContents.

(** ** IntervalList<FieldContents, int, 8> *)

Module IntervalList.

Section Target.
Variable TD : TargetData.
Variable BYTES_BIG_ENDIAN : bool.

(** Modelled from the spec: the class template [IntervalList] of
    dragonegg/ADT/IntervalList.h, which is not among the sources: intervals
    kept sorted by their first bit and pairwise disjoint.  An interval added
    over existing ones is folded with them into one interval that spans the
    union, by the merge operation of the payload, [JoinWith]; within its own
    range the bits of the added interval take precedence (an explicit field
    value overwrites the default zero), so what is joined with it are the
    parts of the existing intervals outside its range, cut out with
    [ChangeRangeTo]: the operands of [JoinWith] must be disjoint.  An empty
    interval is not added. *)
Fixpoint AddInterval (L : list FieldContents) (Interval : FieldContents)
    : option (list FieldContents) :=
  let NewRange := Field.getRange Interval in
  if Range.empty NewRange then Some L
  else
    match L with
    | [] => Some [Interval]
    | I0 :: rest =>
        let r := Field.getRange I0 in
        if Last r <=? First NewRange then
          tail <- AddInterval rest Interval ;;
          Some (I0 :: tail)
        else if Last NewRange <=? First r then Some (Interval :: I0 :: rest)
        else
          Joined <-
            (if First r <? First NewRange
             then Field.JoinWith TD BYTES_BIG_ENDIAN
                    (Field.ChangeRangeTo I0 (mkRange (First r) (First NewRange)))
                    Interval
             else Some Interval) ;;
          Joined <-
            (if Last NewRange <? Last r
             then Field.JoinWith TD BYTES_BIG_ENDIAN Joined
                    (Field.ChangeRangeTo I0 (mkRange (Last NewRange) (Last r)))
             else Some Joined) ;;
          AddInterval rest Joined
    end.

(** The range of an interval with its start rounded down and its end
    rounded up to a multiple of [Alignment]. *)
Definition AlignedRange (Alignment : Z) (r : SignedRange) : SignedRange :=
  mkRange (First r - Z.rem (First r) Alignment)
          ((Last r + Alignment - 1) - Z.rem (Last r + Alignment - 1) Alignment).

(** Modelled from the spec: [AlignBoundaries], the pass that snaps every
    interval boundary to a multiple of [Alignment].  The intervals that
    begin before the rounded-up end of [Interval] are coalesced into it with
    [JoinWith]; then its range is snapped to the boundaries. *)
Fixpoint AlignFrom (Alignment : Z) (Interval : FieldContents)
    (rest : list FieldContents) : option (list FieldContents) :=
  let Aligned := AlignedRange Alignment (Field.getRange Interval) in
  match rest with
  | [] => Some [Field.ChangeRangeTo Interval Aligned]
  | Next :: rest' =>
      if First (Field.getRange Next) <? Last Aligned then
        Joined <- Field.JoinWith TD BYTES_BIG_ENDIAN Interval Next ;;
        AlignFrom Alignment Joined rest'
      else
        tail <- AlignFrom Alignment Next rest' ;;
        Some (Field.ChangeRangeTo Interval Aligned :: tail)
  end.

Definition AlignBoundaries (Alignment : Z) (L : list FieldContents)
    : option (list FieldContents) :=
  _ <- assert (0 <? Alignment) ;;
  match L with
  | [] => Some []
  | Interval :: rest => AlignFrom Alignment Interval rest
  end.

End Target.
End IntervalList.

(** ** GCC trees *)

Inductive tree_code :=
  | INTEGER_TYPE | REAL_TYPE | COMPLEX_TYPE | POINTER_TYPE | ARRAY_TYPE
  | VECTOR_TYPE | RECORD_TYPE | UNION_TYPE | QUAL_UNION_TYPE | OTHER_TYPE.

(** A type node with the attributes the converter reads.  [TYPE_UID]
    identifies the node: two [tree]s are the same type when they are the same
    node.  [TYPE_LLVM] is the LLVM type [ConvertType] gives for the node
    ([ConvertType] lives in another file of the plugin).  [TYPE_SIZE] and
    [DECL_SIZE] are [Some] for an [INTEGER_CST] and [None] for a missing or
    variable size; [FIELD_OFFSET] is [getFieldOffsetInBits] when
    [OffsetIsLLVMCompatible] holds and [None] otherwise; [TYPE_LENGTH] is
    [ArrayLengthOf] or [TYPE_VECTOR_SUBPARTS], [None] for [NO_LENGTH]. *)
Inductive gcc_type := mk_gcc_type {
  TYPE_UID : Z;
  TREE_CODE : tree_code;
  TYPE_LLVM : Ty;
  TYPE_ALIGN : Z;
  TYPE_SIZE : option Z;
  TYPE_SIZE_UNIT : option Z;
  TYPE_UNSIGNED : bool;
  TREE_TYPE : option gcc_type;             (* element type *)
  TYPE_FIELDS : list field_decl;
  TYPE_DOMAIN : option (Z * option Z);     (* TYPE_MIN_VALUE, TYPE_MAX_VALUE *)
  TYPE_LENGTH : option Z;
  isSequentialCompatible : bool
}
with field_decl := mk_field_decl {
  IS_FIELD_DECL : bool;                    (* TREE_CODE(field) == FIELD_DECL *)
  FIELD_TYPE : gcc_type;
  FIELD_OFFSET : option Z;
  DECL_SIZE : option Z
}.

Definition ConvertType (t : gcc_type) : Ty := TYPE_LLVM t.

Definition same_type (a b : gcc_type) : bool := TYPE_UID a =? TYPE_UID b.

Definition AGGREGATE_TYPE_P (t : gcc_type) : bool :=
  match TREE_CODE t with
  | ARRAY_TYPE | RECORD_TYPE | UNION_TYPE | QUAL_UNION_TYPE => true
  | _ => false
  end.

(** The nodes [isInt64] is asked about. *)
Inductive tree_node :=
  | NULL_TREE
  | INTEGER_CST_node (v : Z)
  | TYPE_node (t : gcc_type)
  | OTHER_node.

Definition size_node (s : option Z) : tree_node :=
  match s with Some v => INTEGER_CST_node v | None => NULL_TREE end.

(** Modelled from the spec: [isInt64] and [getInt64] of dragonegg/Trees.h,
    which is not among the sources: whether the node is an integer constant
    exactly representable as a fixed 64-bit integer (unsigned when
    [Unsigned]), and its value. *)
Definition isInt64 (t : tree_node) (Unsigned : bool) : bool :=
  match t with
  | INTEGER_CST_node v =>
      if Unsigned then (0 <=? v) && (v <? 2 ^ 64)
      else (- 2 ^ 63 <=? v) && (v <? 2 ^ 63)
  | _ => false
  end.

Definition getInt64 (t : tree_node) (Unsigned : bool) : Z :=
  match t with
  | INTEGER_CST_node v => v
  | _ => 0
  end.

Inductive cst_code := INTEGER_CST | REAL_CST | COMPLEX_CST | VECTOR_CST.

Inductive constructor_index :=
  | NO_INDEX                               (* NULL_TREE: the next slot *)
  | INDEX (v : Z)   (* an INTEGER_CST index, or the position of a FIELD_DECL *)
  | RANGE_EXPR (first last : Z).

(** Expressions.  A simple constant carries the bytes [native_encode_expr]
    writes for it, a string constant the bytes of [TREE_STRING_POINTER]. *)
Inductive tree :=
  | CST (code : cst_code) (type : gcc_type) (encoded : list Z)
  | STRING_CST (type : gcc_type) (str : list Z)
  | ADDR_EXPR (type : gcc_type) (op : tree)
  | CONSTRUCTOR (type : gcc_type) (elts : list (constructor_index * tree))
  | CONVERT_EXPR (type : gcc_type) (op : tree)
  | NOP_EXPR (type : gcc_type) (op : tree)
  | MINUS_EXPR (type : gcc_type) (op0 op1 : tree)
  | PLUS_EXPR (type : gcc_type) (op0 op1 : tree)
  | POINTER_PLUS_EXPR (type : gcc_type) (op0 op1 : tree)
  | VIEW_CONVERT_EXPR (type : gcc_type) (op : tree)
  | OTHER_EXPR (type : gcc_type).

Definition TREE_TYPE_of (exp : tree) : gcc_type :=
  match exp with
  | CST _ t _ | STRING_CST t _ | ADDR_EXPR t _ | CONSTRUCTOR t _
  | CONVERT_EXPR t _ | NOP_EXPR t _ | MINUS_EXPR t _ _ | PLUS_EXPR t _ _
  | POINTER_PLUS_EXPR t _ _ | VIEW_CONVERT_EXPR t _ | OTHER_EXPR t => t
  end.

(** ** ConvertInitializer *)

(** What the converter takes from its surroundings: the target, the GCC
    flags and macros, and the services of other parts of the plugin and of
    LLVM's folder whose results it passes on unexamined ([getDefaultValue] of
    dragonegg/Internals.h, [AddressOf], [CastInst::getCastOpcode] with
    [CreateCast], [CreateAdd], [CreateSub], [CreateGetElementPtr] and its
    in-bounds form). *)
Record Environment := mkEnvironment {
  getTargetData : TargetData;
  BYTES_BIG_ENDIAN : bool;
  isBigEndianHost : bool;
  flag_default_initialize_globals : bool;
  POINTER_TYPE_OVERFLOW_UNDEFINED : bool;
  getDefaultValue : Ty -> Constant;
  AddressOf : tree -> option Constant;
  CreateCast : Constant -> bool -> Ty -> bool -> option Constant;
  CreateAdd : Constant -> Constant -> option Constant;
  CreateSub : Constant -> Constant -> option Constant;
  CreateGetElementPtr : bool -> Constant -> Constant -> option Constant
}.

(** Modelled from the spec: [getDefaultValue] of dragonegg/Internals.h, which
    is not among the sources: the value of what is given no initial value,
    the zero of the type when globals are default initialized
    ([flag_default_initialize_globals]) and the undefined value otherwise. *)
Definition default_value (default_initialize_globals : bool) (T : Ty) : Constant :=
  if default_initialize_globals then getNullValue T else UndefValue T.

Definition CHAR_BIT : Z := 8.

Definition isPointerTy (T : Ty) : bool :=
  match T with PointerTy _ => true | _ => false end.

(** A pointer cast with [CreateBitCast]. *)
Definition CreatePointerCast (C : Constant) (DestTy : Ty) : option Constant :=
  match C, DestTy with
  | ConstantPointer _ a u, PointerTy p => Some (ConstantPointer p a u)
  | _, _ => CreateBitCast C DestTy
  end.

(** [std::vector::resize]. *)
Definition resize {A} (l : list (option A)) (n : Z) : list (option A) :=
  firstn (Z.to_nat n) l ++ repeat None (Z.to_nat n - length l).

(** The loop [for (; FirstIndex <= LastIndex; ++FirstIndex) Elts[FirstIndex] = Val]. *)
Definition fill {A} (l : list (option A)) (FirstIndex LastIndex : Z) (Val : A)
    : list (option A) :=
  if FirstIndex <=? LastIndex then
    firstn (Z.to_nat FirstIndex) l
    ++ repeat (Some Val) (Z.to_nat (LastIndex - FirstIndex + 1))
    ++ skipn (Z.to_nat (LastIndex + 1)) l
  else l.

(** A host-order read of a 16 or 32 bit unit from the bytes of a string. *)
Fixpoint read_le (bytes : list Z) : Z :=
  match bytes with
  | [] => 0
  | b :: bs => b mod 256 + 256 * read_le bs
  end.

Definition read_host (hostBE : bool) (bytes : list Z) : Z :=
  if hostBE then read_le (rev bytes) else read_le bytes.

Definition ByteSwap (n : nat) (v : Z) : Z :=
  read_le (rev (map (fun k => Z.shiftr v (8 * Z.of_nat k) mod 256) (seq 0 n))).

(** The units of [n] bytes of a string, [count] of them. *)
Definition units (n : nat) (str : list Z) (count : Z) : list (list Z) :=
  map (fun k => firstn n (skipn (n * k) str)) (seq 0 (Z.to_nat count)).

Section Converter.
Variable E : Environment.

Let TD := getTargetData E.
Let BE := BYTES_BIG_ENDIAN E.

Definition ConvertInitializerWithCast (Converted : option Constant)
    (exp_type type : gcc_type) : option Constant :=
  C <- Converted ;;
  if same_type type exp_type || AGGREGATE_TYPE_P exp_type || AGGREGATE_TYPE_P type
  then Some C
  else
    let SrcTy := ConvertType exp_type in
    let DestTy := ConvertType type in
    if Ty_eqb SrcTy DestTy then Some C
    else
      C <- InterpretAsType TD BE SrcTy C 0 ;;
      let SrcIsSigned := negb (TYPE_UNSIGNED exp_type) in
      let DestIsSigned := negb (TYPE_UNSIGNED type) in
      CreateCast E C SrcIsSigned DestTy DestIsSigned.

Definition ConvertCST (type : gcc_type) (encoded : list Z) : option Constant :=
  size <- TYPE_SIZE type ;;
  let SizeInChars := to_unsigned ((size mod 2 ^ 64 + CHAR_BIT - 1) / CHAR_BIT) in
  let CharsWritten :=
    if Z.of_nat (length encoded) <=? SizeInChars
    then Z.of_nat (length encoded) else 0 in
  _ <- assert (CharsWritten =? SizeInChars) ;;
  Some (ConstantArray (IntegerTy 8)
          (map (fun b => ConstantInt 8 (b mod 256) 0) encoded)).

Definition ConvertSTRING_CST (type : gcc_type) (str : list Z) : option Constant :=
  match ConvertType type with
  | ArrayTy ElTy NumElements =>
      let Len := to_unsigned (Z.of_nat (length str)) in
      let swap (n : nat) (v : Z) :=
        if Bool.eqb (isBigEndianHost E) BE then v else ByteSwap n v in
      Elts <-
        match ElTy with
        | IntegerTy 8 => Some (map (fun b => ConstantInt 8 (b mod 256) 0) str)
        | IntegerTy 16 =>
            _ <- assert (Z.land Len 1 =? 0) ;;
            Some (map (fun u => ConstantInt 16 (swap 2%nat (read_host (isBigEndianHost E) u)) 0)
                      (units 2 str (Len / 2)))
        | IntegerTy 32 =>
            _ <- assert (Z.land Len 3 =? 0) ;;
            Some (map (fun u => ConstantInt 32 (swap 4%nat (read_host (isBigEndianHost E) u)) 0)
                      (units 4 str (Len / 4)))
        | _ => None
        end ;;
      elt_type <- TREE_TYPE type ;;
      elt_size <- TYPE_SIZE_UNIT elt_type ;;
      let LenInElts := to_unsigned (Len / (elt_size mod 2 ^ 64)) in
      let ConstantSize := to_unsigned NumElements in
      if negb (LenInElts =? ConstantSize) then
        let variable :=
          (ConstantSize =? 0) &&
          match TYPE_DOMAIN type with
          | None => true
          | Some (_, None) => true
          | Some (_, Some _) => false
          end in
        let ConstantSize := if variable then LenInElts else ConstantSize in
        let Elts :=
          if ConstantSize <? LenInElts then firstn (Z.to_nat ConstantSize) Elts
          else Elts ++ repeat (getNullValue ElTy) (Z.to_nat (ConstantSize - LenInElts)) in
        Some (ConstantArray ElTy Elts)
      else Some (ConstantArray ElTy Elts)
  | _ => None
  end.

Definition ConvertADDR_EXPR (op : tree) : option Constant := AddressOf E op.

(** The first and last elements to fill in, inclusive. *)
Definition element_indices (lower_bnd : option Z) (index : constructor_index)
    (NextIndex : Z) : option (Z * Z) :=
  let lower := match lower_bnd with Some l => l | None => 0 end in
  let host_integerp (v : Z) := (0 <=? v) && (v <? 2 ^ 64) in
  match index with
  | NO_INDEX => Some (NextIndex, NextIndex)
  | RANGE_EXPR first last =>
      let first := first - lower in
      let last := last - lower in
      _ <- assert (host_integerp first && host_integerp last) ;;
      Some (to_unsigned first, to_unsigned last)
  | INDEX index =>
      let index := index - lower in
      _ <- assert (host_integerp index) ;;
      Some (to_unsigned index, to_unsigned index)
  end.

Definition ConvertArrayCONSTRUCTOR
    (convert : tree -> gcc_type -> option Constant)
    (init_type : gcc_type) (elts : list (constructor_index * tree))
    : option Constant :=
  let InitTy := ConvertType init_type in
  elt_type <- TREE_TYPE init_type ;;
  let EltTy := ConvertType elt_type in
  _ <- assert (isSequentialCompatible init_type) ;;
  let EltSize := getTypeAllocSizeInBits TD EltTy in
  let Elts : list (option Constant) :=
    match TYPE_LENGTH init_type with
    | Some TypeElts => resize [] TypeElts
    | None => []
    end in
  let lower_bnd :=
    match TREE_CODE init_type, TYPE_DOMAIN init_type with
    | ARRAY_TYPE, Some (min, _) => if min =? 0 then None else Some min
    | _, _ => None
    end in
  state <- fold_left
    (fun state elt =>
       st <- state ;;
       let '(Elts, NextIndex) := st in
       let '(elt_index, elt_value) := elt in
       Val <- convert elt_value elt_type ;;
       let ValSize := getTypeAllocSizeInBits TD (getType Val) in
       _ <- assert (ValSize <=? EltSize) ;;
       Val <- (if ValSize <? EltSize then
                 let PadBits := to_unsigned (EltSize - ValSize) in
                 _ <- assert (Z.rem PadBits BITS_PER_UNIT =? 0) ;;
                 let Units := Z.quot PadBits BITS_PER_UNIT in
                 let Padding := UndefValue (GetUnitType Units) in
                 Some (ConstantStruct false [Val; Padding])
               else Some Val) ;;
       fl <- element_indices lower_bnd elt_index NextIndex ;;
       let '(FirstIndex, LastIndex) := fl in
       let Elts :=
         if Z.of_nat (length Elts) <=? LastIndex
         then resize Elts (to_unsigned (LastIndex + 1)) else Elts in
       let Elts := fill Elts FirstIndex LastIndex Val in
       let NextIndex :=
         if FirstIndex <=? LastIndex then to_unsigned (LastIndex + 1)
         else FirstIndex in
       Some (Elts, NextIndex))
    elts (Some (Elts, 0)) ;;
  let Elts := fst state in
  let NumElts := to_unsigned (Z.of_nat (length Elts)) in
  if NumElts =? 0 then Some (getDefaultValue E InitTy)
  else
    let DefaultElt := getDefaultValue E EltTy in
    let Elts := map (fun e => match e with Some c => c | None => DefaultElt end) Elts in
    match Elts with
    | [] => None
    | Elt0 :: Others =>
        let ActualEltTy := getType Elt0 in
        let '(MaxAlign, UseStruct) :=
          fold_left
            (fun acc Elt =>
               if negb (Ty_eqb (getType Elt) ActualEltTy)
               then (Z.max (getABITypeAlignment TD (getType Elt)) (fst acc), true)
               else acc)
            Others (getABITypeAlignment TD ActualEltTy, false) in
        let Pack := TYPE_ALIGN init_type <? to_unsigned (MaxAlign * 8) in
        let TypeSize := getTypeAllocSizeInBits TD InitTy in
        pad <- (if NumElts * EltSize <? TypeSize then
                  let PadBits := to_unsigned (TypeSize - NumElts * EltSize) in
                  _ <- assert (Z.rem PadBits BITS_PER_UNIT =? 0) ;;
                  let Units := Z.quot PadBits BITS_PER_UNIT in
                  Some (Elts ++ [UndefValue (GetUnitType Units)], true)
                else Some (Elts, UseStruct)) ;;
        let '(Elts, UseStruct) := pad in
        if UseStruct || Pack then Some (ConstantStruct Pack Elts)
        else if Ty_eqb ActualEltTy EltTy &&
                match TREE_CODE init_type with VECTOR_TYPE => true | _ => false end
        then Some (ConstantVector ActualEltTy Elts)
        else Some (ConstantArray ActualEltTy Elts)
    end.

(** The first [FIELD_DECL] of the chain at or after position [i]. *)
Fixpoint next_FIELD_DECL (fields : list field_decl) (i : nat) : option nat :=
  match fields with
  | [] => None
  | f :: fs => if IS_FIELD_DECL f then Some i else next_FIELD_DECL fs (S i)
  end.

(** The loop that decides whether to return a packed struct. *)
Fixpoint needs_packing (MaxAlign : Z) (Layout : list FieldContents)
    : option bool :=
  match Layout with
  | [] => Some false
  | F :: rest =>
      let First := to_unsigned (Range.getFirst (Field.getRange F)) in
      vf <- Field.extractContents TD BE F ;;
      let Val := fst vf in
      let Alignment := to_unsigned (getABITypeAlignment TD (getType Val) * 8) in
      _ <- assert (negb (Alignment =? 0)) ;;
      if (MaxAlign <? Alignment) || negb (First mod Alignment =? 0)
      then Some true
      else needs_packing MaxAlign rest
  end.

(** The loop that creates the elements of the struct; the state is the
    elements so far and [EndOfPrevious]. *)
Definition layout_elements (Pack : bool) (Layout : list FieldContents)
    : option (list Constant * Z) :=
  fold_left
    (fun state F =>
       st <- state ;;
       let '(Elts, EndOfPrevious) := st in
       let First := to_unsigned (Range.getFirst (Field.getRange F)) in
       vf <- Field.extractContents TD BE F ;;
       let Val := fst vf in
       _ <- assert (EndOfPrevious <=? First) ;;
       Elts <- (if EndOfPrevious <? First then
                  let NeedPadding :=
                    if negb Pack then
                      let Alignment :=
                        to_unsigned (getABITypeAlignment TD (getType Val) * 8) in
                      negb (First =?
                            to_unsigned (EndOfPrevious + Alignment - 1)
                              / Alignment * Alignment)
                    else true in
                  if NeedPadding then
                    _ <- assert (to_unsigned (First - EndOfPrevious) mod BITS_PER_UNIT =? 0) ;;
                    let Units := to_unsigned (First - EndOfPrevious) / BITS_PER_UNIT in
                    Some (Elts ++ [UndefValue (GetUnitType Units)])
                  else Some Elts
                else Some Elts) ;;
       Some (Elts ++ [Val],
             to_unsigned (First + getTypeAllocSizeInBits TD (getType Val))))
    Layout (Some ([], 0)).

Definition ConvertRecordCONSTRUCTOR
    (convert : tree -> gcc_type -> option Constant)
    (type : gcc_type) (elts : list (constructor_index * tree))
    : option Constant :=
  let TypeSize := getTypeAllocSizeInBits TD (ConvertType type) in
  (* Default initialize the fields by setting them to zero. *)
  Layout <-
    (if flag_default_initialize_globals E then
       fold_left
         (fun Layout field =>
            Layout <- Layout ;;
            if negb (IS_FIELD_DECL field) then Some Layout
            else
              match FIELD_OFFSET field with
              | None => Some Layout
              | Some FirstBit =>
                  _ <- assert (FirstBit <=? TypeSize) ;;
                  let FieldTy := ConvertType (FIELD_TYPE field) in
                  let seed (BitWidth : Z) :=
                    let LastBit := FirstBit + BitWidth in
                    let Zero := getNullValue FieldTy in
                    F <- Field.get (to_int FirstBit) (to_int LastBit) Zero ;;
                    IntervalList.AddInterval TD BE Layout F in
                  if isInt64 (size_node (DECL_SIZE field)) true then
                    seed (getInt64 (size_node (DECL_SIZE field)) true)
                  else if negb (isSized FieldTy) then Some Layout
                  else
                    let BitWidth := getTypeAllocSizeInBits TD FieldTy in
                    seed (if TypeSize <? FirstBit + BitWidth
                          then TypeSize - FirstBit else BitWidth)
              end)
         (TYPE_FIELDS type) (Some [])
     else Some []) ;;
  (* Set the bits of each field that has an initial value. *)
  state <- fold_left
    (fun state elt =>
       st <- state ;;
       let '(Layout, next_field) := st in
       let '(field_index, value) := elt in
       pos <- match field_index with
              | NO_INDEX =>
                  k <- next_FIELD_DECL (skipn next_field (TYPE_FIELDS type)) next_field ;;
                  Some k
              | INDEX v => Some (Z.to_nat v)
              | RANGE_EXPR _ _ => None
              end ;;
       field <- nth_error (TYPE_FIELDS type) pos ;;
       let next_field := S pos in
       _ <- assert (IS_FIELD_DECL field) ;;
       FirstBit <- FIELD_OFFSET field ;;
       Init <- convert value (FIELD_TYPE field) ;;
       _ <- assert (FirstBit <=? TypeSize) ;;
       let BitWidth :=
         if isInt64 (size_node (DECL_SIZE field)) true
         then getInt64 (size_node (DECL_SIZE field)) true
         else getTypeAllocSizeInBits TD (getType Init) in
       let LastBit := FirstBit + BitWidth in
       F <- Field.get (to_int FirstBit) (to_int LastBit) Init ;;
       Layout <- IntervalList.AddInterval TD BE Layout F ;;
       Some (Layout, next_field))
    elts (Some (Layout, 0%nat)) ;;
  let Layout := fst state in
  Layout <- IntervalList.AlignBoundaries TD BE BITS_PER_UNIT Layout ;;
  let MaxAlign := to_unsigned (TYPE_ALIGN type) in
  Pack <- needs_packing MaxAlign Layout ;;
  st <- layout_elements Pack Layout ;;
  let '(Elts, EndOfPrevious) := st in
  Elts <- (if EndOfPrevious <? TypeSize then
             _ <- assert ((TypeSize - EndOfPrevious) mod BITS_PER_UNIT =? 0) ;;
             let Units := to_unsigned ((TypeSize - EndOfPrevious) / BITS_PER_UNIT) in
             Some (Elts ++ [UndefValue (GetUnitType Units)])
           else Some Elts) ;;
  Some (ConstantStruct Pack Elts).

Definition ConvertCONSTRUCTOR
    (convert : tree -> gcc_type -> option Constant)
    (type : gcc_type) (elts : list (constructor_index * tree))
    : option Constant :=
  if Z.of_nat (length elts) =? 0 then Some (getDefaultValue E (ConvertType type))
  else
    match TREE_CODE type with
    | VECTOR_TYPE | ARRAY_TYPE => ConvertArrayCONSTRUCTOR convert type elts
    | QUAL_UNION_TYPE | RECORD_TYPE | UNION_TYPE =>
        ConvertRecordCONSTRUCTOR convert type elts
    | _ => None
    end.

Definition ConvertBinOp_CST (minus : bool) (type : gcc_type)
    (LHS : option Constant) (type0 : gcc_type)
    (RHS : option Constant) (type1 : gcc_type) : option Constant :=
  LHS <- LHS ;;
  let LHSIsSigned := negb (TYPE_UNSIGNED type0) in
  RHS <- RHS ;;
  let RHSIsSigned := negb (TYPE_UNSIGNED type1) in
  ops <- (if isPointerTy (getType LHS) then
            let IntPtrTy := getIntPtrType TD in
            L <- CreateCast E LHS LHSIsSigned IntPtrTy false ;;
            R <- CreateCast E RHS RHSIsSigned IntPtrTy false ;;
            Some (L, R)
          else Some (LHS, RHS)) ;;
  Result <- (if minus then CreateSub E (fst ops) (snd ops)
             else CreateAdd E (fst ops) (snd ops)) ;;
  let T := ConvertType type in
  let TyIsSigned := negb (TYPE_UNSIGNED type) in
  CreateCast E Result LHSIsSigned T TyIsSigned.

Definition ConvertPOINTER_PLUS_EXPR (type : gcc_type)
    (Ptr Idx : option Constant) : option Constant :=
  Ptr <- Ptr ;;
  Idx <- Idx ;;
  Ptr <- CreatePointerCast Ptr (PointerTy (IntegerTy BITS_PER_UNIT)) ;;
  GEP <- CreateGetElementPtr E (POINTER_TYPE_OVERFLOW_UNDEFINED E) Ptr Idx ;;
  CreatePointerCast GEP (ConvertType type).

(** The checks of [ConvertInitializer] on the value it is about to return.
    They stand under [#ifndef NDEBUG]: this is the build with assertions,
    like every [assert] of the development; a build without them returns
    [Init] as it is. *)
Definition check_guarantees (type : gcc_type) (Init : Constant) : option Constant :=
  let T := ConvertType type in
  _ <- (if isSized T then
          let InitSize := getTypeAllocSizeInBits TD (getType Init) in
          let TypeSize := getTypeAllocSizeInBits TD T in
          _ <- assert (negb (InitSize <? TypeSize)) ;;
          assert (negb (isInt64 (TYPE_node type) true && negb (InitSize =? TypeSize)))
        else Some tt) ;;
  _ <- assert (negb (TYPE_ALIGN type
                     <? to_unsigned (getABITypeAlignment TD (getType Init) * 8))) ;;
  Some Init.

Fixpoint ConvertInitializer (exp : tree) : option Constant :=
  Init <-
    match exp with
    | CST _ type encoded =>
        C <- ConvertCST type encoded ;;
        InterpretAsType TD BE (ConvertType type) C 0
    | STRING_CST type str => ConvertSTRING_CST type str
    | ADDR_EXPR _ op => ConvertADDR_EXPR op
    | CONSTRUCTOR type elts =>
        ConvertCONSTRUCTOR
          (fun value t =>
             ConvertInitializerWithCast (ConvertInitializer value)
                                        (TREE_TYPE_of value) t)
          type elts
    | CONVERT_EXPR type op | NOP_EXPR type op =>
        ConvertInitializerWithCast (ConvertInitializer op) (TREE_TYPE_of op) type
    | MINUS_EXPR type op0 op1 =>
        ConvertBinOp_CST true type (ConvertInitializer op0) (TREE_TYPE_of op0)
                         (ConvertInitializer op1) (TREE_TYPE_of op1)
    | PLUS_EXPR type op0 op1 =>
        ConvertBinOp_CST false type (ConvertInitializer op0) (TREE_TYPE_of op0)
                         (ConvertInitializer op1) (TREE_TYPE_of op1)
    | POINTER_PLUS_EXPR type op0 op1 =>
        ConvertPOINTER_PLUS_EXPR type (ConvertInitializer op0) (ConvertInitializer op1)
    | VIEW_CONVERT_EXPR _ op => ConvertInitializer op
    | OTHER_EXPR _ => None
    end ;;
  check_guarantees (TREE_TYPE_of exp) Init.

End Converter.

(** ** What the specification says of ExtendRange and Merge *)

(** The contents [ExtendRange(r)] is described to give (no contents when [r]
    holds no bits): all undefined for an empty slice; otherwise the old
    contents at [r]'s width, moved up by the last-side delta on big-endian
    targets and by the first-side delta on little-endian ones, when that
    delta is not zero. *)
Definition ExtendRange_described (BYTES_BIG_ENDIAN : bool) (s : BitSlice)
    (r : SignedRange) : option Constant :=
  if Range.empty r then None
  else if Slice.empty s then Some (UndefValue (IntegerTy (Range.getWidth r)))
  else
    match Slice.Contents s with
    | Some (ConstantInt _ v u) =>
        let W := Range.getWidth r in
        let delta :=
          if BYTES_BIG_ENDIAN then Last r - Last (Slice.R s)
          else First (Slice.R s) - First r in
        if delta =? 0 then Some (ConstantInt W v u)
        else Some (ConstantInt W (Z.shiftl v delta mod 2 ^ W)
                                 (Z.shiftl u delta mod 2 ^ W))
    | _ => None
    end.

(** The two ways of pairing three slices: (x.y).z and x.(y.z). *)
Definition MergeLeft (BYTES_BIG_ENDIAN : bool) (x y z : BitSlice) : option BitSlice :=
  xy <- Slice.Merge BYTES_BIG_ENDIAN x y ;;
  Slice.Merge BYTES_BIG_ENDIAN xy z.

Definition MergeRight (BYTES_BIG_ENDIAN : bool) (x y z : BitSlice) : option BitSlice :=
  yz <- Slice.Merge BYTES_BIG_ENDIAN y z ;;
  Slice.Merge BYTES_BIG_ENDIAN x yz.

(** A slice that satisfies the class invariant, within [int], with integer
    contents that fit their width. *)
Definition wf_slice (s : BitSlice) : Prop :=
  int_range (Slice.R s) /\
  match Slice.Contents s with
  | None => Range.empty (Slice.R s) = true
  | Some (ConstantInt w v u) =>
      Range.empty (Slice.R s) = false /\ w = Range.getWidth (Slice.R s) /\
      0 <= v < 2 ^ w /\ 0 <= u < 2 ^ w
  | Some _ => False
  end.

(** The place, in the contents of a slice over [hull], of the first bit of
    the contents of a slice over [r]. *)
Definition offset_in (BYTES_BIG_ENDIAN : bool) (r hull : SignedRange) : Z :=
  if BYTES_BIG_ENDIAN then Last hull - Last r else First r - First hull.

(** The bits of a slice at their place in [hull]: the defined values and
    the mask of the undefined bits. *)
Definition placed (BYTES_BIG_ENDIAN : bool) (hull : SignedRange) (s : BitSlice)
    : Z * Z :=
  match Slice.Contents s with
  | Some (ConstantInt _ v u) =>
      let d := offset_in BYTES_BIG_ENDIAN (Slice.R s) hull in
      (Z.shiftl (Z.ldiff v u) d, Z.shiftl u d)
  | _ => (0, 0)
  end.

(** The slice over [hull] that holds the bits of each of the slices of [l]
    in the range of that slice, and defined zeros elsewhere. *)
Definition union_of (BYTES_BIG_ENDIAN : bool) (hull : SignedRange)
    (l : list BitSlice) : BitSlice :=
  Slice.mkBitSlice hull
    (Some (ConstantInt (Range.getWidth hull)
             (fold_right (fun s acc => Z.lor (fst (placed BYTES_BIG_ENDIAN hull s)) acc) 0 l)
             (fold_right (fun s acc => Z.lor (snd (placed BYTES_BIG_ENDIAN hull s)) acc) 0 l))).

(** What merging three slices should give: the slice itself when it is the
    only one that holds bits, and otherwise the union of those that do over
    their convex hull. *)
Definition merged (BYTES_BIG_ENDIAN : bool) (x y z : BitSlice) : BitSlice :=
  match filter (fun s => negb (Slice.empty s)) [x; y; z] with
  | [] => x
  | [s] => s
  | l => union_of BYTES_BIG_ENDIAN
           (Range.Join (Range.Join (Slice.R x) (Slice.R y)) (Slice.R z)) l
  end.

(** The orders in which three slices can be paired. *)
Definition orders (a b c : BitSlice) : list (BitSlice * BitSlice * BitSlice) :=
  [(a, b, c); (a, c, b); (b, a, c); (b, c, a); (c, a, b); (c, b, a)].

(** The same range ([==] on ranges) and the same contents. *)
Definition same_slice (s t : BitSlice) : Prop :=
  Range.eqb (Slice.R s) (Slice.R t) = true /\ Slice.Contents s = Slice.Contents t.

(** ** Example targets and trees *)

Module Examples.

Definition x86_64 : TargetData :=
  mkTargetData 64 8
    (fun w => if w <=? 8 then 1 else if w <=? 16 then 2
              else if w <=? 32 then 4 else 8)
    (fun k => match k with FloatTyID => 4 | DoubleTyID | X86_MMXTyID => 8 | _ => 16 end)
    (fun bits => if bits <=? 64 then 8 else 16).

(** An environment whose outside services all refuse. *)
Definition bare (TD : TargetData) (big_endian default_init : bool) : Environment :=
  mkEnvironment TD big_endian false default_init true getNullValue
    (fun _ => None) (fun _ _ _ _ => None) (fun _ _ => None) (fun _ _ => None)
    (fun _ _ _ => None).

(** The same, with the default value the flag asks for. *)
Definition target (TD : TargetData) (big_endian default_init : bool) : Environment :=
  mkEnvironment TD big_endian false default_init true (default_value default_init)
    (fun _ => None) (fun _ _ _ _ => None) (fun _ _ => None) (fun _ _ => None)
    (fun _ _ _ => None).

(** An unsigned integer type of [precision] bits stored in [size] bits. *)
Definition unsigned_type (uid precision size : Z) : gcc_type :=
  mk_gcc_type uid INTEGER_TYPE (IntegerTy precision) size (Some size)
    (Some (size / 8)) true None [] None None false.

(** struct { unsigned a : 3; unsigned b : 5; } *)
Definition bitfields : gcc_type :=
  mk_gcc_type 10 RECORD_TYPE (StructTy false [IntegerTy 8]) 8 (Some 8) (Some 1)
    false None
    [mk_field_decl true (unsigned_type 1 3 8) (Some 0) (Some 3);
     mk_field_decl true (unsigned_type 2 5 8) (Some 3) (Some 5)]
    None None false.

(** { .a = 5, .b = 17 } *)
Definition bitfields_init : tree :=
  CONSTRUCTOR bitfields
    [(INDEX 0, CST INTEGER_CST (unsigned_type 1 3 8) [5]);
     (INDEX 1, CST INTEGER_CST (unsigned_type 2 5 8) [17])].

Definition char_type : gcc_type := unsigned_type 3 8 8.

(** char[n]; [n = None] is the incomplete array type of a flexible member. *)
Definition char_array (uid : Z) (n : option Z) : gcc_type :=
  mk_gcc_type uid ARRAY_TYPE
    (ArrayTy (IntegerTy 8) (match n with Some k => k | None => 0 end))
    8 (option_map (Z.mul 8) n) n false (Some char_type) []
    (Some (0, option_map Z.pred n)) n true.

(** struct { unsigned n; char d[]; }: its size, 32 bits, is a constant. *)
Definition flexible : gcc_type :=
  mk_gcc_type 20 RECORD_TYPE (StructTy false [IntegerTy 32; ArrayTy (IntegerTy 8) 0])
    32 (Some 32) (Some 4) false None
    [mk_field_decl true (unsigned_type 4 32 32) (Some 0) (Some 32);
     mk_field_decl true (char_array 21 None) (Some 32) None]
    None None false.

(** { 1, "ab" } *)
Definition flexible_init : tree :=
  CONSTRUCTOR flexible
    [(INDEX 0, CST INTEGER_CST (unsigned_type 4 32 32) [1; 0; 0; 0]);
     (INDEX 1, STRING_CST (char_array 22 (Some 2)) [97; 98])].

(** An 8 bit constant placed at bit 4, of which the field keeps [8, 16). *)
Definition displaced : FieldContents :=
  Field.ChangeRangeTo
    (Field.mkFieldContents (mkRange 4 12) (Some (ConstantInt 8 15 0)) 4)
    (mkRange 8 16).

(** typedef unsigned unaligned __attribute__((aligned(1))): 32 bits, aligned
    to 8. *)
Definition unaligned : gcc_type :=
  mk_gcc_type 30 INTEGER_TYPE (IntegerTy 32) 8 (Some 32) (Some 4) true None []
    None None false.

(** The constant 1 of that type. *)
Definition unaligned_one : tree := CST INTEGER_CST unaligned [1; 0; 0; 0].

Definition slice_a : BitSlice := Slice.mkBitSlice (mkRange 0 2) (Some (ConstantInt 2 1 0)).
Definition slice_b : BitSlice := Slice.mkBitSlice (mkRange 2 4) (Some (ConstantInt 2 2 0)).
Definition slice_c : BitSlice := Slice.mkBitSlice (mkRange 4 6) (Some (ConstantInt 2 3 0)).

End Examples.


(** ** Types InterpretAsType can rebuild *)

(** The types whose width or element count the converter's [unsigned]
    variables hold: an integer width LLVM allows ([MIN_INT_BITS] to
    [MAX_INT_BITS]), and an array or vector length that survives
    [unsigned NumElts = ATy->getNumElements()]. *)
Definition representable (T : Ty) : Prop :=
  match T with
  | IntegerTy w => 0 < w < 2 ^ 23
  | ArrayTy _ n | VectorTy _ n => 0 <= n < 2 ^ 32
  | _ => True
  end.

(** ** Arrays of bytes *)

(** The slice that views an array of bytes as one integer: the bytes read
    in the byte order of the target. *)
Definition bytes_slice (BYTES_BIG_ENDIAN : bool) (l : list Z) : BitSlice :=
  match l with
  | [] => Slice.nil
  | _ =>
      Slice.mkBitSlice (mkRange 0 (8 * Z.of_nat (length l)))
        (Some (ConstantInt (8 * Z.of_nat (length l)) (read_host BYTES_BIG_ENDIAN l) 0))
  end.

(** ** The address of a constant *)

(** Constants are uniqued in LLVM, so [==] on [Constant*], and with it the
    lookup of a constant in a [DenseMap], is structural equality. *)
Fixpoint Constant_eqb (a b : Constant) {struct a} : bool :=
  match a, b with
  | ConstantInt w v u, ConstantInt w' v' u' => (w =? w') && (v =? v') && (u =? u')
  | ConstantFP k v u, ConstantFP k' v' u' =>
      FPKind_eqb k k' && (v =? v') && (u =? u')
  | ConstantPointer p v u, ConstantPointer p' v' u' =>
      Ty_eqb p p' && (v =? v') && (u =? u')
  | ConstantArray e vs, ConstantArray e' vs' =>
      Ty_eqb e e' &&
      (fix all2 (xs ys : list Constant) {struct xs} : bool :=
         match xs, ys with
         | [], [] => true
         | x :: xs', y :: ys' => Constant_eqb x y && all2 xs' ys'
         | _, _ => false
         end) vs vs'
  | ConstantStruct p vs, ConstantStruct p' vs' =>
      Bool.eqb p p' &&
      (fix all2 (xs ys : list Constant) {struct xs} : bool :=
         match xs, ys with
         | [], [] => true
         | x :: xs', y :: ys' => Constant_eqb x y && all2 xs' ys'
         | _, _ => false
         end) vs vs'
  | ConstantVector e vs, ConstantVector e' vs' =>
      Ty_eqb e e' &&
      (fix all2 (xs ys : list Constant) {struct xs} : bool :=
         match xs, ys with
         | [], [] => true
         | x :: xs', y :: ys' => Constant_eqb x y && all2 xs' ys'
         | _, _ => false
         end) vs vs'
  | ConstantOther T, ConstantOther T' => Ty_eqb T T'
  | _, _ => false
  end.

Inductive LinkageTypes := ExternalLinkage | PrivateLinkage.

(** Modelled from the spec: the anonymous storage slot that address-of on a
    literal constant materialises, LLVM's [GlobalVariable], with what the
    constructor call and [setAlignment] give it. *)
Record GlobalVariable := mkGlobalVariable {
  GV_Type : Ty;
  GV_isConstant : bool;
  GV_Linkage : LinkageTypes;
  GV_Initializer : Constant;
  GV_Name : String.string;
  GV_Alignment : Z
}.

(** What [AddressOfCST] reads and writes: the globals of [TheModule] in the
    order of their creation, a global being identified by its position, and
    the function's static [CSTCache], newest entry first. *)
Record CSTState := mkCSTState {
  TheModule : list GlobalVariable;
  CSTCache : list (Constant * nat)
}.

(** [CSTCache.find], the test [if (Slot)] of [AddressOfCST]. *)
Fixpoint CSTCache_lookup (Init : Constant) (Cache : list (Constant * nat))
    : option nat :=
  match Cache with
  | [] => None
  | (Key, Slot) :: rest =>
      if Constant_eqb Key Init then Some Slot else CSTCache_lookup Init rest
  end.

Module Names.
Import Stdlib.Strings.String.
Definition cst : string := ".cst".
End Names.

Section Addresses.
Variable E : Environment.

(** The target macro [CONSTANT_ALIGNMENT], when the target defines it. *)
Variable CONSTANT_ALIGNMENT : option (tree -> Z -> Z).

(** [AddressOfCST]: the address returned is the global, given here by its
    position in the module. *)
Definition AddressOfCST (st : CSTState) (exp : tree) : option (nat * CSTState) :=
  Init <- ConvertInitializer E exp ;;
  match CSTCache_lookup Init (CSTCache st) with
  | Some Slot => Some (Slot, st)
  | None =>
      let align := to_unsigned (TYPE_ALIGN (TREE_TYPE_of exp)) in
      let align :=
        match CONSTANT_ALIGNMENT with
        | Some macro => to_unsigned (macro exp align)
        | None => align
        end in
      let GV := mkGlobalVariable (getType Init) true PrivateLinkage Init
                                 Names.cst align in
      let Slot := length (TheModule st) in
      Some (Slot, mkCSTState (TheModule st ++ [GV]) ((Init, Slot) :: CSTCache st))
  end.

(** [AddressOfINDIRECT_REF], given the operand of the [INDIRECT_REF]. *)
Definition AddressOfINDIRECT_REF (op : tree) : option Constant :=
  C <- ConvertInitializer E op ;;
  InterpretAsType (getTargetData E) (BYTES_BIG_ENDIAN E)
    (ConvertType (TREE_TYPE_of op)) C 0.

End Addresses.

(** Every entry of the cache names a global of the module that holds the
    entry's constant. *)
Definition cache_ok (st : CSTState) : Prop :=
  forall Key Slot, In (Key, Slot) (CSTCache st) ->
    exists GV, nth_error (TheModule st) Slot = Some GV /\
               GV_Initializer GV = Key.

(** ** The layout of the elements of a record constructor *)

(** The member offsets [StructLayoutFrom] computes, and the offset at which
    the next member would be laid out: the size of the struct before it is
    rounded up to the struct's alignment. *)
Fixpoint StructOffsets (Packed : bool) (members : list (Z * Z)) (StructSize : Z)
    : list Z :=
  match members with
  | [] => []
  | m :: ms =>
      let Off := RoundUpAlignment StructSize (if Packed then 1 else snd m) in
      Off :: StructOffsets Packed ms (Off + AllocBitsOf m / 8)
  end.

Fixpoint StructEnd (Packed : bool) (members : list (Z * Z)) (StructSize : Z) : Z :=
  match members with
  | [] => StructSize
  | m :: ms =>
      let Off := RoundUpAlignment StructSize (if Packed then 1 else snd m) in
      StructEnd Packed ms (Off + AllocBitsOf m / 8)
  end.

(** A field whose value, once extracted, has a positive alignment and ends
    below [2^32] bits, with room for rounding up to its alignment: the
    [unsigned] arithmetic of the layout loop does not wrap on it. *)
Definition field_fits (E : Environment) (F : FieldContents) : Prop :=
  forall Val F',
    Field.extractContents (getTargetData E) (BYTES_BIG_ENDIAN E) F = Some (Val, F') ->
    let TD := getTargetData E in
    let First := to_unsigned (Range.getFirst (Field.getRange F)) in
    0 < getABITypeAlignment TD (getType Val) /\
    0 <= getTypeAllocSizeInBits TD (getType Val) /\
    First + getTypeAllocSizeInBits TD (getType Val)
      + getABITypeAlignment TD (getType Val) * 8 < 2 ^ 32.

(** The element of [Elts] at position [pos] is the value of the field [F]
    and lies, in the struct made of [Elts], at the first bit of [F]. *)
Definition field_at (E : Environment) (Pack : bool) (Elts : list Constant)
    (F : FieldContents) (pos : nat) : Prop :=
  exists Val F',
    Field.extractContents (getTargetData E) (BYTES_BIG_ENDIAN E) F = Some (Val, F') /\
    nth_error Elts pos = Some Val /\
    exists Off,
      nth_error (getElementOffsets (getTargetData E) Pack (map getType Elts)) pos
      = Some Off /\
      8 * Off = to_unsigned (Range.getFirst (Field.getRange F)).


(** * Properties *)

(** ** Type equality *)

Lemma FPKind_eqb_refl (k : FPKind) : FPKind_eqb k k = true.
Proof. destruct k; reflexivity. Qed.

Lemma Ty_eqb_refl : forall T : Ty, Ty_eqb T T = true.
Proof.
  fix IH 1.
  intros [ | | | w | k | p | e n | p es | e n]; simpl; try reflexivity.
  - apply Z.eqb_refl.
  - apply FPKind_eqb_refl.
  - apply IH.
  - rewrite IH, Z.eqb_refl. reflexivity.
  - rewrite Bool.eqb_reflx. simpl.
    induction es as [ | x xs IHxs]; [reflexivity | ].
    rewrite IH. exact IHxs.
  - rewrite IH, Z.eqb_refl. reflexivity.
Qed.

(** ** The bit/type bridge *)

Lemma InterpretAsType_fast_path (TD : TargetData) (BE : bool) (T : Ty)
    (C : Constant) (StartingBit : Z) :
  Ty_eqb (getType C) T = true ->
  InterpretAsType TD BE T C StartingBit = Some C.
Proof.
  intros H. destruct T; simpl; rewrite H; reflexivity.
Qed.

(** C1.  Interpreting a constant as its own type at bit 0 gives the constant
    back, whatever its type: integer, pointer, floating point, array, struct
    or vector. *)
Theorem InterpretAsType_own_type (TD : TargetData) (BE : bool) (v : Constant) :
  InterpretAsType TD BE (getType v) v 0 = Some v.
Proof.
  apply InterpretAsType_fast_path, Ty_eqb_refl.
Qed.

(** C8.  The 32 bit constant 0x01020304 read as a 16 bit integer: 0x0304 at
    bit 0 and 0x0102 at bit 16 on a little-endian target, 0x0102 at bit 0 and
    0x0304 at bit 16 on a big-endian one. *)
Theorem InterpretAsType_halves (TD : TargetData) :
  let v := ConstantInt 32 0x01020304 0 in
  InterpretAsType TD false (IntegerTy 16) v 0 = Some (ConstantInt 16 0x0304 0) /\
  InterpretAsType TD false (IntegerTy 16) v 16 = Some (ConstantInt 16 0x0102 0) /\
  InterpretAsType TD true (IntegerTy 16) v 0 = Some (ConstantInt 16 0x0102 0) /\
  InterpretAsType TD true (IntegerTy 16) v 16 = Some (ConstantInt 16 0x0304 0).
Proof.
  repeat split; vm_compute; reflexivity.
Qed.

(** ** The aggregate builders *)

(** C7.  On a little-endian target the constructor of a struct with a 3 bit
    field at bit 0 set to 5 and a 5 bit field at bit 3 set to 17 converts to
    a single byte, 5 | (17 << 3) = 141, whether or not the fields are first
    default initialized. *)
Theorem ConvertInitializer_bitfields (E : Environment) :
  BYTES_BIG_ENDIAN E = false ->
  getTargetData E = Examples.x86_64 ->
  ConvertInitializer E Examples.bitfields_init
  = Some (ConstantStruct false [ConstantInt 8 (Z.lor 5 (Z.shiftl 17 3)) 0]) /\
  Z.lor 5 (Z.shiftl 17 3) = 141.
Proof.
  intros HBE HTD. destruct E as [td be host flag ptr dflt addr cast add sub gep].
  simpl in HBE, HTD. subst be td.
  split; [ | reflexivity].
  destruct flag; vm_compute; reflexivity.
Qed.

Lemma ConvertInitializer_bitfields_witness :
  ConvertInitializer (Examples.bare Examples.x86_64 false true) Examples.bitfields_init
  = Some (ConstantStruct false [ConstantInt 8 (Z.lor 5 (Z.shiftl 17 3)) 0]) /\
  Z.lor 5 (Z.shiftl 17 3) = 141.
Proof.
  apply (ConvertInitializer_bitfields (Examples.bare Examples.x86_64 false true));
    reflexivity.
Defined.

(** C9.  A constructor without elements converts to the default value of the
    LLVM type of its GCC type, whatever the kind of the type (array, vector,
    record, union, qualified union or any other) and whatever the element
    converter: neither builder takes part.  The default value is the zero of
    the type when globals are default initialized and the undefined value of
    the type when they are not.  [ConvertInitializer] then hands that value
    to its checks. *)
Theorem ConvertCONSTRUCTOR_no_elements (E : Environment)
    (convert : tree -> gcc_type -> option Constant) (type : gcc_type)
    (elts : list (constructor_index * tree)) :
  (forall T, getDefaultValue E T
             = default_value (flag_default_initialize_globals E) T) ->
  length elts = 0%nat ->
  let Default :=
    if flag_default_initialize_globals E then getNullValue (ConvertType type)
    else UndefValue (ConvertType type) in
  ConvertCONSTRUCTOR E convert type elts = Some Default /\
  ConvertInitializer E (CONSTRUCTOR type elts) = check_guarantees E type Default.
Proof.
  intros Hdefault H Default. destruct elts as [ | e elts]; [ | discriminate H].
  assert (HD : getDefaultValue E (ConvertType type) = Default)
    by (rewrite Hdefault; reflexivity).
  cbn [ConvertInitializer TREE_TYPE_of]. unfold ConvertCONSTRUCTOR.
  cbn [length Z.of_nat]. rewrite Z.eqb_refl, HD. split; reflexivity.
Qed.

Lemma ConvertCONSTRUCTOR_no_elements_witness :
  let E := Examples.target Examples.x86_64 false true in
  ConvertCONSTRUCTOR E (fun _ _ => None) Examples.bitfields []
  = Some (getNullValue (ConvertType Examples.bitfields)) /\
  ConvertInitializer E (CONSTRUCTOR Examples.bitfields [])
  = check_guarantees E Examples.bitfields (getNullValue (ConvertType Examples.bitfields)).
Proof.
  apply (ConvertCONSTRUCTOR_no_elements
           (Examples.target Examples.x86_64 false true) (fun _ _ => None)
           Examples.bitfields []).
  - intros T. reflexivity.
  - reflexivity.
Defined.

(** Without default initialization of globals the value is not the zero of
    the type: every bit of it is undefined. *)
Lemma ConvertCONSTRUCTOR_no_elements_counterexample :
  let E := Examples.target Examples.x86_64 false false in
  flag_default_initialize_globals E = false /\
  ConvertCONSTRUCTOR E (fun _ _ => None) Examples.bitfields []
  = Some (ConstantStruct false [ConstantInt 8 0 255]) /\
  ConvertCONSTRUCTOR E (fun _ _ => None) Examples.bitfields []
  <> Some (getNullValue (ConvertType Examples.bitfields)).
Proof.
  repeat split. intros H. vm_compute in H. discriminate H.
Qed.

(** ** The guarantees checked by ConvertInitializer *)

Lemma assert_Some (b : bool) (u : unit) : assert b = Some u -> b = true.
Proof. destruct b; [reflexivity | discriminate]. Qed.

Lemma check_guarantees_Some (E : Environment) (type : gcc_type) (Init c : Constant) :
  check_guarantees E type Init = Some c ->
  c = Init /\
  to_unsigned (getABITypeAlignment (getTargetData E) (getType Init) * 8)
    <= TYPE_ALIGN type /\
  (isSized (ConvertType type) = true ->
   getTypeAllocSizeInBits (getTargetData E) (ConvertType type)
     <= getTypeAllocSizeInBits (getTargetData E) (getType Init)).
Proof.
  unfold check_guarantees. intros H.
  destruct (isSized (ConvertType type)) eqn:Hs.
  - destruct (assert (negb (_ <? _))) eqn:H1 in H; [ | discriminate].
    destruct (assert (negb (isInt64 _ _ && _))) eqn:H2 in H; [ | discriminate].
    destruct (assert (negb (TYPE_ALIGN _ <? _))) eqn:H3 in H; [ | discriminate].
    apply assert_Some, Bool.negb_true_iff, Z.ltb_ge in H1.
    apply assert_Some, Bool.negb_true_iff, Z.ltb_ge in H3.
    inversion H; subst. repeat split; auto.
  - destruct (assert (negb (TYPE_ALIGN _ <? _))) eqn:H3 in H; [ | discriminate].
    apply assert_Some, Bool.negb_true_iff, Z.ltb_ge in H3.
    inversion H; subst. repeat split; [assumption | discriminate].
Qed.

Lemma ConvertInitializer_checked (E : Environment) (exp : tree) (Init : Constant) :
  ConvertInitializer E exp = Some Init ->
  check_guarantees E (TREE_TYPE_of exp) Init = Some Init.
Proof.
  intros H.
  assert (G : forall (X : option Constant) (t : gcc_type),
             (c <- X ;; check_guarantees E t c) = Some Init ->
             check_guarantees E t Init = Some Init).
  { intros [c | ] t Hc; [ | discriminate].
    pose proof (check_guarantees_Some _ _ _ _ Hc) as [-> _]. exact Hc. }
  destruct exp; cbn [ConvertInitializer TREE_TYPE_of] in H |- *;
    try discriminate H; exact (G _ _ H).
Qed.

(** C3.  The constant 1 of an unsigned type of 32 bits whose alignment was
    lowered to 8: the conversion of the constant (the bytes of [ConvertCST]
    seen as the LLVM type of the GCC type) is the i32 1, whose ABI alignment
    of 32 bits exceeds the 8 of the GCC type.  Nothing in the conversion of
    a simple constant looks at the alignment of the type; the only place
    that does is the check at the end of [ConvertInitializer], which is
    compiled in only with assertions: there the conversion ends in
    "Constant over aligned!", and without it the i32 is what is returned. *)
Theorem ConvertInitializer_over_aligned (default_init : bool) :
  let E := Examples.bare Examples.x86_64 false default_init in
  let type := Examples.unaligned in
  let Init := ConstantInt 32 1 0 in
  (C <- ConvertCST type [1; 0; 0; 0] ;;
   InterpretAsType (getTargetData E) (BYTES_BIG_ENDIAN E) (ConvertType type) C 0)
  = Some Init /\
  TYPE_ALIGN type = 8 /\
  getABITypeAlignment (getTargetData E) (getType Init) * 8 = 32 /\
  check_guarantees E type Init = None /\
  ConvertInitializer E Examples.unaligned_one = None.
Proof.
  destruct default_init; repeat split; vm_compute; reflexivity.
Qed.

(** The size half of the check: a returned constant is at least as big as
    the LLVM type of the GCC type. *)
Lemma ConvertInitializer_not_too_small (E : Environment) (exp : tree)
    (Init : Constant) :
  ConvertInitializer E exp = Some Init ->
  isSized (ConvertType (TREE_TYPE_of exp)) = true ->
  getTypeAllocSizeInBits (getTargetData E) (ConvertType (TREE_TYPE_of exp))
    <= getTypeAllocSizeInBits (getTargetData E) (getType Init).
Proof.
  intros H Hs.
  apply ConvertInitializer_checked, check_guarantees_Some in H.
  destruct H as (_ & _ & Hsz). exact (Hsz Hs).
Qed.

(** C2.  The initializer of a struct that ends in a flexible array member:
    the size of the GCC type is the constant 32, the LLVM type of the GCC
    type is 32 bits big, and the constant returned is 64 bits big.  The check
    that should refuse it asks [isInt64] of the type node instead of its
    size, so it never fires. *)
Theorem ConvertInitializer_flexible_member (default_init : bool) :
  let E := Examples.bare Examples.x86_64 false default_init in
  let Init := ConstantStruct false
                [ConstantInt 32 1 0;
                 ConstantArray (IntegerTy 8) [ConstantInt 8 97 0; ConstantInt 8 98 0]] in
  ConvertInitializer E Examples.flexible_init = Some Init /\
  isInt64 (size_node (TYPE_SIZE Examples.flexible)) true = true /\
  isInt64 (TYPE_node Examples.flexible) true = false /\
  getTypeAllocSizeInBits Examples.x86_64 (ConvertType Examples.flexible) = 32 /\
  getTypeAllocSizeInBits Examples.x86_64 (getType Init) = 64.
Proof.
  destruct default_init; repeat split; vm_compute; reflexivity.
Qed.

(** C10.  A field holding an 8 bit constant placed at bit 4 and restricted
    to the bits [8, 16): [extractContents] hands back the constant itself,
    0x0F, although bits 8 to 11 of the field are bits 4 to 7 of the constant,
    which are zero.  [getAsBits] asks [InterpretAsType] for an 8 bit integer
    starting at bit 4, and the fast path returns the constant unmoved because
    its type is already the 8 bit integer type; the integer case gives 0. *)
Theorem extractContents_displaced :
  let TD := Examples.x86_64 in
  Range.getWidth (Field.getRange Examples.displaced) mod BITS_PER_UNIT = 0 /\
  option_map fst (Field.extractContents TD false Examples.displaced)
  = Some (ConstantInt 8 15 0) /\
  InterpretAsType TD false (IntegerTy 8) (ConstantInt 8 15 0) 4
  = Some (ConstantInt 8 15 0) /\
  InterpretAsIntegerTy TD false (ConstantInt 8 15 0) (IntegerTy 8) 4
  = Some (ConstantInt 8 0 0).
Proof.
  repeat split; vm_compute; reflexivity.
Qed.

Lemma isSafeToReturnContentsDirectly_size (TD : TargetData) (F : FieldContents)
    (c : Constant) :
  Field.isSafeToReturnContentsDirectly TD F = true -> Field.C F = Some c ->
  to_unsigned (getTypeAllocSizeInBits TD (getType c))
    <= to_unsigned (Range.getWidth (Field.R F)).
Proof.
  unfold Field.isSafeToReturnContentsDirectly. intros H Hc. rewrite Hc in H.
  destruct (negb (Range.empty (Field.R F)) && negb (_ =? _)); [discriminate | ].
  apply Z.leb_le. exact H.
Qed.

(** The size half of what [extractContents] promises does hold: the constant
    it returns has an alloc size no larger than the width of the range. *)
Lemma extractContents_alloc_size (TD : TargetData) (BE : bool)
    (F F' : FieldContents) (c : Constant) :
  Field.extractContents TD BE F = Some (c, F') ->
  to_unsigned (getTypeAllocSizeInBits TD (getType c))
    <= to_unsigned (Range.getWidth (Field.R F)).
Proof.
  unfold Field.extractContents. intros H.
  destruct (Field.isSafeToReturnContentsDirectly TD F) eqn:Hs.
  - destruct (Field.C F) as [c0 | ] eqn:Hc; [ | discriminate].
    inversion H; subst. eapply isSafeToReturnContentsDirectly_size; eassumption.
  - destruct (Range.empty (Field.R F)) eqn:He.
    + destruct (assert _) eqn:Ha in H; [ | discriminate].
      apply assert_Some in Ha. inversion H; subst.
      apply (isSafeToReturnContentsDirectly_size _ _ _ Ha). reflexivity.
    + destruct (assert _) eqn:Ha in H; [ | discriminate].
      destruct (Field.getAsBits TD BE F) as [[bits | ] | ]; try discriminate.
      cbn beta iota in H.
      destruct (Field.isSafeToReturnContentsDirectly TD _) eqn:Hs2 in H.
      * inversion H; subst.
        apply (isSafeToReturnContentsDirectly_size _ _ _ Hs2). reflexivity.
      * destruct (InterpretAsType TD BE _ bits 0) as [c2 | ]; [ | discriminate].
        destruct (assert _) eqn:Ha2 in H; [ | discriminate].
        apply assert_Some in Ha2. inversion H; subst.
        apply (isSafeToReturnContentsDirectly_size _ _ _ Ha2). reflexivity.
Qed.

(** ** Ranges and unsigned conversions *)

Lemma to_unsigned_small (z : Z) : 0 <= z < 2 ^ 32 -> to_unsigned z = z.
Proof. intros H. unfold to_unsigned. apply Z.mod_small. exact H. Qed.

Lemma lt_pow2 (d W : Z) : 0 <= d < W -> d < 2 ^ W.
Proof.
  intros H. apply Z.lt_trans with W; [lia | ].
  apply Z.pow_gt_lin_r; lia.
Qed.

Lemma make_Some (r : SignedRange) (c : option Constant) :
  Slice.contentsValid (Slice.mkBitSlice r c) = true ->
  Slice.make r c = Some (Slice.mkBitSlice r c).
Proof. intros H. unfold Slice.make. rewrite H. reflexivity. Qed.

Lemma contentsValid_int (r : SignedRange) (w v u : Z) :
  Range.empty r = false -> int_range r -> w = Range.getWidth r ->
  Slice.contentsValid (Slice.mkBitSlice r (Some (ConstantInt w v u))) = true.
Proof.
  intros He Hr ->. unfold Slice.contentsValid, Slice.empty, Slice.getBitWidth.
  simpl. rewrite He. simpl. apply Z.eqb_eq, to_unsigned_small.
  unfold Range.getWidth, Range.empty, int_range in *. rewrite He.
  apply Z.leb_gt in He. lia.
Qed.

Lemma width_nonempty (r : SignedRange) :
  Range.empty r = false -> int_range r ->
  Range.getWidth r = Last r - First r /\ 0 < Range.getWidth r < 2 ^ 32.
Proof.
  intros He Hr. unfold Range.getWidth. rewrite He.
  unfold Range.empty, int_range in *. apply Z.leb_gt in He. lia.
Qed.

Ltac range_facts :=
  unfold Range.contains, Range.eqb, Range.intersects, Range.empty,
         Range.getFirst, Range.getLast, int_range in *;
  repeat match goal with
         | H : _ && _ = true |- _ => apply Bool.andb_true_iff in H; destruct H
         | H : _ || _ = true |- _ => apply Bool.orb_true_iff in H; destruct H
         | H : _ && _ = false |- _ => apply Bool.andb_false_iff in H; destruct H
         | H : _ || _ = false |- _ => apply Bool.orb_false_iff in H; destruct H
         | H : negb _ = true |- _ => apply Bool.negb_true_iff in H
         | H : negb _ = false |- _ => apply Bool.negb_false_iff in H
         | H : (_ <=? _) = true |- _ => apply Z.leb_le in H
         | H : (_ <=? _) = false |- _ => apply Z.leb_gt in H
         | H : (_ <? _) = true |- _ => apply Z.ltb_lt in H
         | H : (_ <? _) = false |- _ => apply Z.ltb_ge in H
         | H : (_ =? _) = true |- _ => apply Z.eqb_eq in H
         | H : (_ =? _) = false |- _ => apply Z.eqb_neq in H
         end.

(** The contents of a non-empty slice extended to a hull of width [W]: the
    old contents widened to [W] bits and moved up by [delta]. *)
Lemma ExtendRange_nonempty (BE : bool) (r0 r : SignedRange) (w v u : Z) :
  Range.contains r r0 = true -> Range.empty r0 = false ->
  int_range r0 -> int_range r -> w = Range.getWidth r0 ->
  let W := Range.getWidth r in
  let delta := if BE then Last r - Last r0 else First r0 - First r in
  0 <= delta /\ delta + w <= W /\
  Slice.ExtendRange BE (Slice.mkBitSlice r0 (Some (ConstantInt w v u))) r
  = Some (if Range.eqb r0 r
          then Slice.mkBitSlice r0 (Some (ConstantInt w v u))
          else Slice.mkBitSlice r
                 (Some (if delta =? 0 then ConstantInt W v u
                        else ConstantInt W (Z.shiftl v delta mod 2 ^ W)
                                           (Z.shiftl u delta mod 2 ^ W)))).
Proof.
  intros Hc He0 Hr0 Hr Hw W delta.
  assert (He : Range.empty r = false).
  { destruct (Range.empty r) eqn:X; [ | reflexivity]. clear W delta.
    range_facts; try lia; try discriminate. }
  destruct (width_nonempty r0 He0 Hr0) as [Hw0 Hb0].
  destruct (width_nonempty r He Hr) as [HW HbW]. fold W in HW, HbW.
  assert (Hd : 0 <= delta /\ delta + w <= W /\
               0 <= First r0 - First r /\ 0 <= Last r - Last r0).
  { subst delta w. rewrite Hw0, HW. clear HW Hw0 HbW Hb0 W.
    destruct BE; range_facts; try lia; try discriminate. }
  destruct Hd as (Hd0 & Hd1 & Hf & Hl).
  split; [exact Hd0 | split; [exact Hd1 | ]].
  unfold Slice.ExtendRange. cbn [Slice.R Slice.Contents]. rewrite Hc.
  cbn [assert]. destruct (Range.eqb r0 r) eqn:Heq; [reflexivity | ].
  rewrite He. cbn [negb assert]. unfold Slice.empty. cbn [Slice.R].
  rewrite He0. unfold IntegerType_get. fold W.
  rewrite (to_unsigned_small W) by lia.
  cbn [CreateZExtOrBitCast].
  assert (HwW : (w <=? W) = true) by (apply Z.leb_le; lia).
  rewrite HwW. cbn [getType]. unfold Range.getFirst, Range.getLast.
  assert (HW32 : W < 2 ^ 32) by lia.
  rewrite (to_unsigned_small (First r0 - First r)) by (rewrite HW, Hw0 in *; lia).
  rewrite (to_unsigned_small (Last r - Last r0)) by (rewrite HW, Hw0 in *; lia).
  assert (Hshl : forall d, 0 <= d -> d + w <= W -> d <> 0 ->
            (ShiftAmt <- ConstantInt_get (IntegerTy W) d ;;
             CreateShl (ConstantInt W v u) ShiftAmt)
            = Some (ConstantInt W (Z.shiftl v d mod 2 ^ W) (Z.shiftl u d mod 2 ^ W))).
  { intros d Hd Hdw Hne. cbn [ConstantInt_get].
    rewrite Z.mod_small by (split; [lia | apply lt_pow2; lia]).
    cbn [CreateShl]. rewrite Z.eqb_refl. cbn [negb].
    replace (d <? W) with true by (symmetry; apply Z.ltb_lt; lia).
    reflexivity. }
  assert (Hmk : forall c' v' u', c' = ConstantInt W v' u' ->
            Slice.make r (Some c') = Some (Slice.mkBitSlice r (Some c'))).
  { intros c' v' u' ->. apply make_Some, contentsValid_int; auto. }
  subst delta. destruct BE; cbn [andb negb].
  - destruct (Last r - Last r0 =? 0) eqn:Hz; cbn [negb].
    + eapply Hmk; reflexivity.
    + apply Z.eqb_neq in Hz. rewrite Hshl by lia. eapply Hmk; reflexivity.
  - destruct (First r0 - First r =? 0) eqn:Hz; cbn [negb].
    + eapply Hmk; reflexivity.
    + apply Z.eqb_neq in Hz. rewrite Hshl by lia. eapply Hmk; reflexivity.
Qed.

Lemma Range_eqb_refl (r : SignedRange) : Range.eqb r r = true.
Proof. unfold Range.eqb. rewrite !Z.eqb_refl. apply Bool.orb_true_r. Qed.

Lemma Range_eqb_sym (a b : SignedRange) : Range.eqb a b = Range.eqb b a.
Proof.
  unfold Range.eqb. rewrite (Bool.andb_comm (Range.empty a)).
  rewrite (Z.eqb_sym (First a)), (Z.eqb_sym (Last a)). reflexivity.
Qed.

Lemma Range_eqb_nonempty (a b : SignedRange) :
  Range.eqb a b = true -> Range.empty a = false -> a = b.
Proof.
  intros H He. unfold Range.eqb in H. rewrite He in H. simpl in H.
  apply Bool.andb_true_iff in H. destruct H as [H1 H2].
  apply Z.eqb_eq in H1, H2. destruct a, b; simpl in *; congruence.
Qed.

(** C4.  [ExtendRange(r)] for an [r] that contains the range of the slice:
    the result is a slice over [r]; it is all undefined when the slice is
    empty, and otherwise holds the old contents at [r]'s width, shifted left
    by [r.last - R.last] on big-endian targets and by [R.first - r.first] on
    little-endian ones, when that delta is not zero. *)
Theorem ExtendRange_as_described (BE : bool) (s : BitSlice) (r : SignedRange) :
  Range.contains r (Slice.R s) = true -> wf_slice s -> int_range r ->
  exists t, Slice.ExtendRange BE s r = Some t /\
            Range.eqb (Slice.R t) r = true /\
            Slice.Contents t = ExtendRange_described BE s r.
Proof.
  destruct s as [r0 c]. unfold wf_slice. cbn [Slice.R Slice.Contents].
  intros Hc [Hr0 Hwf] Hr.
  destruct c as [[w v u | | | | | | ] | ]; try contradiction.
  - destruct Hwf as (He0 & Hw & Hv & Hu).
    destruct (ExtendRange_nonempty BE r0 r w v u Hc He0 Hr0 Hr Hw)
      as (Hd0 & Hd1 & Hext).
    rewrite Hext. unfold ExtendRange_described, Slice.empty.
    cbn [Slice.R Slice.Contents]. rewrite He0.
    destruct (Range.eqb r0 r) eqn:Heq.
    + pose proof (Range_eqb_nonempty _ _ Heq He0) as <-.
      eexists; split; [reflexivity | ]. cbn [Slice.R Slice.Contents].
      rewrite Range_eqb_refl, He0, !Z.sub_diag. rewrite <- Hw.
      split; [reflexivity | destruct BE; reflexivity].
    + assert (He : Range.empty r = false).
      { destruct (Range.empty r) eqn:X; [ | reflexivity].
        range_facts; try lia; try discriminate. }
      eexists; split; [reflexivity | ]. cbn [Slice.R Slice.Contents].
      rewrite Range_eqb_refl, He. split; [reflexivity | ].
      destruct (_ =? 0); reflexivity.
  - unfold Slice.ExtendRange, ExtendRange_described, Slice.empty.
    cbn [Slice.R Slice.Contents]. rewrite Hc, Hwf. cbn [assert].
    destruct (Range.eqb r0 r) eqn:Heq.
    + eexists; split; [reflexivity | ]. cbn [Slice.R Slice.Contents].
      split; [exact Heq | ].
      replace (Range.empty r) with true; [reflexivity | ].
      symmetry. clear Hc.
      range_facts; try lia; try discriminate; try assumption;
        apply Z.leb_le; lia.
    + assert (He : Range.empty r = false).
      { destruct (Range.empty r) eqn:X; [ | reflexivity].
        unfold Range.eqb in Heq. rewrite Hwf, X in Heq. discriminate. }
      rewrite He. cbn [negb assert].
      destruct (width_nonempty r He Hr) as [HW HbW].
      unfold IntegerType_get. rewrite to_unsigned_small by lia.
      cbn [UndefValue]. rewrite make_Some by (apply contentsValid_int; auto).
      eexists; split; [reflexivity | ]. cbn [Slice.R Slice.Contents].
      rewrite Range_eqb_refl. split; reflexivity.
Qed.

Lemma ExtendRange_as_described_witness :
  exists t, Slice.ExtendRange true Examples.slice_a (mkRange 0 6) = Some t /\
            Range.eqb (Slice.R t) (mkRange 0 6) = true /\
            Slice.Contents t = ExtendRange_described true Examples.slice_a (mkRange 0 6).
Proof.
  apply (ExtendRange_as_described true Examples.slice_a (mkRange 0 6)).
  - reflexivity.
  - unfold wf_slice, int_range. simpl. repeat split; try reflexivity; lia.
  - unfold int_range. simpl. lia.
Defined.

(** ** ReduceRange *)

Lemma ReduceRange_nonempty (BE : bool) (r r1 : SignedRange) (W V U : Z) :
  Range.contains r r1 = true -> Range.empty r1 = false ->
  int_range r -> int_range r1 -> W = Range.getWidth r ->
  Range.eqb r r1 = false ->
  let w := Range.getWidth r1 in
  let delta := if BE then Last r - Last r1 else First r1 - First r in
  Slice.ReduceRange BE (Slice.mkBitSlice r (Some (ConstantInt W V U))) r1
  = Some (Slice.mkBitSlice r1
            (Some (ConstantInt w (Z.shiftr V delta mod 2 ^ w)
                                 (Z.shiftr U delta mod 2 ^ w)))).
Proof.
  intros Hc He1 Hr Hr1 HW Heq w delta.
  assert (He : Range.empty r = false).
  { destruct (Range.empty r) eqn:X; [ | reflexivity]. clear w delta.
    range_facts; try lia; try discriminate. }
  destruct (width_nonempty r1 He1 Hr1) as [Hw1 Hb1]. fold w in Hw1, Hb1.
  destruct (width_nonempty r He Hr) as [HW' HbW]. rewrite <- HW in HW', HbW.
  assert (Hd : 0 <= delta /\ delta + w <= W /\
               0 <= First r1 - First r /\ 0 <= Last r - Last r1).
  { subst delta. rewrite Hw1, HW'. clear Hw1 HW' HbW Hb1 w Heq HW.
    destruct BE; range_facts; try lia; try discriminate. }
  destruct Hd as (Hd0 & Hd1 & Hf & Hl).
  unfold Slice.ReduceRange. cbn [Slice.R Slice.Contents]. rewrite Hc, Heq, He1, He.
  cbn [assert negb getType]. unfold Range.getFirst, Range.getLast.
  rewrite (to_unsigned_small (First r1 - First r)) by lia.
  rewrite (to_unsigned_small (Last r - Last r1)) by lia.
  unfold IntegerType_get. fold w. rewrite (to_unsigned_small w) by lia.
  assert (Hshr : forall d, 0 <= d -> d + w <= W -> d <> 0 ->
            (ShiftAmt <- ConstantInt_get (IntegerTy W) d ;;
             CreateLShr (ConstantInt W V U) ShiftAmt)
            = Some (ConstantInt W (Z.shiftr V d) (Z.shiftr U d))).
  { intros d Hd Hdw Hne. cbn [ConstantInt_get].
    rewrite Z.mod_small by (split; [lia | apply lt_pow2; lia]).
    cbn [CreateLShr]. rewrite Z.eqb_refl. cbn [negb].
    replace (d <? W) with true by (symmetry; apply Z.ltb_lt; lia).
    reflexivity. }
  assert (Hfin : forall V' U',
            (C <- CreateTruncOrBitCast (ConstantInt W V' U') (IntegerTy w) ;;
             Slice.make r1 (Some C))
            = Some (Slice.mkBitSlice r1
                      (Some (ConstantInt w (V' mod 2 ^ w) (U' mod 2 ^ w))))).
  { intros V' U'. cbn [CreateTruncOrBitCast].
    replace (w <=? W) with true by (symmetry; apply Z.leb_le; lia).
    apply make_Some, contentsValid_int; auto. }
  subst delta. destruct BE; cbn [andb negb].
  - destruct (Last r - Last r1 =? 0) eqn:Hz; cbn [negb].
    + apply Z.eqb_eq in Hz. rewrite Hz, !Z.shiftr_0_r. apply Hfin.
    + apply Z.eqb_neq in Hz. rewrite Hshr by lia. apply Hfin.
  - destruct (First r1 - First r =? 0) eqn:Hz; cbn [negb].
    + apply Z.eqb_eq in Hz. rewrite Hz, !Z.shiftr_0_r. apply Hfin.
    + apply Z.eqb_neq in Hz. rewrite Hshr by lia. apply Hfin.
Qed.

Lemma shift_roundtrip (v d w W : Z) :
  0 <= v < 2 ^ w -> 0 <= d -> 0 <= w -> d + w <= W ->
  Z.shiftr (Z.shiftl v d mod 2 ^ W) d mod 2 ^ w = v.
Proof.
  intros Hv Hd Hw HW.
  assert (Hlt : Z.shiftl v d < 2 ^ W).
  { rewrite Z.shiftl_mul_pow2 by lia.
    apply Z.lt_le_trans with (2 ^ w * 2 ^ d).
    - apply Z.mul_lt_mono_pos_r; lia.
    - rewrite <- Z.pow_add_r by lia. apply Z.pow_le_mono_r; lia. }
  assert (Hge : 0 <= Z.shiftl v d) by (apply Z.shiftl_nonneg; lia).
  rewrite (Z.mod_small (Z.shiftl v d)) by lia.
  rewrite Z.shiftr_shiftl_l by lia. rewrite Z.sub_diag, Z.shiftl_0_r.
  apply Z.mod_small. exact Hv.
Qed.

(** C5.  A non-empty slice over [r1] extended to a range [r2] that contains
    [r1] and reduced to [r1] again is the slice it was: the range is [r1],
    every defined bit has its value and every undefined bit is still
    undefined. *)
Theorem ExtendRange_ReduceRange (BE : bool) (r1 r2 : SignedRange) (v u : Z) :
  Range.empty r1 = false -> Range.contains r2 r1 = true ->
  int_range r1 -> int_range r2 ->
  0 <= v < 2 ^ Range.getWidth r1 -> 0 <= u < 2 ^ Range.getWidth r1 ->
  (s <- Slice.make r1 (Some (ConstantInt (Range.getWidth r1) v u)) ;;
   e <- Slice.ExtendRange BE s r2 ;;
   Slice.ReduceRange BE e r1)
  = Some (Slice.mkBitSlice r1 (Some (ConstantInt (Range.getWidth r1) v u))).
Proof.
  intros He1 Hc Hr1 Hr2 Hv Hu.
  rewrite make_Some by (apply contentsValid_int; auto).
  destruct (ExtendRange_nonempty BE r1 r2 _ v u Hc He1 Hr1 Hr2 eq_refl)
    as (Hd0 & Hd1 & Hext).
  rewrite Hext. destruct (width_nonempty r1 He1 Hr1) as [Hw1 Hb1].
  destruct (Range.eqb r1 r2) eqn:Heq.
  - unfold Slice.ReduceRange. cbn [Slice.R]. rewrite Range_eqb_refl.
    replace (Range.contains r1 r1) with true; [reflexivity | ].
    symmetry. unfold Range.contains. rewrite He1. cbn [negb orb andb].
    rewrite !Z.leb_refl. reflexivity.
  - rewrite Range_eqb_sym in Heq.
    assert (Hred := ReduceRange_nonempty BE r2 r1 (Range.getWidth r2)).
    destruct (_ =? 0) eqn:Hz.
    + apply Z.eqb_eq in Hz.
      rewrite (Hred v u Hc He1 Hr2 Hr1 eq_refl Heq). rewrite Hz, !Z.shiftr_0_r.
      rewrite !Z.mod_small by assumption. reflexivity.
    + rewrite (Hred _ _ Hc He1 Hr2 Hr1 eq_refl Heq).
      rewrite !shift_roundtrip by (assumption || lia). reflexivity.
Qed.

Lemma ExtendRange_ReduceRange_witness :
  (s <- Slice.make (mkRange 2 4) (Some (ConstantInt (Range.getWidth (mkRange 2 4)) 2 0)) ;;
   e <- Slice.ExtendRange true s (mkRange 0 6) ;;
   Slice.ReduceRange true e (mkRange 2 4))
  = Some (Slice.mkBitSlice (mkRange 2 4)
            (Some (ConstantInt (Range.getWidth (mkRange 2 4)) 2 0))).
Proof.
  apply (ExtendRange_ReduceRange true (mkRange 2 4) (mkRange 0 6) 2 0);
    try reflexivity; unfold int_range; simpl; lia.
Defined.

(** ** Bit-level facts for Merge *)

Lemma testbit_bounded (v w j : Z) :
  0 <= v < 2 ^ w -> 0 <= w ->
  Z.testbit v j = (0 <=? j) && (j <? w) && Z.testbit v j.
Proof.
  intros Hv Hw.
  destruct (Z.leb_spec 0 j) as [H0 | H0]; cbn [andb].
  - destruct (Z.ltb_spec j w) as [H1 | H1]; cbn [andb]; [reflexivity | ].
    rewrite <- (Z.mod_small v (2 ^ w)) by exact Hv.
    apply Z.mod_pow2_bits_high. lia.
  - apply Z.testbit_neg_r. exact H0.
Qed.

Ltac split_comparisons :=
  repeat (match goal with
          | |- context [?x <? ?y] => destruct (Z.ltb_spec x y)
          | |- context [?x <=? ?y] => destruct (Z.leb_spec x y)
          end; try lia; cbn [andb orb negb]).

Ltac split_bits :=
  repeat match goal with
         | |- context [Z.testbit ?a ?b] => destruct (Z.testbit a b)
         end;
  cbn [andb orb negb]; try reflexivity.

Ltac open_bits :=
  repeat (rewrite Z.lor_spec || rewrite Z.land_spec || rewrite Z.ldiff_spec
          || rewrite Z.testbit_0_l).

Lemma testbit_getBitsSet (W lo hi k : Z) :
  0 <= k -> 0 <= lo <= hi -> 0 <= W ->
  Z.testbit (getBitsSet W lo hi) k = (k <? W) && (lo <=? k) && (k <? hi).
Proof.
  intros Hk Hl HW. unfold getBitsSet.
  rewrite Z.testbit_mod_pow2 by lia. rewrite Z.shiftl_spec by lia.
  rewrite Z.testbit_ones by lia.
  split_comparisons; reflexivity.
Qed.

(** The two extended slices, each cleared where the other one lies and then
    joined with [or]: the defined values and the undefined masks side by
    side. *)
Lemma merge_bits {A} (K : Constant -> option A) (W da wa db wb va ua vb ub : Z) :
  0 <= da -> 0 < wa -> da + wa <= W ->
  0 <= db -> 0 < wb -> db + wb <= W ->
  da + wa <= db \/ db + wb <= da ->
  0 <= va < 2 ^ wa -> 0 <= ua < 2 ^ wa ->
  0 <= vb < 2 ^ wb -> 0 <= ub < 2 ^ wb ->
  (ThisPart <- CreateAnd (ConstantInt W (Z.shiftl va da) (Z.shiftl ua da))
                         (ConstantInt_not W (getBitsSet W db (db + wb))) ;;
   OtherPart <- CreateAnd (ConstantInt W (Z.shiftl vb db) (Z.shiftl ub db))
                          (ConstantInt_not W (getBitsSet W da (da + wa))) ;;
   C <- CreateOr ThisPart OtherPart ;;
   K C)
  = K (ConstantInt W
         (Z.lor (Z.shiftl (Z.ldiff va ua) da) (Z.shiftl (Z.ldiff vb ub) db))
         (Z.lor (Z.shiftl ua da) (Z.shiftl ub db))).
Proof.
  intros Hda Hwa HaW Hdb Hwb HbW Hdisj Hva Hua Hvb Hub.
  unfold ConstantInt_not.
  do 3 (cbn [CreateAnd CreateOr negb]; rewrite ?Z.eqb_refl).
  cbn [negb]. f_equal.
  f_equal; apply Z.bits_inj'; intros k Hk; open_bits;
    rewrite ?Z.shiftl_spec by lia; open_bits;
    rewrite ?Z.testbit_ones by lia;
    rewrite ?testbit_getBitsSet by lia;
    rewrite (testbit_bounded va wa (k - da)) by lia;
    rewrite (testbit_bounded ua wa (k - da)) by lia;
    rewrite (testbit_bounded vb wb (k - db)) by lia;
    rewrite (testbit_bounded ub wb (k - db)) by lia;
    split_comparisons; split_bits.
Qed.

Lemma shiftl_bound (v d w W : Z) :
  0 <= v < 2 ^ w -> 0 <= d -> 0 <= w -> d + w <= W ->
  0 <= Z.shiftl v d < 2 ^ W.
Proof.
  intros Hv Hd Hw HW. split; [apply Z.shiftl_nonneg; lia | ].
  rewrite Z.shiftl_mul_pow2 by lia.
  apply Z.lt_le_trans with (2 ^ w * 2 ^ d).
  - apply Z.mul_lt_mono_pos_r; lia.
  - rewrite <- Z.pow_add_r by lia. apply Z.pow_le_mono_r; lia.
Qed.

Lemma ExtendRange_wf (BE : bool) (r0 r : SignedRange) (w v u : Z) :
  Range.contains r r0 = true -> Range.empty r0 = false ->
  int_range r0 -> int_range r -> w = Range.getWidth r0 ->
  0 <= v < 2 ^ w -> 0 <= u < 2 ^ w ->
  Slice.ExtendRange BE (Slice.mkBitSlice r0 (Some (ConstantInt w v u))) r
  = Some (Slice.mkBitSlice r
            (Some (ConstantInt (Range.getWidth r)
                     (Z.shiftl v (offset_in BE r0 r))
                     (Z.shiftl u (offset_in BE r0 r))))).
Proof.
  intros Hc He0 Hr0 Hr Hw Hv Hu.
  destruct (ExtendRange_nonempty BE r0 r w v u Hc He0 Hr0 Hr Hw)
    as (Hd0 & Hd1 & Hext).
  rewrite Hext. clear Hext. f_equal.
  destruct (width_nonempty r0 He0 Hr0) as [Hw0 Hb0].
  fold (offset_in BE r0 r) in *.
  destruct (Range.eqb r0 r) eqn:Heq.
  - pose proof (Range_eqb_nonempty _ _ Heq He0) as <-.
    assert (Hz : offset_in BE r0 r0 = 0) by (unfold offset_in; destruct BE; lia).
    rewrite Hz, !Z.shiftl_0_r, <- Hw. reflexivity.
  - destruct (offset_in BE r0 r =? 0) eqn:Hz.
    + apply Z.eqb_eq in Hz. rewrite Hz, !Z.shiftl_0_r. reflexivity.
    + rewrite !Z.mod_small by (apply shiftl_bound with w; lia). reflexivity.
Qed.

Lemma to_unsigned_sub_l (x y : Z) :
  to_unsigned (to_unsigned x - y) = to_unsigned (x - y).
Proof. unfold to_unsigned. apply Zminus_mod_idemp_l. Qed.

Lemma to_unsigned_sub_r (x y : Z) :
  to_unsigned (x - to_unsigned y) = to_unsigned (x - y).
Proof. unfold to_unsigned. apply Zminus_mod_idemp_r. Qed.

Lemma Join_nonempty (ra rb : SignedRange) :
  Range.empty ra = false -> Range.empty rb = false ->
  Range.Join ra rb = mkRange (Z.min (First ra) (First rb)) (Z.max (Last ra) (Last rb)).
Proof. intros Ha Hb. unfold Range.Join. rewrite Ha, Hb. reflexivity. Qed.

(** Two non-empty disjoint slices merge into the slice over the hull that
    holds the bits of each. *)
Lemma Merge_nonempty (BE : bool) (a b : BitSlice) :
  wf_slice a -> wf_slice b ->
  Slice.empty a = false -> Slice.empty b = false ->
  Range.intersects (Slice.R a) (Slice.R b) = false ->
  Slice.Merge BE a b
  = Some (union_of BE (Range.Join (Slice.R a) (Slice.R b)) [a; b]).
Proof.
  destruct a as [ra ca], b as [rb cb]. unfold wf_slice, Slice.empty.
  cbn [Slice.R Slice.Contents]. intros [Hra Hwa] [Hrb Hwb] Hea Heb Hdis.
  destruct ca as [[wa va ua | | | | | | ] | ]; try contradiction;
    [ | congruence].
  destruct cb as [[wb vb ub | | | | | | ] | ]; try contradiction;
    [ | congruence].
  destruct Hwa as (_ & Hwa & Hva & Hua). destruct Hwb as (_ & Hwb & Hvb & Hub).
  destruct (width_nonempty ra Hea Hra) as [Hwa' Hba].
  destruct (width_nonempty rb Heb Hrb) as [Hwb' Hbb].
  rewrite <- Hwa in Hwa', Hba. rewrite <- Hwb in Hwb', Hbb.
  pose proof (Join_nonempty ra rb Hea Heb) as HJ.
  set (Hull := Range.Join ra rb) in *.
  assert (Hdisj : Last ra <= First rb \/ Last rb <= First ra).
  { unfold Range.intersects in Hdis. rewrite Hea, Heb in Hdis. cbn [negb andb] in Hdis.
    apply Bool.andb_false_iff in Hdis. destruct Hdis as [H | H];
      apply Z.ltb_ge in H; lia. }
  assert (HeH : Range.empty Hull = false).
  { rewrite HJ. unfold Range.empty in *. cbn [First Last].
    apply Z.leb_gt. apply Z.leb_gt in Hea, Heb. lia. }
  assert (HrH : int_range Hull).
  { rewrite HJ. unfold int_range in *. cbn [First Last]. lia. }
  assert (Hca : Range.contains Hull ra = true).
  { unfold Range.contains. rewrite Hea, HeH. cbn [negb orb andb]. rewrite HJ.
    cbn [First Last]. apply Bool.andb_true_iff. split; apply Z.leb_le; lia. }
  assert (Hcb : Range.contains Hull rb = true).
  { unfold Range.contains. rewrite Heb, HeH. cbn [negb orb andb]. rewrite HJ.
    cbn [First Last]. apply Bool.andb_true_iff. split; apply Z.leb_le; lia. }
  destruct (width_nonempty Hull HeH HrH) as [HW HbW].
  unfold Slice.Merge, Slice.empty, Slice.getRange. cbn [Slice.R Slice.Contents].
  rewrite Hea, Heb, Hdis. cbn [negb assert]. fold Hull.
  rewrite (ExtendRange_wf BE ra Hull wa va ua) by assumption.
  rewrite (ExtendRange_wf BE rb Hull wb vb ub) by assumption.
  cbn [Slice.Contents]. unfold Slice.getFirst, Slice.getLast, Range.getFirst, Range.getLast.
  cbn [Slice.R]. rewrite (to_unsigned_small (Range.getWidth Hull)) by lia.
  set (W := Range.getWidth Hull) in *.
  assert (HFL : First Hull = Z.min (First ra) (First rb) /\
                Last Hull = Z.max (Last ra) (Last rb)).
  { rewrite HJ. split; reflexivity. }
  destruct HFL as [HF HL].
  assert (Hoff : forall r w, Range.contains Hull r = true -> Range.empty r = false ->
            int_range r -> w = Last r - First r ->
            0 <= offset_in BE r Hull /\ offset_in BE r Hull + w <= W /\
            (if BE then
               (getBitsSet W (to_unsigned (Last Hull - to_unsigned (Last r)))
                             (to_unsigned (Last Hull - to_unsigned (First r))))
             else
               (getBitsSet W (to_unsigned (to_unsigned (First r) - First Hull))
                             (to_unsigned (to_unsigned (Last r) - First Hull))))
            = getBitsSet W (offset_in BE r Hull) (offset_in BE r Hull + w)).
  { intros r w Hc He Hr Hw. unfold offset_in.
    unfold Range.contains in Hc. rewrite He, HeH in Hc. cbn [negb orb andb] in Hc.
    apply Bool.andb_true_iff in Hc. destruct Hc as [Hc1 Hc2].
    apply Z.leb_le in Hc1, Hc2. unfold Range.empty in He. apply Z.leb_gt in He.
    unfold int_range in Hr, HrH.
    rewrite !to_unsigned_sub_l, !to_unsigned_sub_r.
    destruct BE.
    - rewrite !to_unsigned_small by lia. repeat split; try lia.
      f_equal. lia.
    - rewrite !to_unsigned_small by lia. repeat split; try lia.
      f_equal. lia. }
  destruct (Hoff ra wa Hca Hea Hra Hwa') as (Ha0 & Ha1 & Hma).
  destruct (Hoff rb wb Hcb Heb Hrb Hwb') as (Hb0 & Hb1 & Hmb).
  assert (Hsep : offset_in BE ra Hull + wa <= offset_in BE rb Hull \/
                 offset_in BE rb Hull + wb <= offset_in BE ra Hull).
  { unfold offset_in. destruct BE; lia. }
  assert (Hmasks :
    (if BE then
       (getBitsSet W (to_unsigned (Last Hull - to_unsigned (Last ra)))
                     (to_unsigned (Last Hull - to_unsigned (First ra))),
        getBitsSet W (to_unsigned (Last Hull - to_unsigned (Last rb)))
                     (to_unsigned (Last Hull - to_unsigned (First rb))))
     else
       (getBitsSet W (to_unsigned (to_unsigned (First ra) - First Hull))
                     (to_unsigned (to_unsigned (Last ra) - First Hull)),
        getBitsSet W (to_unsigned (to_unsigned (First rb) - First Hull))
                     (to_unsigned (to_unsigned (Last rb) - First Hull))))
    = (getBitsSet W (offset_in BE ra Hull) (offset_in BE ra Hull + wa),
       getBitsSet W (offset_in BE rb Hull) (offset_in BE rb Hull + wb))).
  { destruct BE; rewrite Hma, Hmb; reflexivity. }
  rewrite Hmasks.
  rewrite (merge_bits (fun C => Slice.make Hull (Some C))) by (assumption || lia).
  rewrite make_Some by (apply contentsValid_int; auto).
  unfold union_of, placed. cbn [fold_right Slice.Contents Slice.R fst snd].
  rewrite !Z.lor_0_r. reflexivity.
Qed.

Lemma bounded_by_bits (x W : Z) :
  0 <= x -> 0 <= W -> (forall k, W <= k -> Z.testbit x k = false) ->
  0 <= x < 2 ^ W.
Proof.
  intros Hx HW Hb. split; [exact Hx | ].
  assert (E : x mod 2 ^ W = x).
  { apply Z.bits_inj'. intros k Hk. rewrite Z.testbit_mod_pow2 by lia.
    destruct (Z.ltb_spec k W); [reflexivity | ]. symmetry. apply Hb. lia. }
  rewrite <- E. apply Z.mod_pos_bound. apply Z.pow_pos_nonneg; lia.
Qed.

(** The bits of a well-formed non-empty slice at their place in a hull that
    contains it. *)
Lemma placed_bounds (BE : bool) (hull : SignedRange) (s : BitSlice) :
  wf_slice s -> Slice.empty s = false ->
  Range.contains hull (Slice.R s) = true -> int_range hull ->
  exists w v u d,
    Slice.Contents s = Some (ConstantInt w v u) /\
    placed BE hull s = (Z.shiftl (Z.ldiff v u) d, Z.shiftl u d) /\
    d = offset_in BE (Slice.R s) hull /\
    w = Last (Slice.R s) - First (Slice.R s) /\
    0 < w /\ 0 <= d /\ d + w <= Range.getWidth hull /\
    0 <= v < 2 ^ w /\ 0 <= u < 2 ^ w.
Proof.
  destruct s as [r c]. unfold wf_slice, Slice.empty, placed.
  cbn [Slice.R Slice.Contents]. intros [Hr Hwf] He Hc HrH.
  destruct c as [[w v u | | | | | | ] | ]; try contradiction; [ | congruence].
  destruct Hwf as (_ & Hw & Hv & Hu).
  destruct (width_nonempty r He Hr) as [Hw' Hb]. rewrite <- Hw in Hw', Hb.
  exists w, v, u, (offset_in BE r hull).
  assert (HeH : Range.empty hull = false).
  { destruct (Range.empty hull) eqn:X; [ | reflexivity].
    unfold Range.contains in Hc. rewrite He, X in Hc. discriminate. }
  destruct (width_nonempty hull HeH HrH) as [HW HbW].
  unfold Range.contains in Hc. rewrite He, HeH in Hc. cbn [negb orb andb] in Hc.
  apply Bool.andb_true_iff in Hc. destruct Hc as [Hc1 Hc2].
  apply Z.leb_le in Hc1, Hc2.
  repeat split; try assumption; try lia; unfold offset_in; destruct BE; lia.
Qed.

Lemma ldiff_bounds (v u w : Z) :
  0 <= v < 2 ^ w -> 0 <= w -> 0 <= Z.ldiff v u < 2 ^ w.
Proof.
  intros Hv Hw. apply bounded_by_bits; [apply Z.ldiff_nonneg; lia | lia | ].
  intros k Hk. rewrite Z.ldiff_spec, (testbit_bounded v w k) by lia.
  split_comparisons; reflexivity.
Qed.

Lemma lor_bounds (x y W : Z) :
  0 <= x < 2 ^ W -> 0 <= y < 2 ^ W -> 0 <= W -> 0 <= Z.lor x y < 2 ^ W.
Proof.
  intros Hx Hy HW. apply bounded_by_bits; [apply Z.lor_nonneg; lia | lia | ].
  intros k Hk. rewrite Z.lor_spec.
  rewrite (testbit_bounded x W k), (testbit_bounded y W k) by lia.
  split_comparisons; reflexivity.
Qed.

Lemma union_of_pair_wf (BE : bool) (a b : BitSlice) :
  wf_slice a -> wf_slice b ->
  Slice.empty a = false -> Slice.empty b = false ->
  wf_slice (union_of BE (Range.Join (Slice.R a) (Slice.R b)) [a; b]) /\
  Slice.empty (union_of BE (Range.Join (Slice.R a) (Slice.R b)) [a; b]) = false /\
  Range.contains (Range.Join (Slice.R a) (Slice.R b)) (Slice.R a) = true /\
  Range.contains (Range.Join (Slice.R a) (Slice.R b)) (Slice.R b) = true.
Proof.
  intros Ha Hb Hea Heb.
  pose proof (Join_nonempty _ _ Hea Heb) as HJ.
  set (Hull := Range.Join (Slice.R a) (Slice.R b)) in *.
  unfold Slice.empty in Hea, Heb.
  assert (HeH : Range.empty Hull = false).
  { rewrite HJ. unfold Range.empty in *. cbn [First Last].
    apply Z.leb_gt. apply Z.leb_gt in Hea, Heb. lia. }
  assert (HrH : int_range Hull).
  { destruct Ha as [Hra _], Hb as [Hrb _].
    rewrite HJ. unfold int_range in *. cbn [First Last]. lia. }
  assert (Hca : Range.contains Hull (Slice.R a) = true).
  { unfold Range.contains. rewrite Hea, HeH. cbn [negb orb andb]. rewrite HJ.
    cbn [First Last]. apply Bool.andb_true_iff. split; apply Z.leb_le; lia. }
  assert (Hcb : Range.contains Hull (Slice.R b) = true).
  { unfold Range.contains. rewrite Heb, HeH. cbn [negb orb andb]. rewrite HJ.
    cbn [First Last]. apply Bool.andb_true_iff. split; apply Z.leb_le; lia. }
  destruct (width_nonempty Hull HeH HrH) as [HW HbW].
  destruct (placed_bounds BE Hull a Ha Hea Hca HrH)
    as (wa & va & ua & da & _ & Hpa & _ & _ & Hwa & Hda & Hda' & Hva & Hua).
  destruct (placed_bounds BE Hull b Hb Heb Hcb HrH)
    as (wb & vb & ub & db & _ & Hpb & _ & _ & Hwb & Hdb & Hdb' & Hvb & Hub).
  assert (Hwf : wf_slice (union_of BE Hull [a; b])).
  { unfold wf_slice, union_of. cbn [Slice.Contents Slice.R fold_right].
    rewrite Hpa, Hpb. cbn [fst snd]. rewrite !Z.lor_0_r.
    split; [exact HrH | ]. split; [exact HeH | ]. split; [reflexivity | ].
    split; (apply lor_bounds;
              [apply shiftl_bound with wa | apply shiftl_bound with wb | ]);
      try lia; apply ldiff_bounds; lia. }
  split; [exact Hwf | ]. split; [exact HeH | ]. split; assumption.
Qed.

Lemma Merge_empty_r (BE : bool) (a b : BitSlice) :
  Slice.empty b = true -> Slice.Merge BE a b = Some a.
Proof. intros H. unfold Slice.Merge. rewrite H. reflexivity. Qed.

Lemma Merge_empty_l (BE : bool) (a b : BitSlice) :
  Slice.empty a = true -> Slice.empty b = false -> Slice.Merge BE a b = Some b.
Proof. intros Ha Hb. unfold Slice.Merge. rewrite Ha, Hb. reflexivity. Qed.

Lemma Merge_overlap (BE : bool) (a b : BitSlice) :
  Slice.empty a = false -> Slice.empty b = false ->
  Range.intersects (Slice.R a) (Slice.R b) = true -> Slice.Merge BE a b = None.
Proof.
  intros Ha Hb Hi. unfold Slice.Merge, Slice.getRange. rewrite Ha, Hb, Hi.
  reflexivity.
Qed.

Lemma intersects_sym (a b : SignedRange) :
  Range.intersects a b = Range.intersects b a.
Proof.
  unfold Range.intersects.
  destruct (Range.empty a), (Range.empty b); cbn [negb andb]; try reflexivity.
  apply Bool.andb_comm.
Qed.

Lemma intersects_empty_r (a b : SignedRange) :
  Range.empty b = true -> Range.intersects a b = false.
Proof.
  intros H. unfold Range.intersects. rewrite H.
  destruct (Range.empty a); reflexivity.
Qed.

Lemma Join_empty_l (a b : SignedRange) :
  Range.empty a = true -> Range.Join a b = b.
Proof. intros H. unfold Range.Join. rewrite H. reflexivity. Qed.

Lemma Join_empty_r (a b : SignedRange) :
  Range.empty a = false -> Range.empty b = true -> Range.Join a b = a.
Proof. intros Ha H. unfold Range.Join. rewrite Ha, H. reflexivity. Qed.

Lemma offset_in_add (BE : bool) (r h H : SignedRange) :
  offset_in BE r h + offset_in BE h H = offset_in BE r H.
Proof. unfold offset_in. destruct BE; lia. Qed.

(** The bits of a merged pair at their place in a wider hull are the bits of
    the two slices at their places in that hull. *)
Lemma placed_union (BE : bool) (H3 : SignedRange) (x y : BitSlice) :
  wf_slice x -> wf_slice y ->
  Slice.empty x = false -> Slice.empty y = false ->
  Range.intersects (Slice.R x) (Slice.R y) = false ->
  placed BE H3 (union_of BE (Range.Join (Slice.R x) (Slice.R y)) [x; y])
  = (Z.lor (fst (placed BE H3 x)) (fst (placed BE H3 y)),
     Z.lor (snd (placed BE H3 x)) (snd (placed BE H3 y))).
Proof.
  intros Hx Hy Hex Hey Hdis.
  destruct (union_of_pair_wf BE x y Hx Hy Hex Hey) as ([HrH _] & HeH & Hcx & Hcy).
  set (Hxy := Range.Join (Slice.R x) (Slice.R y)) in *.
  cbn [union_of Slice.R] in HrH.
  destruct (placed_bounds BE Hxy x Hx Hex Hcx HrH)
    as (wx & vx & ux & dx & HCx & Hpx & Hdx & Hwx' & Hwx & Hdx0 & Hdx1 & Hvx & Hux).
  destruct (placed_bounds BE Hxy y Hy Hey Hcy HrH)
    as (wy & vy & uy & dy & HCy & Hpy & Hdy & Hwy' & Hwy & Hdy0 & Hdy1 & Hvy & Huy).
  assert (Hsep : dx + wx <= dy \/ dy + wy <= dx).
  { unfold Slice.empty in Hex, Hey.
    unfold Range.intersects in Hdis. rewrite Hex, Hey in Hdis.
    cbn [negb andb] in Hdis. apply Bool.andb_false_iff in Hdis.
    subst dx dy wx wy. unfold offset_in.
    destruct Hdis as [H | H]; apply Z.ltb_ge in H; destruct BE; lia. }
  unfold placed at 1. unfold union_of. cbn [Slice.Contents Slice.R fold_right].
  rewrite Hpx, Hpy. cbn [fst snd]. rewrite !Z.lor_0_r.
  unfold placed. rewrite HCx, HCy. cbn [fst snd].
  rewrite <- (offset_in_add BE (Slice.R x) Hxy H3).
  rewrite <- (offset_in_add BE (Slice.R y) Hxy H3). rewrite <- Hdx, <- Hdy.
  set (d := offset_in BE Hxy H3).
  rewrite <- !Z.shiftl_shiftl by lia. rewrite <- !Z.shiftl_lor.
  f_equal. f_equal.
  apply Z.bits_inj'. intros k Hk. open_bits.
  rewrite ?Z.shiftl_spec by lia. open_bits.
  rewrite (testbit_bounded vx wx (k - dx)) by lia.
  rewrite (testbit_bounded ux wx (k - dx)) by lia.
  rewrite (testbit_bounded vy wy (k - dy)) by lia.
  rewrite (testbit_bounded uy wy (k - dy)) by lia.
  split_comparisons; split_bits.
Qed.

Lemma same_slice_refl (s : BitSlice) : same_slice s s.
Proof. split; [apply Range_eqb_refl | reflexivity]. Qed.

Lemma same_slice_empty (s t : BitSlice) :
  wf_slice s -> wf_slice t -> Slice.empty s = true -> Slice.empty t = true ->
  same_slice s t.
Proof.
  intros [_ Hs] [_ Ht] Es Et. unfold Slice.empty in *.
  destruct s as [rs [[ | | | | | | ] | ]], t as [rt [[ | | | | | | ] | ]];
    cbn [Slice.R Slice.Contents] in *; try contradiction;
    try (destruct Hs; congruence); try (destruct Ht; congruence).
  split; [ | reflexivity]. cbn [Slice.R]. unfold Range.eqb. rewrite Es, Et.
  reflexivity.
Qed.

Lemma same_slice_trans (s t r : BitSlice) :
  same_slice s t -> same_slice t r -> same_slice s r.
Proof.
  intros [H1 H2] [H3 H4]. split; [ | congruence].
  unfold Range.eqb, Range.empty in *.
  destruct (Z.leb_spec (Last (Slice.R s)) (First (Slice.R s)));
    destruct (Z.leb_spec (Last (Slice.R t)) (First (Slice.R t)));
    destruct (Z.leb_spec (Last (Slice.R r)) (First (Slice.R r)));
    cbn [andb orb] in *; try reflexivity;
    repeat match goal with
           | H : _ && _ = true |- _ => apply Bool.andb_true_iff in H; destruct H
           | H : (_ =? _) = true |- _ => apply Z.eqb_eq in H
           end;
    lia.
Qed.

Lemma same_slice_sym (s t : BitSlice) : same_slice s t -> same_slice t s.
Proof.
  intros [H1 H2]. split; [ | congruence]. rewrite Range_eqb_sym. exact H1.
Qed.

Lemma slice_int_eq (r : SignedRange) (w v u v' u' : Z) :
  v = v' -> u = u' ->
  Some (Slice.mkBitSlice r (Some (ConstantInt w v u)))
  = Some (Slice.mkBitSlice r (Some (ConstantInt w v' u'))).
Proof. intros -> ->. reflexivity. Qed.

(** Three non-empty slices: both pairings of an order give the union over
    the hull of the three when the slice merged last is clear of the hull of
    the other two, and fail otherwise. *)
Lemma Merge_three_nonempty (BE : bool) (x y z : BitSlice) :
  wf_slice x -> wf_slice y -> wf_slice z ->
  Slice.empty x = false -> Slice.empty y = false -> Slice.empty z = false ->
  Range.intersects (Slice.R x) (Slice.R y) = false ->
  let Hxy := Range.Join (Slice.R x) (Slice.R y) in
  if Range.intersects Hxy (Slice.R z)
  then MergeLeft BE x y z = None /\ MergeRight BE z x y = None
  else MergeLeft BE x y z = Some (union_of BE (Range.Join Hxy (Slice.R z)) [x; y; z]) /\
       MergeRight BE z x y = Some (union_of BE (Range.Join Hxy (Slice.R z)) [x; y; z]).
Proof.
  intros Hx Hy Hz Ex Ey Ez Hxy_dis Hxy.
  destruct (union_of_pair_wf BE x y Hx Hy Ex Ey) as (Hwf & HeU & _ & _).
  fold Hxy in Hwf, HeU.
  unfold MergeLeft, MergeRight.
  rewrite (Merge_nonempty BE x y) by assumption. fold Hxy.
  destruct (Range.intersects Hxy (Slice.R z)) eqn:Hi.
  - split.
    + apply Merge_overlap; assumption.
    + apply Merge_overlap; try assumption.
      rewrite intersects_sym. exact Hi.
  - assert (Hi' : Range.intersects (Slice.R z) Hxy = false)
      by (rewrite intersects_sym; exact Hi).
    set (U := union_of BE Hxy [x; y]) in *.
    rewrite (Merge_nonempty BE U z) by assumption.
    rewrite (Merge_nonempty BE z U) by assumption.
    change (Slice.R U) with Hxy.
    assert (HJ : Range.Join (Slice.R z) Hxy = Range.Join Hxy (Slice.R z)).
    { unfold Slice.empty in *. change (Slice.R U) with Hxy in HeU.
      rewrite !Join_nonempty by assumption. f_equal; lia. }
    rewrite HJ. set (H3 := Range.Join Hxy (Slice.R z)).
    assert (HP := placed_union BE H3 x y Hx Hy Ex Ey Hxy_dis).
    fold Hxy in HP. fold U in HP.
    unfold union_of. cbn [fold_right]. rewrite HP. cbn [fst snd].
    rewrite !Z.lor_0_r.
    split; apply slice_int_eq; apply Z.bits_inj'; intros k Hk; open_bits;
      split_bits.
Qed.

Ltac merge_steps BE :=
  unfold MergeLeft, MergeRight;
  repeat first
    [ rewrite (Merge_empty_r BE) by assumption
    | rewrite (Merge_empty_l BE) by assumption
    | rewrite (Merge_nonempty BE) by assumption ];
  cbn beta iota.

(** Three slices with pairwise disjoint ranges, in one order: both pairings
    fail when the slice merged last meets the hull of the other two, and
    otherwise give the slice [merged] describes. *)
Lemma Merge_three (BE : bool) (x y z : BitSlice) :
  wf_slice x -> wf_slice y -> wf_slice z ->
  Range.intersects (Slice.R x) (Slice.R y) = false ->
  Range.intersects (Slice.R x) (Slice.R z) = false ->
  Range.intersects (Slice.R y) (Slice.R z) = false ->
  if Range.intersects (Range.Join (Slice.R x) (Slice.R y)) (Slice.R z)
  then MergeLeft BE x y z = None /\ MergeRight BE z x y = None
  else (exists t1, MergeLeft BE x y z = Some t1 /\ same_slice t1 (merged BE x y z)) /\
       (exists t2, MergeRight BE z x y = Some t2 /\ same_slice t2 (merged BE x y z)).
Proof.
  intros Hx Hy Hz Hxy Hxz Hyz.
  destruct (Slice.empty x) eqn:Ex, (Slice.empty y) eqn:Ey, (Slice.empty z) eqn:Ez.
  - (* no bits at all *)
    rewrite intersects_empty_r by assumption.
    unfold merged. cbn [filter]. rewrite Ex, Ey, Ez. cbn [negb].
    merge_steps BE. split; eexists; (split; [reflexivity | ]).
    + apply same_slice_refl.
    + apply same_slice_empty; assumption.
  - (* only z *)
    rewrite Join_empty_l by assumption. rewrite Hyz.
    unfold merged. cbn [filter]. rewrite Ex, Ey, Ez. cbn [negb].
    merge_steps BE. split; eexists; (split; [reflexivity | apply same_slice_refl]).
  - (* only y *)
    rewrite intersects_empty_r by assumption.
    unfold merged. cbn [filter]. rewrite Ex, Ey, Ez. cbn [negb].
    merge_steps BE. split; eexists; (split; [reflexivity | apply same_slice_refl]).
  - (* y and z *)
    rewrite Join_empty_l by assumption. rewrite Hyz.
    unfold merged. cbn [filter]. rewrite Ex, Ey, Ez. cbn [negb].
    assert (Hzy : Range.intersects (Slice.R z) (Slice.R y) = false)
      by (rewrite intersects_sym; assumption).
    merge_steps BE.
    rewrite (Join_empty_l (Slice.R x)) by assumption.
    split; eexists; (split; [reflexivity | ]); [apply same_slice_refl | ].
    unfold Slice.empty in *.
    rewrite !Join_nonempty by assumption.
    split; [cbn [union_of Slice.R]; unfold Range.eqb; cbn [First Last]; lia | ].
    cbn [union_of Slice.Contents fold_right].
    replace (Z.max (Last (Slice.R z)) (Last (Slice.R y)))
      with (Z.max (Last (Slice.R y)) (Last (Slice.R z))) by lia.
    replace (Z.min (First (Slice.R z)) (First (Slice.R y)))
      with (Z.min (First (Slice.R y)) (First (Slice.R z))) by lia.
    do 2 f_equal; apply Z.bits_inj'; intros k Hk; open_bits; split_bits.
  - (* only x *)
    rewrite intersects_empty_r by assumption.
    unfold merged. cbn [filter]. rewrite Ex, Ey, Ez. cbn [negb].
    merge_steps BE. split; eexists; (split; [reflexivity | apply same_slice_refl]).
  - (* x and z *)
    rewrite Join_empty_r by assumption. rewrite Hxz.
    unfold merged. cbn [filter]. rewrite Ex, Ey, Ez. cbn [negb].
    assert (Hzx : Range.intersects (Slice.R z) (Slice.R x) = false)
      by (rewrite intersects_sym; assumption).
    merge_steps BE.
    rewrite (Join_empty_r (Slice.R x) (Slice.R y)) by assumption.
    split; eexists; (split; [reflexivity | ]); [apply same_slice_refl | ].
    unfold Slice.empty in *.
    rewrite !Join_nonempty by assumption.
    split; [cbn [union_of Slice.R]; unfold Range.eqb; cbn [First Last]; lia | ].
    cbn [union_of Slice.Contents fold_right].
    replace (Z.max (Last (Slice.R z)) (Last (Slice.R x)))
      with (Z.max (Last (Slice.R x)) (Last (Slice.R z))) by lia.
    replace (Z.min (First (Slice.R z)) (First (Slice.R x)))
      with (Z.min (First (Slice.R x)) (First (Slice.R z))) by lia.
    do 2 f_equal; apply Z.bits_inj'; intros k Hk; open_bits; split_bits.
  - (* x and y *)
    rewrite intersects_empty_r by assumption.
    unfold merged. cbn [filter]. rewrite Ex, Ey, Ez. cbn [negb].
    destruct (union_of_pair_wf BE x y Hx Hy Ex Ey) as (_ & HeU & _ & _).
    merge_steps BE.
    rewrite (Join_empty_r _ (Slice.R z)) by assumption.
    split; eexists; (split; [reflexivity | apply same_slice_refl]).
  - (* all three *)
    pose proof (Merge_three_nonempty BE x y z Hx Hy Hz Ex Ey Ez Hxy) as H.
    cbv zeta in H.
    destruct (Range.intersects (Range.Join (Slice.R x) (Slice.R y)) (Slice.R z)).
    + exact H.
    + destruct H as [H1 H2]. rewrite H1, H2.
      unfold merged. cbn [filter]. rewrite Ex, Ey, Ez. cbn [negb].
      split; eexists; (split; [reflexivity | apply same_slice_refl]).
Qed.

Ltac hull_eq :=
  unfold Slice.empty, Range.empty in *;
  unfold Range.Join, Range.empty;
  repeat match goal with
         | H : (Last ?r <=? First ?r) = _ |- _ =>
             progress (rewrite ?H; cbn [First Last])
         end;
  repeat match goal with
         | H : (_ <=? _) = true |- _ => apply Z.leb_le in H
         | H : (_ <=? _) = false |- _ => apply Z.leb_gt in H
         end;
  repeat (match goal with
          | |- context [?a <=? ?b] => destruct (Z.leb_spec a b)
          end; cbn [First Last]; try lia);
  try reflexivity; try (f_equal; lia).

Lemma same_slice_union (BE : bool) (H H' : SignedRange) (l l' : list BitSlice) :
  H = H' ->
  (forall f : Z * Z -> Z,
     fold_right (fun s acc => Z.lor (f (placed BE H s)) acc) 0 l
     = fold_right (fun s acc => Z.lor (f (placed BE H s)) acc) 0 l') ->
  same_slice (union_of BE H l) (union_of BE H' l').
Proof.
  intros <- Hf. unfold union_of. split; [apply Range_eqb_refl | ].
  cbn [Slice.Contents]. rewrite (Hf fst), (Hf snd). reflexivity.
Qed.

(** The slice [merged] describes does not depend on the order. *)
Lemma merged_order (BE : bool) (a b c x y z : BitSlice) :
  wf_slice a -> wf_slice b -> wf_slice c ->
  In (x, y, z) (orders a b c) ->
  same_slice (merged BE x y z) (merged BE a b c).
Proof.
  intros Ha Hb Hc Hin. unfold orders in Hin. cbn [In] in Hin.
  destruct (Slice.empty a) eqn:Ea, (Slice.empty b) eqn:Eb, (Slice.empty c) eqn:Ec;
    repeat (destruct Hin as [Hin | Hin]; [inversion Hin; subst x y z; clear Hin | ]);
    try contradiction;
    unfold merged; cbn [filter]; rewrite ?Ea, ?Eb, ?Ec; cbn [negb];
    try apply same_slice_refl;
    try (apply same_slice_empty; assumption);
    (apply same_slice_union;
     [ hull_eq
     | intros f; cbn [fold_right]; apply Z.bits_inj'; intros k Hk; open_bits;
       split_bits ]).
Qed.

Lemma Join_is_empty (a b : SignedRange) :
  Range.empty (Range.Join a b) = Range.empty a && Range.empty b.
Proof.
  unfold Range.Join.
  destruct (Range.empty a) eqn:Ea; [reflexivity | ].
  destruct (Range.empty b) eqn:Eb; [exact Ea | ].
  unfold Range.empty in *. cbn [First Last]. lia.
Qed.

Lemma merged_range (BE : bool) (a b c : BitSlice) :
  Range.eqb (Slice.R (merged BE a b c))
    (Range.Join (Range.Join (Slice.R a) (Slice.R b)) (Slice.R c)) = true.
Proof.
  destruct (Slice.empty a) eqn:Ea, (Slice.empty b) eqn:Eb, (Slice.empty c) eqn:Ec;
    unfold merged; cbn [filter]; rewrite ?Ea, ?Eb, ?Ec; cbn [negb union_of Slice.R];
    try apply Range_eqb_refl;
    try (match goal with
         | |- Range.eqb ?r ?h = true =>
             replace h with r by hull_eq; apply Range_eqb_refl
         end).
  unfold Range.eqb. rewrite !Join_is_empty.
  unfold Slice.empty in *. rewrite Ea, Eb, Ec. reflexivity.
Qed.

(** C6, as amended.  Three well-formed slices with pairwise disjoint ranges:
    in every order, when the slice merged last is clear of the convex hull
    of the two merged first, pairing from the left and from the right both
    give one and the same slice, over the convex hull of the three; when it
    is not clear of that hull, both pairings fail on the assertion of
    [Merge]. *)
Theorem Merge_pairing_orders (BE : bool) (a b c : BitSlice) :
  wf_slice a -> wf_slice b -> wf_slice c ->
  Range.intersects (Slice.R a) (Slice.R b) = false ->
  Range.intersects (Slice.R a) (Slice.R c) = false ->
  Range.intersects (Slice.R b) (Slice.R c) = false ->
  exists t,
    Range.eqb (Slice.R t)
      (Range.Join (Range.Join (Slice.R a) (Slice.R b)) (Slice.R c)) = true /\
    forall x y z, In (x, y, z) (orders a b c) ->
      if Range.intersects (Range.Join (Slice.R x) (Slice.R y)) (Slice.R z)
      then MergeLeft BE x y z = None /\ MergeRight BE z x y = None
      else (exists t1, MergeLeft BE x y z = Some t1 /\ same_slice t1 t) /\
           (exists t2, MergeRight BE z x y = Some t2 /\ same_slice t2 t).
Proof.
  intros Ha Hb Hc Hab Hac Hbc.
  assert (Hba : Range.intersects (Slice.R b) (Slice.R a) = false)
    by (rewrite intersects_sym; assumption).
  assert (Hca : Range.intersects (Slice.R c) (Slice.R a) = false)
    by (rewrite intersects_sym; assumption).
  assert (Hcb : Range.intersects (Slice.R c) (Slice.R b) = false)
    by (rewrite intersects_sym; assumption).
  exists (merged BE a b c). split.
  - apply merged_range.
  - intros x y z Hin.
    assert (Hm := merged_order BE a b c x y z Ha Hb Hc Hin).
    assert (H3 : wf_slice x /\ wf_slice y /\ wf_slice z /\
                 Range.intersects (Slice.R x) (Slice.R y) = false /\
                 Range.intersects (Slice.R x) (Slice.R z) = false /\
                 Range.intersects (Slice.R y) (Slice.R z) = false).
    { unfold orders in Hin. cbn [In] in Hin.
      repeat (destruct Hin as [Hin | Hin]; [inversion Hin; subst x y z; clear Hin | ]);
        try contradiction;
        repeat match goal with |- _ /\ _ => split end; assumption. }
    destruct H3 as (Hx & Hy & Hz & Hxy & Hxz & Hyz).
    pose proof (Merge_three BE x y z Hx Hy Hz Hxy Hxz Hyz) as H.
    destruct (Range.intersects (Range.Join (Slice.R x) (Slice.R y)) (Slice.R z)).
    + exact H.
    + destruct H as [(t1 & H1 & S1) (t2 & H2 & S2)].
      split; [exists t1 | exists t2]; (split; [assumption | ]);
        eapply same_slice_trans; eassumption.
Qed.

Lemma Merge_pairing_orders_witness :
  exists t,
    Range.eqb (Slice.R t)
      (Range.Join (Range.Join (Slice.R Examples.slice_a) (Slice.R Examples.slice_b))
                  (Slice.R Examples.slice_c)) = true /\
    forall x y z,
      In (x, y, z) (orders Examples.slice_a Examples.slice_b Examples.slice_c) ->
      if Range.intersects (Range.Join (Slice.R x) (Slice.R y)) (Slice.R z)
      then MergeLeft true x y z = None /\ MergeRight true z x y = None
      else (exists t1, MergeLeft true x y z = Some t1 /\ same_slice t1 t) /\
           (exists t2, MergeRight true z x y = Some t2 /\ same_slice t2 t).
Proof.
  apply (Merge_pairing_orders true Examples.slice_a Examples.slice_b Examples.slice_c);
    try reflexivity;
    unfold wf_slice, int_range; simpl; repeat split; try reflexivity; lia.
Defined.

(** C6, as stated, fails.  The slices over [0, 2), [2, 4) and [4, 6) are
    pairwise disjoint; pairing the first with the second and then the third
    gives the slice over [0, 6), but pairing the first with the third and
    then the second fails: the second lies inside the hull of the other two
    and [Merge] asserts that its operands do not overlap. *)
Lemma Merge_pairing_counterexample :
  Range.intersects (Slice.R Examples.slice_a) (Slice.R Examples.slice_b) = false /\
  Range.intersects (Slice.R Examples.slice_a) (Slice.R Examples.slice_c) = false /\
  Range.intersects (Slice.R Examples.slice_b) (Slice.R Examples.slice_c) = false /\
  MergeLeft false Examples.slice_a Examples.slice_b Examples.slice_c
  = Some (Slice.mkBitSlice (mkRange 0 6) (Some (ConstantInt 6 57 0))) /\
  MergeLeft false Examples.slice_a Examples.slice_c Examples.slice_b = None /\
  MergeLeft true Examples.slice_a Examples.slice_c Examples.slice_b = None.
Proof.
  repeat split; vm_compute; reflexivity.
Qed.


(** ** Sliding, widening and narrowing a slice *)

Lemma Range_empty_Displace (r : SignedRange) (d : Z) :
  Range.empty (Range.Displace r d) = Range.empty r.
Proof.
  unfold Range.empty, Range.Displace; cbn [First Last].
  destruct (Z.leb_spec (Last r) (First r)),
           (Z.leb_spec (Last r + d) (First r + d)); try reflexivity; lia.
Qed.

Lemma Range_getWidth_Displace (r : SignedRange) (d : Z) :
  Range.getWidth (Range.Displace r d) = Range.getWidth r.
Proof.
  unfold Range.getWidth. rewrite Range_empty_Displace.
  destruct (Range.empty r); [reflexivity | ].
  unfold Range.Displace; cbn [First Last]. lia.
Qed.

Lemma contentsValid_Displace (s : BitSlice) (d : Z) :
  Slice.contentsValid (Slice.mkBitSlice (Range.Displace (Slice.R s) d) (Slice.Contents s))
  = Slice.contentsValid s.
Proof.
  unfold Slice.contentsValid, Slice.empty, Slice.getBitWidth.
  cbn [Slice.R Slice.Contents].
  rewrite Range_empty_Displace, Range_getWidth_Displace. reflexivity.
Qed.

Lemma Displace_Some (s : BitSlice) (d : Z) :
  Slice.contentsValid s = true ->
  Slice.Displace s d
  = Some (Slice.mkBitSlice (Range.Displace (Slice.R s) d) (Slice.Contents s)).
Proof.
  intros Hv. unfold Slice.Displace. apply make_Some.
  rewrite contentsValid_Displace. exact Hv.
Qed.

(** X1. Sliding a slice that satisfies the class invariant never faults and
    keeps its contents; sliding by [d1] and then by [d2] is sliding by
    [d1 + d2], and sliding back by [- d1] gives the slice again. *)
Theorem Displace_Displace (s : BitSlice) (d1 d2 : Z) :
  Slice.contentsValid s = true ->
  (t <- Slice.Displace s d1 ;; Slice.Displace t d2) = Slice.Displace s (d1 + d2) /\
  (t <- Slice.Displace s d1 ;; Slice.Displace t (- d1)) = Some s.
Proof.
  intros Hv.
  assert (Hv1 : Slice.contentsValid
                  (Slice.mkBitSlice (Range.Displace (Slice.R s) d1) (Slice.Contents s))
                = true)
    by (rewrite contentsValid_Displace; exact Hv).
  rewrite (Displace_Some s d1 Hv), (Displace_Some s (d1 + d2) Hv).
  rewrite !(Displace_Some _ _ Hv1). cbn [Slice.R Slice.Contents].
  destruct s as [[f l] c]. unfold Range.Displace; cbn [First Last Slice.R].
  split; do 3 f_equal; lia.
Qed.

Lemma Displace_Displace_witness :
  (t <- Slice.Displace Examples.slice_b 5 ;; Slice.Displace t (-7))
  = Slice.Displace Examples.slice_b (5 + -7) /\
  (t <- Slice.Displace Examples.slice_b 5 ;; Slice.Displace t (- 5))
  = Some Examples.slice_b.
Proof. apply (Displace_Displace Examples.slice_b 5 (-7)). reflexivity. Defined.


Lemma contains_trans (a b c : SignedRange) :
  Range.contains a b = true -> Range.contains b c = true ->
  Range.contains a c = true.
Proof.
  unfold Range.contains, Range.empty.
  destruct (Z.leb_spec (Last c) (First c)); [reflexivity | ].
  destruct (Z.leb_spec (Last b) (First b)), (Z.leb_spec (Last a) (First a));
    cbn [orb andb negb]; intros Hab Hbc; try discriminate;
    range_facts; try discriminate;
    repeat (apply Bool.andb_true_iff; split); try apply Z.leb_le; lia.
Qed.

Lemma contains_nonempty (a b : SignedRange) :
  Range.contains a b = true -> Range.empty b = false -> Range.empty a = false.
Proof.
  unfold Range.contains. intros H Hb. rewrite Hb in H. cbn [orb] in H.
  destruct (Range.empty a); [discriminate | reflexivity].
Qed.

Lemma offset_in_bounds (BE : bool) (r hull : SignedRange) :
  Range.contains hull r = true -> Range.empty r = false ->
  0 <= offset_in BE r hull /\
  offset_in BE r hull + (Last r - First r) <= Last hull - First hull.
Proof.
  intros Hc He. unfold offset_in.
  unfold Range.contains in Hc. rewrite He in Hc. cbn [orb] in Hc.
  range_facts. destruct BE; lia.
Qed.

(** X2. Widening a non-empty slice in two steps, to [r1] and then to [r2],
    gives what widening it to [r2] at once gives. *)
Theorem ExtendRange_ExtendRange (BE : bool) (s : BitSlice) (r1 r2 : SignedRange) :
  wf_slice s -> Slice.empty s = false ->
  Range.contains r1 (Slice.R s) = true -> Range.contains r2 r1 = true ->
  int_range r1 -> int_range r2 ->
  (e <- Slice.ExtendRange BE s r1 ;; Slice.ExtendRange BE e r2)
  = Slice.ExtendRange BE s r2 /\
  exists t, Slice.ExtendRange BE s r2 = Some t.
Proof.
  intros Hwf He Hc1 Hc2 Hi1 Hi2.
  destruct s as [r0 c]. unfold wf_slice in Hwf. unfold Slice.empty in He.
  cbn [Slice.R Slice.Contents] in *.
  destruct Hwf as [Hi0 Hc].
  destruct c as [[w v u | | | | | | ] | ]; try contradiction;
    [ | rewrite Hc in He; discriminate].
  destruct Hc as (_ & Hw & Hv & Hu).
  pose proof (contains_nonempty _ _ Hc1 He) as He1.
  pose proof (contains_trans _ _ _ Hc2 Hc1) as Hc02.
  destruct (width_nonempty r0 He Hi0) as [Hw0 Hw0'].
  destruct (width_nonempty r1 He1 Hi1) as [Hw1 Hw1'].
  destruct (offset_in_bounds BE r0 r1 Hc1 He) as [Hd1 Hd1'].
  rewrite (ExtendRange_wf BE r0 r1 w v u Hc1 He Hi0 Hi1 Hw Hv Hu).
  rewrite (ExtendRange_wf BE r0 r2 w v u Hc02 He Hi0 Hi2 Hw Hv Hu).
  rewrite (ExtendRange_wf BE r1 r2 _ _ _ Hc2 He1 Hi1 Hi2 eq_refl).
  - split; [ | eexists; reflexivity].
    rewrite !Z.shiftl_shiftl by lia. rewrite !offset_in_add. reflexivity.
  - apply shiftl_bound with w; lia.
  - apply shiftl_bound with w; lia.
Qed.

Lemma ExtendRange_ExtendRange_witness :
  (e <- Slice.ExtendRange true Examples.slice_b (mkRange 0 4) ;;
   Slice.ExtendRange true e (mkRange 0 6))
  = Slice.ExtendRange true Examples.slice_b (mkRange 0 6) /\
  exists t, Slice.ExtendRange true Examples.slice_b (mkRange 0 6) = Some t.
Proof.
  apply (ExtendRange_ExtendRange true Examples.slice_b (mkRange 0 4) (mkRange 0 6));
    try reflexivity.
  - unfold wf_slice, int_range; cbn. repeat split; lia.
  - unfold int_range; cbn; lia.
  - unfold int_range; cbn; lia.
Defined.

(** Narrowing a well-formed slice to a non-empty range within it. *)
Lemma ReduceRange_wf (BE : bool) (r r1 : SignedRange) (W V U : Z) :
  Range.contains r r1 = true -> Range.empty r1 = false ->
  int_range r -> int_range r1 -> W = Range.getWidth r ->
  0 <= V < 2 ^ W -> 0 <= U < 2 ^ W ->
  Slice.ReduceRange BE (Slice.mkBitSlice r (Some (ConstantInt W V U))) r1
  = Some (Slice.mkBitSlice r1
            (Some (ConstantInt (Range.getWidth r1)
                     (Z.shiftr V (offset_in BE r1 r) mod 2 ^ Range.getWidth r1)
                     (Z.shiftr U (offset_in BE r1 r) mod 2 ^ Range.getWidth r1)))).
Proof.
  intros Hc He1 Hi Hi1 HW HV HU.
  destruct (Range.eqb r r1) eqn:Heq.
  - pose proof (contains_nonempty _ _ Hc He1) as He.
    pose proof (Range_eqb_nonempty _ _ Heq He) as ->.
    unfold Slice.ReduceRange. cbn [Slice.R]. rewrite Hc, Heq. cbn [assert].
    assert (Hd : offset_in BE r1 r1 = 0) by (unfold offset_in; destruct BE; lia).
    rewrite Hd, !Z.shiftr_0_r, <- HW, !Z.mod_small by lia. reflexivity.
  - exact (ReduceRange_nonempty BE r r1 W V U Hc He1 Hi Hi1 HW Heq).
Qed.

Lemma shiftr_mod_shiftr (V d1 w1 d2 w2 : Z) :
  0 <= d1 -> 0 <= d2 -> 0 <= w2 -> d2 + w2 <= w1 ->
  Z.shiftr (Z.shiftr V d1 mod 2 ^ w1) d2 mod 2 ^ w2
  = Z.shiftr V (d2 + d1) mod 2 ^ w2.
Proof.
  intros H1 H2 H3 H4. apply Z.bits_inj'. intros k Hk.
  rewrite !Z.testbit_mod_pow2 by lia.
  destruct (Z.ltb_spec k w2); cbn [andb]; [ | reflexivity].
  rewrite !Z.shiftr_spec by lia.
  rewrite Z.testbit_mod_pow2 by lia.
  destruct (Z.ltb_spec (k + d2) w1); [ | lia]. cbn [andb].
  rewrite Z.shiftr_spec by lia. f_equal. lia.
Qed.

(** X3. Narrowing a slice in two steps, to [r1] and then to [r2] within it,
    gives what narrowing it to [r2] at once gives. *)
Theorem ReduceRange_ReduceRange (BE : bool) (s : BitSlice) (r1 r2 : SignedRange) :
  wf_slice s ->
  Range.contains (Slice.R s) r1 = true -> Range.contains r1 r2 = true ->
  Range.empty r2 = false -> int_range r1 -> int_range r2 ->
  (e <- Slice.ReduceRange BE s r1 ;; Slice.ReduceRange BE e r2)
  = Slice.ReduceRange BE s r2 /\
  exists t, Slice.ReduceRange BE s r2 = Some t.
Proof.
  intros Hwf Hc1 Hc2 He2 Hi1 Hi2.
  pose proof (contains_nonempty _ _ Hc2 He2) as He1.
  pose proof (contains_nonempty _ _ Hc1 He1) as He.
  pose proof (contains_trans _ _ _ Hc1 Hc2) as Hc02.
  destruct s as [r0 c]. unfold wf_slice in Hwf.
  cbn [Slice.R Slice.Contents] in *.
  destruct Hwf as [Hi0 Hc].
  destruct c as [[w v u | | | | | | ] | ]; try contradiction;
    [ | rewrite Hc in He; discriminate].
  destruct Hc as (_ & Hw & Hv & Hu).
  destruct (width_nonempty r1 He1 Hi1) as [Hw1 Hw1'].
  destruct (width_nonempty r2 He2 Hi2) as [Hw2 Hw2'].
  destruct (offset_in_bounds BE r1 r0 Hc1 He1) as [Hd1 Hd1'].
  destruct (offset_in_bounds BE r2 r1 Hc2 He2) as [Hd2 Hd2'].
  rewrite (ReduceRange_wf BE r0 r1 w v u Hc1 He1 Hi0 Hi1 Hw Hv Hu).
  rewrite (ReduceRange_wf BE r0 r2 w v u Hc02 He2 Hi0 Hi2 Hw Hv Hu).
  rewrite (ReduceRange_wf BE r1 r2 _ _ _ Hc2 He2 Hi1 Hi2 eq_refl).
  - split; [ | eexists; reflexivity].
    rewrite !shiftr_mod_shiftr by lia. rewrite !offset_in_add. reflexivity.
  - apply Z.mod_pos_bound. apply Z.pow_pos_nonneg; lia.
  - apply Z.mod_pos_bound. apply Z.pow_pos_nonneg; lia.
Qed.

Lemma ReduceRange_ReduceRange_witness :
  let s := Slice.mkBitSlice (mkRange 0 6) (Some (ConstantInt 6 57 0)) in
  (e <- Slice.ReduceRange true s (mkRange 0 4) ;;
   Slice.ReduceRange true e (mkRange 2 4))
  = Slice.ReduceRange true s (mkRange 2 4) /\
  exists t, Slice.ReduceRange true s (mkRange 2 4) = Some t.
Proof.
  apply (ReduceRange_ReduceRange true
           (Slice.mkBitSlice (mkRange 0 6) (Some (ConstantInt 6 57 0)))
           (mkRange 0 4) (mkRange 2 4));
    try reflexivity.
  - unfold wf_slice, int_range; cbn. repeat split; lia.
  - unfold int_range; cbn; lia.
  - unfold int_range; cbn; lia.
Defined.


(** ** Reading bits out of a slice *)

Lemma Join_contains (r0 r : SignedRange) :
  Range.contains r0 r = true -> Range.empty r = false ->
  Range.Join r0 r = r0.
Proof.
  intros Hc He. pose proof (contains_nonempty _ _ Hc He) as He0.
  rewrite Join_nonempty by assumption.
  unfold Range.contains in Hc. rewrite He in Hc. cbn [orb] in Hc.
  range_facts. destruct r0 as [f0 l0]; cbn [First Last] in *.
  f_equal; lia.
Qed.

Lemma Join_bounds (r0 r : SignedRange) :
  Range.empty r0 = false -> Range.empty r = false ->
  int_range r0 -> int_range r ->
  int_range (Range.Join r0 r) /\
  Range.empty (Range.Join r0 r) = false /\
  Range.contains (Range.Join r0 r) r0 = true /\
  Range.contains (Range.Join r0 r) r = true.
Proof.
  intros He0 He Hi0 Hi. rewrite Join_nonempty by assumption.
  unfold int_range, Range.contains, Range.empty in *; cbn [First Last].
  rewrite He0, He. cbn [orb].
  apply Z.leb_gt in He0, He.
  assert (Hne : (Z.max (Last r0) (Last r) <=? Z.min (First r0) (First r)) = false)
    by (apply Z.leb_gt; lia).
  rewrite Hne. cbn [negb andb].
  repeat match goal with |- _ /\ _ => split end; try lia; try reflexivity;
    apply Bool.andb_true_iff; split; apply Z.leb_le; lia.
Qed.

Lemma ones_bounds (w : Z) : 0 <= w -> 0 <= Z.ones w < 2 ^ w.
Proof.
  intros Hw. rewrite Z.ones_equiv.
  assert (0 < 2 ^ w) by (apply Z.pow_pos_nonneg; lia). lia.
Qed.

Lemma getBits_contained (BE : bool) (r0 r : SignedRange) (w v u : Z) :
  wf_slice (Slice.mkBitSlice r0 (Some (ConstantInt w v u))) ->
  Range.contains r0 r = true -> Range.empty r = false -> int_range r ->
  Slice.getBits BE (Slice.mkBitSlice r0 (Some (ConstantInt w v u))) r
  = Some (ConstantInt (Range.getWidth r)
            (Z.shiftr v (offset_in BE r r0) mod 2 ^ Range.getWidth r)
            (Z.shiftr u (offset_in BE r r0) mod 2 ^ Range.getWidth r)).
Proof.
  intros [Hi0 (He0 & Hw & Hv & Hu)] Hc He Hi. cbn [Slice.R] in *.
  unfold Slice.getBits. cbn [Slice.R Slice.Contents].
  rewrite He. cbn [negb assert].
  destruct (Range.eqb r0 r) eqn:Heq.
  - pose proof (Range_eqb_nonempty _ _ Heq He0) as <-.
    assert (Hd : offset_in BE r0 r0 = 0) by (unfold offset_in; destruct BE; lia).
    rewrite Hd, !Z.shiftr_0_r, <- Hw, !Z.mod_small by lia. reflexivity.
  - unfold Slice.empty. cbn [Slice.R]. rewrite He0.
    rewrite (Join_contains r0 r Hc He).
    unfold Slice.ExtendRange at 1. cbn [Slice.R].
    assert (Hc0 : Range.contains r0 r0 = true).
    { unfold Range.contains. rewrite He0. cbn [orb negb andb].
      rewrite !Z.leb_refl. reflexivity. }
    rewrite Hc0, Range_eqb_refl. cbn [assert].
    rewrite (ReduceRange_wf BE r0 r w v u Hc He Hi0 Hi Hw Hv Hu).
    reflexivity.
Qed.

(** X4. Reading a non-empty range [r] that lies within a well-formed slice
    of a fully defined integer gives the fully defined integer of [r]'s
    width made of the slice's bits from the place of [r] on: the value
    shifted down by the distance between the first bits (little-endian) or
    the last bits (big-endian) and cut to the width. *)
Theorem getBits_within (BE : bool) (r0 r : SignedRange) (w v : Z) :
  wf_slice (Slice.mkBitSlice r0 (Some (ConstantInt w v 0))) ->
  Range.contains r0 r = true -> Range.empty r = false -> int_range r ->
  let delta := if BE then Last r0 - Last r else First r - First r0 in
  0 <= delta /\ delta + Range.getWidth r <= w /\
  Slice.getBits BE (Slice.mkBitSlice r0 (Some (ConstantInt w v 0))) r
  = Some (ConstantInt (Range.getWidth r)
            (Z.shiftr v delta mod 2 ^ Range.getWidth r) 0).
Proof.
  intros Hwf Hc He Hi delta.
  pose proof (getBits_contained BE r0 r w v 0 Hwf Hc He Hi) as Hg.
  rewrite Z.shiftr_0_l, Zmod_0_l in Hg.
  destruct Hwf as [Hi0 (He0 & Hw & _)]. cbn [Slice.R] in *.
  destruct (offset_in_bounds BE r r0 Hc He) as [Hd Hd'].
  destruct (width_nonempty r0 He0 Hi0) as [Hw0 _].
  destruct (width_nonempty r He Hi) as [Hw1 _].
  change delta with (offset_in BE r r0).
  repeat split; [exact Hd | lia | exact Hg].
Qed.

Lemma getBits_within_witness :
  let delta := 2 in
  0 <= delta /\ delta + Range.getWidth (mkRange 2 4) <= 6 /\
  Slice.getBits true (Slice.mkBitSlice (mkRange 0 6) (Some (ConstantInt 6 57 0)))
    (mkRange 2 4)
  = Some (ConstantInt (Range.getWidth (mkRange 2 4))
            (Z.shiftr 57 delta mod 2 ^ Range.getWidth (mkRange 2 4)) 0).
Proof.
  apply (getBits_within true (mkRange 0 6) (mkRange 2 4) 6 57);
    try reflexivity.
  - unfold wf_slice, int_range; cbn. repeat split; lia.
  - unfold int_range; cbn; lia.
Defined.

(** X5. Reading any non-empty range of a well-formed slice, inside the slice
    or not, never faults and gives an integer constant of the width of the
    range whose value and undefined mask fit that width. *)
Theorem getBits_width (BE : bool) (s : BitSlice) (r : SignedRange) :
  wf_slice s -> Range.empty r = false -> int_range r ->
  exists v u,
    Slice.getBits BE s r = Some (ConstantInt (Range.getWidth r) v u) /\
    0 <= v < 2 ^ Range.getWidth r /\ 0 <= u < 2 ^ Range.getWidth r.
Proof.
  intros Hwf He Hi.
  destruct (width_nonempty r He Hi) as [Hw1 Hw1'].
  assert (Hp : 0 < 2 ^ Range.getWidth r) by (apply Z.pow_pos_nonneg; lia).
  destruct s as [r0 c]. destruct Hwf as [Hi0 Hc]. cbn [Slice.R Slice.Contents] in *.
  destruct c as [[w v u | | | | | | ] | ]; try contradiction.
  - destruct Hc as (He0 & Hw & Hv & Hu).
    destruct (Join_bounds r0 r He0 He Hi0 Hi) as (HiJ & HeJ & HcJ0 & HcJ).
    destruct (offset_in_bounds BE r0 (Range.Join r0 r) HcJ0 He0) as [Hd Hd'].
    destruct (width_nonempty r0 He0 Hi0) as [Hw0 Hw0'].
    destruct (width_nonempty _ HeJ HiJ) as [HwJ HwJ'].
    unfold Slice.getBits. cbn [Slice.R Slice.Contents].
    rewrite He. cbn [negb assert].
    destruct (Range.eqb r0 r) eqn:Heq.
    + pose proof (Range_eqb_nonempty _ _ Heq He0) as <-.
      exists v, u. rewrite <- Hw. repeat split; lia.
    + unfold Slice.empty. cbn [Slice.R]. rewrite He0.
      rewrite (ExtendRange_wf BE r0 _ w v u HcJ0 He0 Hi0 HiJ Hw Hv Hu).
      rewrite (ReduceRange_wf BE _ r _ _ _ HcJ He HiJ Hi eq_refl).
      * cbn [Slice.Contents]. eexists; eexists. split; [reflexivity | ].
        split; apply Z.mod_pos_bound; exact Hp.
      * apply shiftl_bound with w; lia.
      * apply shiftl_bound with w; lia.
  - unfold Slice.getBits. cbn [Slice.R Slice.Contents].
    rewrite He. cbn [negb assert].
    assert (Heq : Range.eqb r0 r = false).
    { unfold Range.eqb. rewrite Hc, He. cbn [andb orb].
      unfold Range.empty in Hc, He. apply Z.leb_le in Hc. apply Z.leb_gt in He.
      destruct (Z.eqb_spec (First r0) (First r)); [ | reflexivity].
      destruct (Z.eqb_spec (Last r0) (Last r)); [lia | reflexivity]. }
    rewrite Heq. unfold Slice.empty. cbn [Slice.R]. rewrite Hc.
    unfold IntegerType_get. rewrite to_unsigned_small by lia.
    cbn [UndefValue]. exists 0, (Z.ones (Range.getWidth r)).
    split; [reflexivity | ]. split; [lia | apply ones_bounds; lia].
Qed.

Lemma getBits_width_witness :
  exists v u,
    Slice.getBits false Examples.slice_b (mkRange 0 3)
    = Some (ConstantInt (Range.getWidth (mkRange 0 3)) v u) /\
    0 <= v < 2 ^ Range.getWidth (mkRange 0 3) /\
    0 <= u < 2 ^ Range.getWidth (mkRange 0 3).
Proof.
  apply (getBits_width false Examples.slice_b (mkRange 0 3)).
  - unfold wf_slice, int_range; cbn. repeat split; lia.
  - reflexivity.
  - unfold int_range; cbn; lia.
Defined.


(** ** Merging two slices *)

Lemma wf_slice_empty_eqb (r0 r : SignedRange) :
  Range.empty r0 = true -> Range.empty r = true -> Range.eqb r0 r = true.
Proof. intros H0 H. unfold Range.eqb. rewrite H0, H. reflexivity. Qed.

(** X6. Merging two well-formed slices faults when their ranges intersect;
    when they do not it gives a well-formed slice over the convex hull of
    the two ranges. *)
Theorem Merge_disjoint (BE : bool) (a b : BitSlice) :
  wf_slice a -> wf_slice b ->
  if Range.intersects (Slice.R a) (Slice.R b)
  then Slice.Merge BE a b = None
  else exists t, Slice.Merge BE a b = Some t /\ wf_slice t /\
                 Range.eqb (Slice.R t) (Range.Join (Slice.R a) (Slice.R b)) = true.
Proof.
  intros Ha Hb.
  destruct (Range.intersects (Slice.R a) (Slice.R b)) eqn:Hx.
  - apply Merge_overlap; [ | | exact Hx];
      unfold Range.intersects in Hx; unfold Slice.empty;
      destruct (Range.empty (Slice.R a)), (Range.empty (Slice.R b));
      try reflexivity; discriminate.
  - destruct (Slice.empty b) eqn:Heb.
    + exists a. rewrite Merge_empty_r by assumption.
      split; [reflexivity | ]. split; [exact Ha | ].
      unfold Slice.empty in Heb.
      destruct (Range.empty (Slice.R a)) eqn:Hea.
      * rewrite Join_empty_l by assumption. apply wf_slice_empty_eqb; assumption.
      * rewrite Join_empty_r by assumption. apply Range_eqb_refl.
    + destruct (Slice.empty a) eqn:Hea.
      * exists b. rewrite Merge_empty_l by assumption.
        split; [reflexivity | ]. split; [exact Hb | ].
        unfold Slice.empty in Hea. rewrite Join_empty_l by assumption.
        apply Range_eqb_refl.
      * rewrite Merge_nonempty by assumption.
        eexists. split; [reflexivity | ].
        destruct (union_of_pair_wf BE a b Ha Hb Hea Heb) as (Hwf & _).
        split; [exact Hwf | ]. cbn [union_of Slice.R]. apply Range_eqb_refl.
Qed.

Lemma Merge_disjoint_witness :
  exists t, Slice.Merge true Examples.slice_a Examples.slice_c = Some t /\ wf_slice t /\
            Range.eqb (Slice.R t)
              (Range.Join (Slice.R Examples.slice_a) (Slice.R Examples.slice_c)) = true.
Proof.
  apply (Merge_disjoint true Examples.slice_a Examples.slice_c);
    unfold wf_slice, int_range; cbn; repeat split; lia.
Defined.

Lemma Join_comm (a b : SignedRange) :
  Range.empty a = false -> Range.empty b = false ->
  Range.Join a b = Range.Join b a.
Proof.
  intros Ha Hb. rewrite !Join_nonempty by assumption.
  rewrite Z.min_comm, Z.max_comm. reflexivity.
Qed.

(** X7. Merging does not depend on which of the two slices is merged into
    which: for well-formed slices with disjoint ranges both orders succeed
    and give the same range and the same contents. *)
Theorem Merge_commutes (BE : bool) (a b : BitSlice) :
  wf_slice a -> wf_slice b ->
  Range.intersects (Slice.R a) (Slice.R b) = false ->
  exists t t', Slice.Merge BE a b = Some t /\ Slice.Merge BE b a = Some t' /\
               same_slice t t'.
Proof.
  intros Ha Hb Hx.
  assert (Hx' : Range.intersects (Slice.R b) (Slice.R a) = false)
    by (rewrite intersects_sym; exact Hx).
  destruct (Slice.empty a) eqn:Hea, (Slice.empty b) eqn:Heb.
  - exists a, b. rewrite !Merge_empty_r by assumption.
    split; [reflexivity | split; [reflexivity | ]].
    apply same_slice_empty; assumption.
  - exists b, b.
    rewrite (Merge_empty_l BE a b), (Merge_empty_r BE b a) by assumption.
    split; [reflexivity | split; [reflexivity | ]]. apply same_slice_refl.
  - exists a, a.
    rewrite (Merge_empty_l BE b a), (Merge_empty_r BE a b) by assumption.
    split; [reflexivity | split; [reflexivity | ]]. apply same_slice_refl.
  - rewrite !Merge_nonempty by assumption.
    eexists; eexists. split; [reflexivity | ]. split; [reflexivity | ].
    apply same_slice_union.
    + apply Join_comm; assumption.
    + intros f. cbn [fold_right]. rewrite !Z.lor_0_r. apply Z.lor_comm.
Qed.

Lemma Merge_commutes_witness :
  exists t t', Slice.Merge false Examples.slice_a Examples.slice_c = Some t /\
               Slice.Merge false Examples.slice_c Examples.slice_a = Some t' /\
               same_slice t t'.
Proof.
  apply (Merge_commutes false Examples.slice_a Examples.slice_c);
    try reflexivity;
    unfold wf_slice, int_range; cbn; repeat split; lia.
Defined.

Lemma shiftr_lor_shiftl (A B da wa db wb : Z) :
  0 <= A < 2 ^ wa -> 0 <= B < 2 ^ wb -> 0 <= da -> 0 <= db ->
  0 < wa -> 0 < wb -> da + wa <= db \/ db + wb <= da ->
  Z.shiftr (Z.lor (Z.shiftl A da) (Z.lor (Z.shiftl B db) 0)) da mod 2 ^ wa = A.
Proof.
  intros HA HB Hda Hdb Hwa Hwb Hdis. apply Z.bits_inj'. intros k Hk.
  rewrite Z.testbit_mod_pow2 by lia.
  rewrite Z.shiftr_spec by lia. rewrite Z.lor_0_r, Z.lor_spec.
  rewrite !Z.shiftl_spec by lia.
  replace (k + da - da) with k by lia.
  rewrite (testbit_bounded A wa k HA) by lia.
  rewrite (testbit_bounded B wb (k + da - db) HB) by lia.
  destruct (Z.ltb_spec k wa); cbn [andb]; [ | rewrite Bool.andb_false_r; reflexivity].
  destruct (Z.leb_spec 0 k); [ | lia]. cbn [andb].
  destruct (Z.leb_spec 0 (k + da - db)); cbn [andb];
    [ | rewrite Bool.orb_false_r; reflexivity].
  destruct (Z.ltb_spec (k + da - db) wb); [lia | ].
  cbn [andb]. rewrite Bool.orb_false_r. reflexivity.
Qed.

Lemma getBits_union_l (BE : bool) (ra rb : SignedRange) (wa va ua wb vb ub : Z) :
  let a := Slice.mkBitSlice ra (Some (ConstantInt wa va ua)) in
  let b := Slice.mkBitSlice rb (Some (ConstantInt wb vb ub)) in
  wf_slice a -> wf_slice b -> Range.intersects ra rb = false ->
  Slice.getBits BE (union_of BE (Range.Join ra rb) [a; b]) ra
  = Some (ConstantInt wa (Z.ldiff va ua) ua).
Proof.
  intros a b Ha Hb Hx.
  assert (Hea : Slice.empty a = false) by (destruct Ha as [_ [H _]]; exact H).
  assert (Heb : Slice.empty b = false) by (destruct Hb as [_ [H _]]; exact H).
  destruct (union_of_pair_wf BE a b Ha Hb Hea Heb) as (Hwf & _ & Hca & Hcb).
  cbn [Slice.R a b] in *.
  destruct Ha as [Hia (_ & Hwa & Hva & Hua)].
  destruct Hb as [Hib (_ & Hwb & Hvb & Hub)].
  cbn [Slice.R a b] in *. unfold Slice.empty in Hea, Heb. cbn [Slice.R a b] in *.
  destruct (Join_bounds ra rb Hea Heb Hia Hib) as (HiJ & HeJ & _ & _).
  destruct (offset_in_bounds BE ra _ Hca Hea) as [Hda Hda'].
  destruct (offset_in_bounds BE rb _ Hcb Heb) as [Hdb Hdb'].
  destruct (width_nonempty ra Hea Hia) as [Hwa0 Hwa1].
  destruct (width_nonempty rb Heb Hib) as [Hwb0 Hwb1].
  unfold union_of in *. cbn [fold_right placed Slice.Contents Slice.R a b fst snd] in *.
  rewrite (getBits_contained BE _ ra _ _ _ Hwf Hca Hea Hia).
  rewrite <- Hwa.
  assert (Hdis : offset_in BE ra (Range.Join ra rb) + wa
                 <= offset_in BE rb (Range.Join ra rb) \/
                 offset_in BE rb (Range.Join ra rb) + wb
                 <= offset_in BE ra (Range.Join ra rb)).
  { rewrite Join_nonempty by assumption.
    unfold offset_in; cbn [First Last].
    unfold Range.intersects in Hx. rewrite Hea, Heb in Hx. cbn [negb andb] in Hx.
    range_facts; destruct BE; lia. }
  rewrite (shiftr_lor_shiftl (Z.ldiff va ua) (Z.ldiff vb ub) _ wa _ wb);
    try lia; try (apply ldiff_bounds; lia).
  rewrite (shiftr_lor_shiftl ua ub _ wa _ wb); try lia.
  reflexivity.
Qed.

(** X8. A merge keeps the bits of both slices: reading the range of either
    operand out of the merge of two well-formed non-empty slices of fully
    defined integers with disjoint ranges gives that operand's contents
    again. *)
Theorem Merge_getBits (BE : bool) (ra rb : SignedRange) (wa va wb vb : Z) :
  let a := Slice.mkBitSlice ra (Some (ConstantInt wa va 0)) in
  let b := Slice.mkBitSlice rb (Some (ConstantInt wb vb 0)) in
  wf_slice a -> wf_slice b -> Range.intersects ra rb = false ->
  (m <- Slice.Merge BE a b ;; Slice.getBits BE m ra)
  = Some (ConstantInt wa va 0) /\
  (m <- Slice.Merge BE a b ;; Slice.getBits BE m rb)
  = Some (ConstantInt wb vb 0).
Proof.
  intros a b Ha Hb Hx.
  assert (Hea : Slice.empty a = false) by (destruct Ha as [_ [H _]]; exact H).
  assert (Heb : Slice.empty b = false) by (destruct Hb as [_ [H _]]; exact H).
  rewrite (Merge_nonempty BE a b Ha Hb Hea Heb Hx). cbn [Slice.R a b].
  split.
  - pose proof (getBits_union_l BE ra rb wa va 0 wb vb 0 Ha Hb Hx) as Hl.
    cbn zeta in Hl. rewrite Z.ldiff_0_r in Hl. exact Hl.
  - pose proof (getBits_union_l BE rb ra wb vb 0 wa va 0 Hb Ha) as Hr.
    cbn zeta in Hr. rewrite intersects_sym in Hr. specialize (Hr Hx).
    rewrite Z.ldiff_0_r in Hr.
    unfold Slice.empty in Hea, Heb. cbn [Slice.R a b] in Hea, Heb.
    rewrite <- Hr. rewrite (Join_comm ra rb Hea Heb).
    unfold union_of. cbn [fold_right]. rewrite !Z.lor_0_r.
    rewrite (Z.lor_comm (fst (placed BE _ a))), (Z.lor_comm (snd (placed BE _ a))).
    reflexivity.
Qed.

Lemma Merge_getBits_witness :
  (m <- Slice.Merge true (Slice.mkBitSlice (mkRange 0 2) (Some (ConstantInt 2 3 0)))
                         (Slice.mkBitSlice (mkRange 4 6) (Some (ConstantInt 2 2 0))) ;;
   Slice.getBits true m (mkRange 0 2))
  = Some (ConstantInt 2 3 0) /\
  (m <- Slice.Merge true (Slice.mkBitSlice (mkRange 0 2) (Some (ConstantInt 2 3 0)))
                         (Slice.mkBitSlice (mkRange 4 6) (Some (ConstantInt 2 2 0))) ;;
   Slice.getBits true m (mkRange 4 6))
  = Some (ConstantInt 2 2 0).
Proof.
  apply (Merge_getBits true (mkRange 0 2) (mkRange 4 6) 2 3 2 2);
    try reflexivity;
    unfold wf_slice, int_range; cbn; repeat split; lia.
Defined.


(** ** Reading integers out of constants *)

Lemma to_int_small (z : Z) : - 2 ^ 31 <= z < 2 ^ 31 -> to_int z = z.
Proof. intros H. unfold to_int. rewrite Z.mod_small by lia. lia. Qed.

Lemma to_int_to_unsigned (z : Z) :
  - 2 ^ 31 <= z < 2 ^ 31 -> to_int (to_unsigned z) = z.
Proof.
  intros H. unfold to_int, to_unsigned.
  rewrite Z.add_mod_idemp_l by lia. rewrite Z.mod_small by lia. lia.
Qed.

Lemma StoreSize_int (TD : TargetData) (w : Z) :
  getTypeStoreSizeInBits TD (IntegerTy w) = 8 * ((w + 7) / 8).
Proof. reflexivity. Qed.

Lemma StoreSize_bounds (w : Z) : w <= 8 * ((w + 7) / 8) < w + 8.
Proof.
  pose proof (Z.div_mod (w + 7) 8 ltac:(lia)).
  pose proof (Z.mod_pos_bound (w + 7) 8 ltac:(lia)). lia.
Qed.

Lemma ViewAsBits_outside (TD : TargetData) (BE : bool) (C : Constant)
    (R : SignedRange) :
  Range.empty (Range.Meet R (mkRange 0 (getTypeStoreSizeInBits TD (getType C)))) = true ->
  ViewAsBits TD BE C R = Some Slice.nil.
Proof.
  intros H. destruct C; cbn [ViewAsBits];
    (destruct (Range.empty R); [reflexivity | ]); rewrite H; reflexivity.
Qed.

Lemma Meet_nonempty (a b : SignedRange) :
  Range.empty (Range.Meet a b) = false ->
  Range.empty a = false /\ Range.empty b = false.
Proof.
  unfold Range.Meet. destruct (Range.empty a), (Range.empty b); cbn [orb];
    intros H; try (split; reflexivity); discriminate H.
Qed.

Lemma ViewAsBits_int (TD : TargetData) (BE : bool) (W v u : Z) (R : SignedRange) :
  0 < W < 2 ^ 31 - 8 ->
  Range.empty (Range.Meet R (mkRange 0 (getTypeStoreSizeInBits TD (IntegerTy W)))) = false ->
  ViewAsBits TD BE (ConstantInt W v u) R
  = Some (Slice.mkBitSlice
            (if BE then mkRange (getTypeStoreSizeInBits TD (IntegerTy W) - W)
                                (getTypeStoreSizeInBits TD (IntegerTy W))
             else mkRange 0 W)
            (Some (ConstantInt W v u))).
Proof.
  intros HW Hm. destruct (Meet_nonempty _ _ Hm) as [HR _].
  cbn [ViewAsBits getType]. rewrite HR, Hm.
  rewrite StoreSize_int in *. pose proof (StoreSize_bounds W) as HS.
  set (SW := 8 * ((W + 7) / 8)) in *.
  assert (H0 : (0 <? SW) = true) by (apply Z.ltb_lt; lia).
  rewrite H0. cbn [assert getPrimitiveSizeInBits].
  unfold IntegerType_get. rewrite !(to_unsigned_small W) by lia.
  cbn [CreateBitCast]. rewrite Z.eqb_refl.
  rewrite to_int_to_unsigned, to_int_small by lia.
  destruct BE; apply make_Some; apply contentsValid_int;
    unfold Range.getWidth, Range.empty, int_range; cbn [First Last];
    try (apply Z.leb_gt; lia); try lia.
  - assert (Hn : (SW <=? SW - W) = false) by (apply Z.leb_gt; lia).
    rewrite Hn. lia.
  - assert (Hn : (W <=? 0) = false) by (apply Z.leb_gt; lia).
    rewrite Hn. lia.
Qed.

Lemma InterpretAsType_int_bits (TD : TargetData) (BE : bool) (W v u w s : Z) :
  let SW := getTypeStoreSizeInBits TD (IntegerTy W) in
  let sw := getTypeStoreSizeInBits TD (IntegerTy w) in
  let delta := if BE then (SW - s) - sw else s in
  0 < w -> w <> W -> W < 2 ^ 30 -> 0 <= s ->
  0 <= v < 2 ^ W -> 0 <= u < 2 ^ W ->
  (if BE then SW - W <= s + (sw - w) /\ s + sw <= SW else s + w <= W) ->
  InterpretAsType TD BE (IntegerTy w) (ConstantInt W v u) s
  = Some (ConstantInt w (Z.shiftr v delta mod 2 ^ w) (Z.shiftr u delta mod 2 ^ w)).
Proof.
  intros SW sw delta Hw Hne HW Hs Hv Hu Hin.
  subst SW sw delta. rewrite !StoreSize_int in *.
  pose proof (StoreSize_bounds W) as HSW. pose proof (StoreSize_bounds w) as Hsw.
  set (SW := 8 * ((W + 7) / 8)) in *. set (sw := 8 * ((w + 7) / 8)) in *.
  assert (HWpos : 0 < W) by (destruct BE; lia).
  assert (Hws : s + sw <= SW + 8) by (destruct BE; lia).
  cbn [InterpretAsType getType Ty_eqb].
  assert (Hneb : (W =? w) = false) by (apply Z.eqb_neq; lia).
  rewrite Hneb. unfold InterpretAsIntegerTy.
  rewrite StoreSize_int. fold sw. cbn [getPrimitiveSizeInBits].
  rewrite !(to_unsigned_small w), !(to_unsigned_small sw) by lia.
  rewrite (to_int_to_unsigned (s + sw)) by lia.
  rewrite ViewAsBits_int.
  2: lia.
  2: { rewrite StoreSize_int. fold SW. unfold Range.Meet, Range.empty; cbn [First Last].
       assert (H1 : (s + sw <=? s) = false) by (apply Z.leb_gt; lia).
       assert (H2 : (SW <=? 0) = false) by (apply Z.leb_gt; lia).
       rewrite H1, H2. cbn [orb First Last]. apply Z.leb_gt. destruct BE; lia. }
  rewrite StoreSize_int. fold SW.
  rewrite Displace_Some.
  2: { destruct BE; apply contentsValid_int;
         unfold Range.getWidth, Range.empty, int_range; cbn [First Last];
         try (apply Z.leb_gt; lia); try lia.
       - assert (Hn : (SW <=? SW - W) = false) by (apply Z.leb_gt; lia).
         rewrite Hn. lia.
       - assert (Hn : (W <=? 0) = false) by (apply Z.leb_gt; lia).
         rewrite Hn. lia. }
  cbn [Slice.R Slice.Contents].
  rewrite (to_int_to_unsigned (sw - w)), (to_int_small sw), (to_int_small w) by lia.
  assert (Hwf : forall r0, Range.empty r0 = false -> int_range r0 ->
                  W = Range.getWidth r0 ->
                  wf_slice (Slice.mkBitSlice r0 (Some (ConstantInt W v u)))).
  { intros r0 H1 H2 H3. split; [exact H2 | ]. cbn [Slice.Contents Slice.R].
    repeat split; try assumption; lia. }
  destruct BE.
  - rewrite getBits_contained.
    + unfold offset_in, Range.Displace, Range.getWidth, Range.empty; cbn [First Last].
      assert (Hn : (sw <=? sw - w) = false) by (apply Z.leb_gt; lia).
      rewrite Hn.
      replace (SW + - s - sw) with (SW - s - sw) by lia.
      replace (sw - (sw - w)) with w by lia. reflexivity.
    + apply Hwf; unfold Range.Displace, Range.getWidth, Range.empty, int_range;
        cbn [First Last]; try (apply Z.leb_gt; lia); try lia.
      assert (Hn : (SW + - s <=? SW - W + - s) = false) by (apply Z.leb_gt; lia).
      rewrite Hn. lia.
    + unfold Range.contains, Range.Displace, Range.empty; cbn [First Last].
      assert (H1 : (sw <=? sw - w) = false) by (apply Z.leb_gt; lia).
      assert (H2 : (SW + - s <=? SW - W + - s) = false) by (apply Z.leb_gt; lia).
      assert (H3 : (SW - W + - s <=? sw - w) = true) by (apply Z.leb_le; lia).
      assert (H4 : (sw <=? SW + - s) = true) by (apply Z.leb_le; lia).
      rewrite H1, H2, H3, H4. reflexivity.
    + unfold Range.empty; cbn [First Last]. apply Z.leb_gt; lia.
    + unfold int_range; cbn [First Last]. lia.
  - rewrite getBits_contained.
    + unfold offset_in, Range.Displace, Range.getWidth, Range.empty; cbn [First Last].
      assert (Hn : (w <=? 0) = false) by (apply Z.leb_gt; lia).
      rewrite Hn.
      replace (0 - (0 + - s)) with s by lia.
      replace (w - 0) with w by lia. reflexivity.
    + apply Hwf; unfold Range.Displace, Range.getWidth, Range.empty, int_range;
        cbn [First Last]; try (apply Z.leb_gt; lia); try lia.
      assert (Hn : (W + - s <=? 0 + - s) = false) by (apply Z.leb_gt; lia).
      rewrite Hn. lia.
    + unfold Range.contains, Range.Displace, Range.empty; cbn [First Last].
      assert (H1 : (w <=? 0) = false) by (apply Z.leb_gt; lia).
      assert (H2 : (W + - s <=? 0 + - s) = false) by (apply Z.leb_gt; lia).
      assert (H3 : (0 + - s <=? 0) = true) by (apply Z.leb_le; lia).
      assert (H4 : (w <=? W + - s) = true) by (apply Z.leb_le; lia).
      rewrite H1, H2, H3, H4. reflexivity.
    + unfold Range.empty; cbn [First Last]. apply Z.leb_gt; lia.
    + unfold int_range; cbn [First Last]. lia.
Qed.

(** X9. Reading an integer type of [w] bits out of a fully defined integer
    constant of another width at bit [s], when the bits read lie within the
    constant: the result is the fully defined integer of the value shifted
    down and cut to [w] bits.  On a little-endian target the shift is [s];
    on a big-endian one the bits are counted from the end of the stored
    bytes, so for whole bytes the shift is [W - s - w]. *)
Theorem InterpretAsType_integer_bits (TD : TargetData) (W v w s : Z) :
  0 < w -> w <> W -> W < 2 ^ 30 -> 0 <= s -> s + w <= W ->
  0 <= v < 2 ^ W ->
  InterpretAsType TD false (IntegerTy w) (ConstantInt W v 0) s
  = Some (ConstantInt w (Z.shiftr v s mod 2 ^ w) 0) /\
  (W mod 8 = 0 -> w mod 8 = 0 ->
   InterpretAsType TD true (IntegerTy w) (ConstantInt W v 0) s
   = Some (ConstantInt w (Z.shiftr v (W - s - w) mod 2 ^ w) 0)).
Proof.
  intros Hw Hne HW Hs Hin Hv.
  assert (Hu : 0 <= 0 < 2 ^ W) by (split; [lia | apply Z.pow_pos_nonneg; lia]).
  assert (H0 : forall d, Z.shiftr 0 d mod 2 ^ w = 0)
    by (intros d; rewrite Z.shiftr_0_l; apply Zmod_0_l).
  split.
  - rewrite <- (H0 s) at 2.
    exact (InterpretAsType_int_bits TD false W v 0 w s Hw Hne HW Hs Hv Hu Hin).
  - intros HW8 Hw8.
    assert (HSW : getTypeStoreSizeInBits TD (IntegerTy W) = W).
    { rewrite StoreSize_int. pose proof (Z.div_mod W 8 ltac:(lia)) as Hd.
      rewrite HW8, Z.add_0_r in Hd. rewrite Hd at 1.
      rewrite (Z.mul_comm 8 (W / 8)), Z.div_add_l by lia.
      change (7 / 8) with 0. lia. }
    assert (Hsw : getTypeStoreSizeInBits TD (IntegerTy w) = w).
    { rewrite StoreSize_int. pose proof (Z.div_mod w 8 ltac:(lia)) as Hd.
      rewrite Hw8, Z.add_0_r in Hd. rewrite Hd at 1.
      rewrite (Z.mul_comm 8 (w / 8)), Z.div_add_l by lia.
      change (7 / 8) with 0. lia. }
    pose proof (InterpretAsType_int_bits TD true W v 0 w s Hw Hne HW Hs Hv Hu) as H.
    cbv zeta in H. rewrite HSW, Hsw in H. rewrite H0 in H. apply H. lia.
Qed.

Lemma InterpretAsType_integer_bits_witness :
  InterpretAsType Examples.x86_64 false (IntegerTy 16) (ConstantInt 32 0x01020304 0) 16
  = Some (ConstantInt 16 (Z.shiftr 0x01020304 16 mod 2 ^ 16) 0) /\
  (32 mod 8 = 0 -> 16 mod 8 = 0 ->
   InterpretAsType Examples.x86_64 true (IntegerTy 16) (ConstantInt 32 0x01020304 0) 16
   = Some (ConstantInt 16 (Z.shiftr 0x01020304 (32 - 16 - 16) mod 2 ^ 16) 0)).
Proof.
  apply (InterpretAsType_integer_bits Examples.x86_64 32 0x01020304 16 16);
    try lia; cbn; lia.
Defined.

(** X10. Reading an integer type at a place where the constant stores no
    bit, at or after the end of its stored bits or wholly before its first
    bit, gives the integer all of whose bits are undefined. *)
Theorem InterpretAsType_beyond (TD : TargetData) (BE : bool) (C : Constant)
    (w s : Z) :
  0 < w < 2 ^ 30 -> - 2 ^ 30 <= s < 2 ^ 30 ->
  Ty_eqb (getType C) (IntegerTy w) = false ->
  getTypeStoreSizeInBits TD (getType C) <= s \/
  s + getTypeStoreSizeInBits TD (IntegerTy w) <= 0 ->
  InterpretAsType TD BE (IntegerTy w) C s = Some (UndefValue (IntegerTy w)).
Proof.
  intros Hw Hs Hne Hout.
  rewrite StoreSize_int in Hout. pose proof (StoreSize_bounds w) as Hsw.
  cbn [InterpretAsType]. rewrite Hne. unfold InterpretAsIntegerTy.
  rewrite StoreSize_int. set (sw := 8 * ((w + 7) / 8)) in *.
  cbn [getPrimitiveSizeInBits].
  rewrite !(to_unsigned_small w), !(to_unsigned_small sw) by lia.
  rewrite (to_int_to_unsigned (s + sw)) by lia.
  rewrite ViewAsBits_outside.
  2: { unfold Range.Meet, Range.empty; cbn [First Last].
       destruct (Z.leb_spec (s + sw) s); [lia | ].
       destruct (Z.leb_spec (getTypeStoreSizeInBits TD (getType C)) 0);
         cbn [orb First Last]; apply Z.leb_le; lia. }
  unfold Slice.Displace, Slice.nil. cbn [Slice.R Slice.Contents].
  rewrite make_Some.
  2: { unfold Slice.contentsValid, Slice.empty, Range.empty, Range.Displace.
       cbn [Slice.R Slice.Contents First Last]. rewrite Z.leb_refl. reflexivity. }
  rewrite (to_int_to_unsigned (sw - w)), (to_int_small sw), (to_int_small w) by lia.
  assert (Hundef : forall r, Range.empty r = false -> Range.getWidth r = w ->
            Slice.getBits BE
              (Slice.mkBitSlice (Range.Displace (mkRange 0 0) (- s)) None) r
            = Some (UndefValue (IntegerTy w))).
  { intros r He Hwr. unfold Slice.getBits. rewrite He. cbn [negb assert Slice.R].
    assert (Heq : Range.eqb (Range.Displace (mkRange 0 0) (- s)) r = false).
    { unfold Range.eqb, Range.Displace. rewrite He. rewrite Bool.andb_false_r.
      cbn [orb First Last]. unfold Range.empty in He. apply Z.leb_gt in He.
      destruct (Z.eqb_spec (0 + - s) (First r)); [ | reflexivity].
      destruct (Z.eqb_spec (0 + - s) (Last r)); [lia | reflexivity]. }
    rewrite Heq. unfold Slice.empty, Range.empty, Range.Displace.
    cbn [Slice.R First Last]. rewrite Z.leb_refl.
    unfold IntegerType_get. rewrite Hwr, to_unsigned_small by lia. reflexivity. }
  destruct BE; apply Hundef; unfold Range.getWidth, Range.empty; cbn [First Last].
  - apply Z.leb_gt; lia.
  - destruct (Z.leb_spec sw (sw - w)); lia.
  - apply Z.leb_gt; lia.
  - destruct (Z.leb_spec w 0); lia.
Qed.

Lemma InterpretAsType_beyond_witness :
  InterpretAsType Examples.x86_64 false (IntegerTy 8)
    (ConstantArray (IntegerTy 8) [ConstantInt 8 97 0; ConstantInt 8 98 0]) 16
  = Some (UndefValue (IntegerTy 8)).
Proof.
  apply (InterpretAsType_beyond Examples.x86_64 false
           (ConstantArray (IntegerTy 8) [ConstantInt 8 97 0; ConstantInt 8 98 0]) 8 16);
    try lia; try reflexivity.
  left. cbn. lia.
Defined.


(** ** The type of what InterpretAsType returns *)

Lemma FPKind_eqb_eq (a b : FPKind) : FPKind_eqb a b = true -> a = b.
Proof. destruct a, b; simpl; intros H; try discriminate H; reflexivity. Qed.

Lemma Ty_eqb_eq : forall a b : Ty, Ty_eqb a b = true -> a = b.
Proof.
  fix IH 1.
  intros [ | | | w | k | p | e n | p es | e n] [ | | | w' | k' | p' | e' n' | p' es' | e' n'];
    simpl; intros H; try discriminate H; try reflexivity.
  - apply Z.eqb_eq in H. congruence.
  - apply FPKind_eqb_eq in H. congruence.
  - apply IH in H. congruence.
  - apply Bool.andb_true_iff in H. destruct H as [H1 H2].
    apply IH in H1. apply Z.eqb_eq in H2. congruence.
  - apply Bool.andb_true_iff in H. destruct H as [H1 H2].
    apply Bool.eqb_prop in H1. subst p'. f_equal.
    revert es' H2. induction es as [ | x xs IHxs]; intros [ | y ys] H2;
      try discriminate H2; try reflexivity.
    apply Bool.andb_true_iff in H2. destruct H2 as [Hx Hxs].
    apply IH in Hx. apply IHxs in Hxs. congruence.
  - apply Bool.andb_true_iff in H. destruct H as [H1 H2].
    apply IH in H1. apply Z.eqb_eq in H2. congruence.
Qed.

Ltac bind_inv H :=
  repeat match type of H with
         | match ?c with Some _ => _ | None => None end = Some _ =>
             let E := fresh "E" in destruct c eqn:E; [ | discriminate H]
         end.

Lemma make_inv (r : SignedRange) (c : option Constant) (t : BitSlice) :
  Slice.make r c = Some t ->
  t = Slice.mkBitSlice r c /\ Slice.contentsValid t = true.
Proof.
  unfold Slice.make. destruct (Slice.contentsValid (Slice.mkBitSlice r c)) eqn:Hv;
    cbn [assert]; intros H; [ | discriminate H].
  injection H as <-. split; [reflexivity | exact Hv].
Qed.

Lemma ExtendRange_valid (BE : bool) (s e : BitSlice) (r : SignedRange) :
  Slice.contentsValid s = true -> Slice.ExtendRange BE s r = Some e ->
  Slice.contentsValid e = true.
Proof.
  intros Hv H. unfold Slice.ExtendRange in H.
  destruct (assert (Range.contains r (Slice.R s))); [ | discriminate H].
  destruct (Range.eqb (Slice.R s) r); [injection H as <-; exact Hv | ].
  destruct (assert (negb (Range.empty r))); [ | discriminate H].
  destruct (Slice.empty s); [apply make_inv in H; tauto | ].
  bind_inv H. apply make_inv in H; tauto.
Qed.

Lemma ReduceRange_valid (BE : bool) (s t : BitSlice) (r : SignedRange) :
  Slice.contentsValid s = true -> Slice.ReduceRange BE s r = Some t ->
  Range.empty r = false ->
  Slice.contentsValid t = true /\ Range.eqb (Slice.R t) r = true.
Proof.
  intros Hv H He. unfold Slice.ReduceRange in H.
  destruct (assert (Range.contains (Slice.R s) r)); [ | discriminate H].
  destruct (Range.eqb (Slice.R s) r) eqn:Heq;
    [injection H as <-; split; assumption | ].
  rewrite He in H.
  destruct (assert (negb (Range.empty (Slice.R s)))); [ | discriminate H].
  bind_inv H. apply make_inv in H. destruct H as [-> Hv'].
  split; [exact Hv' | apply Range_eqb_refl].
Qed.

Lemma valid_contents_type (t : BitSlice) (r : SignedRange) (c : Constant) :
  Slice.contentsValid t = true -> Range.eqb (Slice.R t) r = true ->
  Range.empty r = false -> Slice.Contents t = Some c ->
  getType c = IntegerTy (to_unsigned (Range.getWidth r)).
Proof.
  intros Hv Heq He Hc.
  rewrite Range_eqb_sym in Heq. apply Range_eqb_nonempty in Heq; [ | exact He].
  subst r. unfold Slice.contentsValid, Slice.empty, Slice.getBitWidth in Hv.
  rewrite He, Hc in Hv.
  destruct (getType c); try discriminate Hv.
  apply Z.eqb_eq in Hv. congruence.
Qed.

Lemma getBits_type (BE : bool) (s : BitSlice) (r : SignedRange) (c : Constant) :
  Slice.contentsValid s = true -> Slice.getBits BE s r = Some c ->
  Range.empty r = false /\
  getType c = IntegerTy (to_unsigned (Range.getWidth r)).
Proof.
  intros Hv H. unfold Slice.getBits in H.
  destruct (Range.empty r) eqn:He; [discriminate H | ]. cbn [negb assert] in H.
  split; [reflexivity | ].
  destruct (Range.eqb (Slice.R s) r) eqn:Heq.
  - exact (valid_contents_type s r c Hv Heq He H).
  - destruct (Slice.empty s).
    + injection H as <-. reflexivity.
    + destruct (Slice.ExtendRange BE s (Range.Join (Slice.R s) r)) as [e | ] eqn:Ee;
        [ | discriminate H].
      destruct (Slice.ReduceRange BE e r) as [t | ] eqn:Et; [ | discriminate H].
      pose proof (ExtendRange_valid BE s e _ Hv Ee) as Hve.
      destruct (ReduceRange_valid BE e t r Hve Et He) as [Hvt Hrt].
      exact (valid_contents_type t r c Hvt Hrt He H).
Qed.

Lemma InterpretAsIntegerTy_type (TD : TargetData) (BE : bool) (C c : Constant)
    (w s : Z) :
  0 < w < 2 ^ 30 ->
  InterpretAsIntegerTy TD BE C (IntegerTy w) s = Some c ->
  getType c = IntegerTy w.
Proof.
  intros Hw H. unfold InterpretAsIntegerTy in H.
  rewrite StoreSize_int in H. pose proof (StoreSize_bounds w) as Hsw.
  set (sw := 8 * ((w + 7) / 8)) in *.
  cbn [getPrimitiveSizeInBits] in H.
  rewrite !(to_unsigned_small w), !(to_unsigned_small sw) in H by lia.
  rewrite (to_int_to_unsigned (sw - w)), (to_int_small sw), (to_int_small w) in H by lia.
  destruct (ViewAsBits TD BE C _) as [Bits | ]; [ | discriminate H].
  destruct (Slice.Displace Bits (- s)) as [Bits' | ] eqn:Ed; [ | discriminate H].
  apply make_inv in Ed. destruct Ed as [_ Hv].
  destruct BE; apply (getBits_type _ _ _ _ Hv) in H; destruct H as [He Ht];
    rewrite Ht; unfold Range.getWidth; rewrite He; cbn [First Last];
    f_equal; rewrite to_unsigned_small; lia.
Qed.

Lemma InterpretAsInteger_type (TD : TargetData) (BE : bool) (C c : Constant)
    (w s : Z) :
  0 < w < 2 ^ 30 ->
  InterpretAsInteger TD BE C (IntegerTy w) s = Some c ->
  getType c = IntegerTy w.
Proof.
  intros Hw H. unfold InterpretAsInteger in H.
  destruct (Ty_eqb (getType C) (IntegerTy w)) eqn:Heq.
  - injection H as <-. apply Ty_eqb_eq. exact Heq.
  - exact (InterpretAsIntegerTy_type TD BE C c w s Hw H).
Qed.

Lemma collect_length {A} (l : list (option A)) (r : list A) :
  collect l = Some r -> length r = length l.
Proof.
  revert r. induction l as [ | x xs IH]; intros r H; simpl in H.
  - injection H as <-. reflexivity.
  - destruct x; [ | discriminate H].
    destruct (collect xs) as [r' | ]; [ | discriminate H].
    injection H as <-. simpl. f_equal. apply IH. reflexivity.
Qed.

Lemma upto_length (lo hi : Z) : length (upto lo hi) = Z.to_nat (hi - lo).
Proof. unfold upto. rewrite length_map, length_seq. reflexivity. Qed.


Lemma sequence_length (TD : TargetData) (BE : bool) (f : Z -> option Constant)
    (n : Z) (Vals : list Constant) :
  0 <= n < 2 ^ 32 ->
  collect (map f (upto 0 (to_unsigned n))) = Some Vals ->
  Z.of_nat (length Vals) = n.
Proof.
  intros Hn H. apply collect_length in H.
  rewrite H, length_map, upto_length, to_unsigned_small by lia.
  rewrite Z.sub_0_r, Z2Nat.id by lia. reflexivity.
Qed.

Lemma InterpretAsType_has_type (TD : TargetData) (BE : bool) (T : Ty)
    (C c : Constant) (StartingBit : Z) :
  representable T ->
  InterpretAsType TD BE T C StartingBit = Some c ->
  getType c = T.
Proof.
  intros HT H.
  destruct T as [ | | | w | k | p | e n | p es | e n]; cbn [InterpretAsType] in H;
    (destruct (Ty_eqb (getType C) _) eqn:Heq;
     [injection H as <-; apply Ty_eqb_eq; exact Heq | ]);
    try discriminate H; cbn [representable] in HT.
  - apply (InterpretAsIntegerTy_type TD BE C c w StartingBit); [ | exact H].
    assert (2 ^ 23 < 2 ^ 30) by (apply Z.pow_lt_mono_r; lia). lia.
  - bind_inv H. destruct c0; try discriminate H.
    + cbn [CreateBitCast] in H. destruct (_ =? _); [ | discriminate H].
      injection H as <-. reflexivity.
    + cbn [CreateBitCast] in H. destruct (FPKind_eqb k0 k) eqn:Hk; [ | discriminate H].
      injection H as <-. apply FPKind_eqb_eq in Hk. subst. reflexivity.
  - bind_inv H. destruct c0; try discriminate H.
    cbn [CreateIntToPtr] in H. injection H as <-. reflexivity.
  - bind_inv H. injection H as <-. cbn [getType].
    f_equal. exact (sequence_length TD BE _ n l HT E).
  - bind_inv H. injection H as <-. apply assert_Some in E0.
    apply Ty_eqb_eq in E0. exact E0.
  - bind_inv H. injection H as <-. cbn [getType].
    f_equal. exact (sequence_length TD BE _ n l HT E).
Qed.

(** X11. Whatever [InterpretAsType] returns has the type it was asked for
    (for an integer width LLVM allows and an array or vector length that
    fits [unsigned]), so interpreting the result as that type again, at any
    bit, returns it unchanged. *)
Theorem InterpretAsType_type (TD : TargetData) (BE : bool) (T : Ty)
    (C c : Constant) (StartingBit : Z) :
  representable T ->
  InterpretAsType TD BE T C StartingBit = Some c ->
  getType c = T /\
  forall bit, InterpretAsType TD BE T c bit = Some c.
Proof.
  intros HT H.
  pose proof (InterpretAsType_has_type TD BE T C c StartingBit HT H) as Ht.
  split; [exact Ht | ]. intros bit.
  apply InterpretAsType_fast_path. rewrite Ht. apply Ty_eqb_refl.
Qed.

Lemma InterpretAsType_type_witness :
  let c := ConstantArray (IntegerTy 8) [ConstantInt 8 4 0; ConstantInt 8 3 0] in
  getType c = ArrayTy (IntegerTy 8) 2 /\
  forall bit, InterpretAsType Examples.x86_64 false (ArrayTy (IntegerTy 8) 2) c bit = Some c.
Proof.
  apply (InterpretAsType_type Examples.x86_64 false (ArrayTy (IntegerTy 8) 2)
           (ConstantInt 32 0x01020304 0) _ 0).
  - cbn. lia.
  - reflexivity.
Defined.


(** ** Field contents *)

Lemma extractContents_direct (TD : TargetData) (BE : bool) (F : FieldContents)
    (c : Constant) :
  Field.isSafeToReturnContentsDirectly TD F = true -> Field.C F = Some c ->
  Field.extractContents TD BE F = Some (c, F).
Proof.
  intros Hs Hc. unfold Field.extractContents. rewrite Hs, Hc. reflexivity.
Qed.

(** X12. [extractContents] leaves the field in a state in which its
    contents can be returned directly: the field keeps its range and holds
    the constant returned, which is no bigger than the range, and extracting
    again returns the same constant and changes nothing. *)
Theorem extractContents_cached (TD : TargetData) (BE : bool)
    (F F' : FieldContents) (c : Constant) :
  Field.extractContents TD BE F = Some (c, F') ->
  Field.R F' = Field.R F /\ Field.C F' = Some c /\
  Field.isSafeToReturnContentsDirectly TD F' = true /\
  to_unsigned (getTypeAllocSizeInBits TD (getType c))
    <= to_unsigned (Range.getWidth (Field.R F')) /\
  Field.extractContents TD BE F' = Some (c, F').
Proof.
  intros H.
  assert (Hmain : Field.R F' = Field.R F /\ Field.C F' = Some c /\
                  Field.isSafeToReturnContentsDirectly TD F' = true).
  { unfold Field.extractContents in H.
    destruct (Field.isSafeToReturnContentsDirectly TD F) eqn:Hs.
    - destruct (Field.C F) as [c0 | ] eqn:Hc; [ | discriminate H].
      injection H as <- <-. repeat split; assumption.
    - destruct (Range.empty (Field.R F)) eqn:He.
      + destruct (assert _) eqn:Ha in H; [ | discriminate H].
        apply assert_Some in Ha. injection H as <- <-.
        repeat split. exact Ha.
      + destruct (assert _) eqn:Ha in H; [ | discriminate H].
        destruct (Field.getAsBits TD BE F) as [[bits | ] | ]; try discriminate H.
        cbn beta iota in H.
        destruct (Field.isSafeToReturnContentsDirectly TD _) eqn:Hs2 in H.
        * injection H as <- <-. repeat split. exact Hs2.
        * destruct (InterpretAsType TD BE _ bits 0) as [c2 | ]; [ | discriminate H].
          destruct (assert _) eqn:Ha2 in H; [ | discriminate H].
          apply assert_Some in Ha2. injection H as <- <-.
          repeat split. exact Ha2. }
  destruct Hmain as (HR & HC & Hsafe).
  repeat split; try assumption.
  - exact (isSafeToReturnContentsDirectly_size TD F' c Hsafe HC).
  - exact (extractContents_direct TD BE F' c Hsafe HC).
Qed.

Lemma extractContents_cached_witness :
  let F := Field.mkFieldContents (mkRange 0 16)
             (Some (ConstantArray (IntegerTy 8) [ConstantInt 8 4 0; ConstantInt 8 3 0;
                                                 ConstantInt 8 2 0; ConstantInt 8 1 0])) 0 in
  let c := ConstantInt 16 772 0 in
  let F' := Field.mkFieldContents (mkRange 0 16) (Some c) 0 in
  Field.R F' = Field.R F /\ Field.C F' = Some c /\
  Field.isSafeToReturnContentsDirectly Examples.x86_64 F' = true /\
  to_unsigned (getTypeAllocSizeInBits Examples.x86_64 (getType c))
    <= to_unsigned (Range.getWidth (Field.R F')) /\
  Field.extractContents Examples.x86_64 false F' = Some (c, F').
Proof.
  intros F c F'.
  apply (extractContents_cached Examples.x86_64 false F F' c).
  vm_compute. reflexivity.
Defined.

(** ** Joining two fields *)

Lemma Merge_valid (BE : bool) (a b t : BitSlice) :
  Slice.contentsValid a = true -> Slice.contentsValid b = true ->
  Slice.Merge BE a b = Some t ->
  Slice.contentsValid t = true /\
  Range.eqb (Slice.R t) (Range.Join (Slice.R a) (Slice.R b)) = true.
Proof.
  intros Ha Hb H. unfold Slice.Merge in H. unfold Slice.empty in H.
  destruct (Range.empty (Slice.R b)) eqn:Heb.
  - injection H as <-. split; [exact Ha | ].
    destruct (Range.empty (Slice.R a)) eqn:Hea.
    + rewrite Join_empty_l by assumption. apply wf_slice_empty_eqb; assumption.
    + rewrite Join_empty_r by assumption. apply Range_eqb_refl.
  - destruct (Range.empty (Slice.R a)) eqn:Hea.
    + injection H as <-. split; [exact Hb | ].
      rewrite Join_empty_l by assumption. apply Range_eqb_refl.
    + destruct (assert _); [ | discriminate H].
      destruct (Slice.ExtendRange BE a _); [ | discriminate H].
      destruct (Slice.ExtendRange BE b _); [ | discriminate H].
      unfold Slice.getRange in H.
      destruct BE; cbn [fst snd] in H; bind_inv H;
        apply make_inv in H; destruct H as [-> Hv];
        (split; [exact Hv | apply Range_eqb_refl]).
Qed.

(** X13. What joining two fields returns: a field over the convex hull of
    the two ranges, never empty, that starts at its first bit and holds an
    integer constant as wide as the hull. *)
Theorem JoinWith_hull (TD : TargetData) (BE : bool) (F S0 J : FieldContents) :
  Field.JoinWith TD BE F S0 = Some J ->
  Range.eqb (Field.R J) (Range.Join (Field.R F) (Field.R S0)) = true /\
  Range.empty (Field.R J) = false /\
  Field.Starts J = First (Field.R J) /\
  exists c, Field.C J = Some c /\
            getType c = IntegerTy (to_unsigned (Range.getWidth (Field.R J))).
Proof.
  intros H. unfold Field.JoinWith in H.
  destruct (Field.getAsBits TD BE F) as [a | ]; [ | discriminate H].
  destruct (Slice.make (Field.R F) a) as [Bits | ] eqn:Ea; [ | discriminate H].
  destruct (Field.getAsBits TD BE S0) as [b | ]; [ | discriminate H].
  destruct (Slice.make (Field.R S0) b) as [Other | ] eqn:Eb; [ | discriminate H].
  destruct (Slice.Merge BE Bits Other) as [M | ] eqn:Em; [ | discriminate H].
  destruct (Slice.getBits BE M (Slice.getRange M)) as [c | ] eqn:Eg; [ | discriminate H].
  injection H as <-. cbn [Field.R Field.C Field.Starts].
  apply make_inv in Ea, Eb. destruct Ea as [-> Hva]. destruct Eb as [-> Hvb].
  destruct (Merge_valid BE _ _ _ Hva Hvb Em) as [Hvm Hrm].
  cbn [Slice.R] in Hrm.
  destruct (getBits_type BE M _ c Hvm Eg) as [He Ht].
  unfold Slice.getRange in *. rewrite He.
  repeat split; try assumption; try reflexivity.
  exists c. split; [reflexivity | exact Ht].
Qed.

Lemma JoinWith_hull_witness :
  exists J,
    Field.JoinWith Examples.x86_64 false
      (Field.mkFieldContents (mkRange 0 3) (Some (ConstantInt 8 5 0)) 0)
      (Field.mkFieldContents (mkRange 3 8) (Some (ConstantInt 8 17 0)) 3) = Some J /\
    Range.eqb (Field.R J) (Range.Join (mkRange 0 3) (mkRange 3 8)) = true /\
    Range.empty (Field.R J) = false /\
    Field.Starts J = First (Field.R J) /\
    exists c, Field.C J = Some c /\
              getType c = IntegerTy (to_unsigned (Range.getWidth (Field.R J))).
Proof.
  eexists. split; [vm_compute; reflexivity | ].
  apply (JoinWith_hull Examples.x86_64 false
           (Field.mkFieldContents (mkRange 0 3) (Some (ConstantInt 8 5 0)) 0)
           (Field.mkFieldContents (mkRange 3 8) (Some (ConstantInt 8 17 0)) 3)).
  vm_compute. reflexivity.
Defined.


(** ** Conversions that keep the constant *)

(** X14. A [VIEW_CONVERT_EXPR] returns the constant of its operand, and so
    does a [NOP_EXPR] or [CONVERT_EXPR] to the same type node, between
    aggregate types, or between types with the same LLVM type. *)
Theorem ConvertInitializer_same_constant (E : Environment) (type : gcc_type)
    (op : tree) (c : Constant) :
  (ConvertInitializer E (VIEW_CONVERT_EXPR type op) = Some c ->
   ConvertInitializer E op = Some c) /\
  (same_type type (TREE_TYPE_of op) || AGGREGATE_TYPE_P (TREE_TYPE_of op)
   || AGGREGATE_TYPE_P type
   || Ty_eqb (ConvertType (TREE_TYPE_of op)) (ConvertType type) = true ->
   (ConvertInitializer E (NOP_EXPR type op) = Some c ->
    ConvertInitializer E op = Some c) /\
   (ConvertInitializer E (CONVERT_EXPR type op) = Some c ->
    ConvertInitializer E op = Some c)).
Proof.
  split.
  - cbn [ConvertInitializer TREE_TYPE_of]. intros H.
    destruct (ConvertInitializer E op) as [Init | ]; [ | discriminate H].
    apply check_guarantees_Some in H. destruct H as [-> _]. reflexivity.
  - intros Hsame.
    assert (Hcast : forall C, ConvertInitializerWithCast E (Some C) (TREE_TYPE_of op) type
                              = Some C).
    { intros C. unfold ConvertInitializerWithCast.
      destruct (same_type type (TREE_TYPE_of op) || AGGREGATE_TYPE_P (TREE_TYPE_of op)
                || AGGREGATE_TYPE_P type); [reflexivity | ].
      cbn [orb] in Hsame. rewrite Hsame. reflexivity. }
    split; cbn [ConvertInitializer TREE_TYPE_of]; intros H;
      (destruct (ConvertInitializer E op) as [Init | ];
       [ | cbn [ConvertInitializerWithCast] in H; discriminate H]);
      rewrite Hcast in H;
      apply check_guarantees_Some in H; destruct H as [-> _]; reflexivity.
Qed.

Lemma ConvertInitializer_same_constant_witness :
  let E := Examples.bare Examples.x86_64 false true in
  let c := ConstantStruct false [ConstantInt 8 141 0] in
  ConvertInitializer E (NOP_EXPR Examples.bitfields Examples.bitfields_init) = Some c /\
  ConvertInitializer E Examples.bitfields_init = Some c.
Proof.
  intros E c.
  assert (H : ConvertInitializer E (NOP_EXPR Examples.bitfields Examples.bitfields_init)
              = Some c) by (vm_compute; reflexivity).
  split; [exact H | ].
  apply (ConvertInitializer_same_constant E Examples.bitfields Examples.bitfields_init c).
  - reflexivity.
  - exact H.
Defined.

(** ** String constants *)

Lemma firstn_map_bytes {A B} (f : A -> B) (n : nat) (l : list A) :
  firstn n (map f l) = map f (firstn n l).
Proof.
  revert l. induction n as [ | n IH]; intros [ | x xs]; simpl; try reflexivity.
  f_equal. apply IH.
Qed.

(** X15. A string constant of an array of bytes: the bytes of the string,
    cut or padded with zeros to the length of the array type; an array type
    of length zero with no upper bound takes the length of the string. *)
Theorem ConvertSTRING_CST_bytes (E : Environment) (type elt : gcc_type)
    (str : list Z) (n : Z) :
  ConvertType type = ArrayTy (IntegerTy 8) n ->
  TREE_TYPE type = Some elt -> TYPE_SIZE_UNIT elt = Some 1 ->
  0 <= n < 2 ^ 32 -> Z.of_nat (length str) < 2 ^ 32 ->
  let len := Z.of_nat (length str) in
  let variable :=
    (n =? 0) && match TYPE_DOMAIN type with Some (_, Some _) => false | _ => true end in
  let size := if variable then len else n in
  ConvertSTRING_CST E type str
  = Some (ConstantArray (IntegerTy 8)
            (map (fun b => ConstantInt 8 (b mod 256) 0) (firstn (Z.to_nat size) str)
             ++ repeat (ConstantInt 8 0 0) (Z.to_nat (size - len)))).
Proof.
  intros HT Helt Hsz Hn Hlen len variable size.
  unfold ConvertSTRING_CST. rewrite HT, Helt, Hsz.
  change (1 mod 2 ^ 64) with 1. rewrite Z.div_1_r.
  rewrite (to_unsigned_small n) by lia.
  rewrite !(to_unsigned_small (Z.of_nat (length str))) by lia.
  fold len.
  assert (Hvar : (n =? 0) && match TYPE_DOMAIN type with
                             | Some (_, Some _) => false
                             | Some (_, None) => true
                             | None => true
                             end = variable).
  { subst variable. destruct (TYPE_DOMAIN type) as [[? [? | ]] | ]; reflexivity. }
  destruct (Z.eqb_spec len n) as [Heq | Hneq]; cbn [negb].
  - assert (Hsize : size = len).
    { subst size. destruct variable; [reflexivity | symmetry; exact Heq]. }
    rewrite Hsize, Z.sub_diag. cbn [Z.to_nat repeat]. rewrite app_nil_r.
    subst len. rewrite Nat2Z.id, firstn_all. reflexivity.
  - rewrite Hvar. fold size.
    destruct (Z.ltb_spec size len) as [Hlt | Hge].
    + rewrite firstn_map_bytes.
      replace (Z.to_nat (size - len)) with 0%nat by lia.
      cbn [repeat]. rewrite app_nil_r. reflexivity.
    + rewrite firstn_all2 by (subst len; lia). reflexivity.
Qed.

Lemma ConvertSTRING_CST_bytes_witness :
  ConvertSTRING_CST (Examples.bare Examples.x86_64 false true)
    (Examples.char_array 30 (Some 3)) [97; 98]
  = Some (ConstantArray (IntegerTy 8)
            (map (fun b => ConstantInt 8 (b mod 256) 0) (firstn (Z.to_nat 3) [97; 98])
             ++ repeat (ConstantInt 8 0 0) (Z.to_nat (3 - 2)))).
Proof.
  apply (ConvertSTRING_CST_bytes (Examples.bare Examples.x86_64 false true)
           (Examples.char_array 30 (Some 3)) Examples.char_type [97; 98] 3);
    try reflexivity; cbn; lia.
Defined.


(** ** Wide strings and the byte order of the host *)

Lemma read_le_mod (l : list Z) :
  read_le (map (fun b => b mod 256) l) = read_le l.
Proof.
  induction l as [ | b bs IH]; [reflexivity | ].
  cbn [map read_le]. rewrite IH, Z.mod_mod by lia. reflexivity.
Qed.

Lemma bytes_of_read_le (l : list Z) :
  map (fun k => Z.shiftr (read_le l) (8 * Z.of_nat k) mod 256) (seq 0 (length l))
  = map (fun b => b mod 256) l.
Proof.
  induction l as [ | b bs IH]; [reflexivity | ].
  cbn [length seq map read_le]. f_equal.
  - cbn [Z.of_nat]. rewrite Z.mul_0_r, Z.shiftr_0_r.
    rewrite Z.mul_comm, Z.mod_add by lia. apply Z.mod_mod. lia.
  - rewrite <- seq_shift, map_map. rewrite <- IH.
    apply map_ext. intros k. f_equal.
    replace (8 * Z.of_nat (S k)) with (8 + 8 * Z.of_nat k) by lia.
    rewrite <- Z.shiftr_shiftr by lia. f_equal.
    rewrite Z.shiftr_div_pow2 by lia. change (2 ^ 8) with 256.
    rewrite Z.mul_comm, Z.div_add by lia.
    rewrite Z.div_small by (apply Z.mod_pos_bound; lia). reflexivity.
Qed.

Lemma ByteSwap_read_le (l : list Z) :
  ByteSwap (length l) (read_le l) = read_le (rev l).
Proof.
  unfold ByteSwap. rewrite bytes_of_read_le, <- map_rev. apply read_le_mod.
Qed.

(** The unit read in the byte order of the target, whatever the host's. *)
Lemma swap_read_host (host target : bool) (n : nat) (u : list Z) :
  length u = n ->
  (if Bool.eqb host target then read_host host u
   else ByteSwap n (read_host host u))
  = read_host target u.
Proof.
  intros <-. unfold read_host. destruct host, target; cbn [Bool.eqb]; try reflexivity.
  - rewrite <- length_rev, ByteSwap_read_le, rev_involutive. reflexivity.
  - apply ByteSwap_read_le.
Qed.

Lemma units_length (n : nat) (str : list Z) (count : Z) (u : list Z) :
  Z.of_nat n * count <= Z.of_nat (length str) ->
  In u (units n str count) -> length u = n.
Proof.
  intros Hc Hin. unfold units in Hin. apply in_map_iff in Hin.
  destruct Hin as (k & <- & Hk). apply in_seq in Hk.
  rewrite length_firstn, length_skipn. nia.
Qed.

Lemma to_unsigned_le (z : Z) : 0 <= z -> 0 <= to_unsigned z <= z.
Proof.
  intros Hz. unfold to_unsigned. split.
  - apply Z.mod_pos_bound. lia.
  - apply Z.mod_le; lia.
Qed.

Lemma units_full (n : nat) (str : list Z) (u : list Z) :
  (0 < n)%nat ->
  In u (units n str (to_unsigned (Z.of_nat (length str)) / Z.of_nat n)) ->
  length u = n.
Proof.
  intros Hn. apply units_length.
  pose proof (to_unsigned_le (Z.of_nat (length str)) ltac:(lia)) as [H0 H1].
  pose proof (Z.mul_div_le (to_unsigned (Z.of_nat (length str))) (Z.of_nat n) ltac:(lia)).
  lia.
Qed.

(** X16. The constant of a string does not depend on the byte order of the
    machine the compiler runs on: two environments with the same target
    byte order give the same constant. *)
Theorem ConvertSTRING_CST_host (E E' : Environment) (type : gcc_type)
    (str : list Z) :
  BYTES_BIG_ENDIAN E' = BYTES_BIG_ENDIAN E ->
  ConvertSTRING_CST E' type str = ConvertSTRING_CST E type str.
Proof.
  intros HBE. unfold ConvertSTRING_CST. rewrite HBE.
  destruct (ConvertType type) as [ | | | | | | ElTy NumElements | | ]; try reflexivity.
  assert (Hunits : forall (n : nat) (w : Z), (0 < n)%nat ->
            map (fun u => ConstantInt w
                   (if Bool.eqb (isBigEndianHost E') (BYTES_BIG_ENDIAN E)
                    then read_host (isBigEndianHost E') u
                    else ByteSwap n (read_host (isBigEndianHost E') u)) 0)
                (units n str (to_unsigned (Z.of_nat (length str)) / Z.of_nat n))
            = map (fun u => ConstantInt w
                   (if Bool.eqb (isBigEndianHost E) (BYTES_BIG_ENDIAN E)
                    then read_host (isBigEndianHost E) u
                    else ByteSwap n (read_host (isBigEndianHost E) u)) 0)
                (units n str (to_unsigned (Z.of_nat (length str)) / Z.of_nat n))).
  { intros n w Hn. apply map_ext_in. intros u Hu.
    pose proof (units_full n str u Hn Hu) as Hl.
    rewrite !swap_read_host by exact Hl. reflexivity. }
  destruct ElTy as [ | | | w | | | | | ]; try reflexivity.
  destruct w as [ | p | p]; try reflexivity.
  do 6 (try (destruct p as [p | p | ]; try reflexivity)).
  - pose proof (Hunits 4%nat 32 ltac:(lia)) as H4.
    change (Z.of_nat 4) with 4 in H4. cbv zeta. rewrite H4. reflexivity.
  - pose proof (Hunits 2%nat 16 ltac:(lia)) as H2.
    change (Z.of_nat 2) with 2 in H2. cbv zeta. rewrite H2. reflexivity.
Qed.

Lemma ConvertSTRING_CST_host_witness :
  let wide :=
    mk_gcc_type 40 ARRAY_TYPE (ArrayTy (IntegerTy 16) 2) 16 (Some 32) (Some 4) false
      (Some (Examples.unsigned_type 41 16 16)) [] (Some (0, Some 1)) (Some 2) true in
  ConvertSTRING_CST
    (mkEnvironment Examples.x86_64 false true true true getNullValue
       (fun _ => None) (fun _ _ _ _ => None) (fun _ _ => None) (fun _ _ => None)
       (fun _ _ _ => None)) wide [1; 2; 3; 4]
  = ConvertSTRING_CST (Examples.bare Examples.x86_64 false true) wide [1; 2; 3; 4].
Proof.
  intros wide.
  apply (ConvertSTRING_CST_host (Examples.bare Examples.x86_64 false true)
           (mkEnvironment Examples.x86_64 false true true true getNullValue
              (fun _ => None) (fun _ _ _ _ => None) (fun _ _ => None) (fun _ _ => None)
              (fun _ _ _ => None)) wide [1; 2; 3; 4]).
  reflexivity.
Defined.


(** ** Reading an integer out of an array of bytes *)

Section Bytes.
Variable TD : TargetData.
Variable BE : bool.
Hypothesis byte_aligned : IntegerABIAlignment TD 8 = 1.

Lemma AllocSize_byte : getTypeAllocSizeInBits TD (IntegerTy 8) = 8.
Proof.
  unfold getTypeAllocSizeInBits, AllocBitsOf. cbn [SizeAndAlignment fst snd].
  rewrite byte_aligned. reflexivity.
Qed.

Lemma StoreSize_byte_array (n : Z) :
  getTypeStoreSizeInBits TD (ArrayTy (IntegerTy 8) n) = 8 * n.
Proof.
  unfold getTypeStoreSizeInBits, getTypeSizeInBits.
  cbn [SizeAndAlignment fst snd].
  change (AllocBitsOf (8, IntegerABIAlignment TD 8))
    with (getTypeAllocSizeInBits TD (IntegerTy 8)).
  rewrite AllocSize_byte.
  rewrite Z.div_add_l by lia. change (7 / 8) with 0. lia.
Qed.

Lemma read_le_bounds (l : list Z) : 0 <= read_le l < 2 ^ (8 * Z.of_nat (length l)).
Proof.
  induction l as [ | b bs IH]; [cbn; lia | ].
  cbn [read_le length]. rewrite Nat2Z.inj_succ.
  replace (8 * Z.succ (Z.of_nat (length bs))) with (8 + 8 * Z.of_nat (length bs)) by lia.
  rewrite Z.pow_add_r by lia. change (2 ^ 8) with 256.
  pose proof (Z.mod_pos_bound b 256 ltac:(lia)). nia.
Qed.

Lemma read_host_bounds (l : list Z) :
  0 <= read_host BE l < 2 ^ (8 * Z.of_nat (length l)).
Proof.
  unfold read_host. destruct BE; [ | apply read_le_bounds].
  rewrite <- length_rev. apply read_le_bounds.
Qed.

Lemma read_le_app (l : list Z) (b : Z) :
  read_le (l ++ [b]) = read_le l + 2 ^ (8 * Z.of_nat (length l)) * (b mod 256).
Proof.
  induction l as [ | x xs IH];
    [cbn [app read_le length Z.of_nat]; change (2 ^ (8 * 0)) with 1; lia | ].
  cbn [app read_le length]. rewrite IH, Nat2Z.inj_succ.
  replace (8 * Z.succ (Z.of_nat (length xs))) with (8 + 8 * Z.of_nat (length xs)) by lia.
  rewrite Z.pow_add_r by lia. change (2 ^ 8) with 256. lia.
Qed.

Lemma lor_shiftl_add (v b d : Z) :
  0 <= v < 2 ^ d -> 0 <= d -> 0 <= b ->
  Z.lor v (Z.shiftl b d) = v + 2 ^ d * b.
Proof.
  intros Hv Hd Hb.
  rewrite Z.shiftl_mul_pow2 by lia. rewrite (Z.mul_comm b).
  rewrite <- Z.lxor_lor, <- Z.add_nocarry_lxor; try reflexivity.
  - apply Z.bits_inj'. intros k Hk. rewrite Z.land_spec, Z.bits_0.
    rewrite (testbit_bounded v d k Hv Hd).
    destruct (Z.ltb_spec k d); [ | rewrite Bool.andb_false_r; reflexivity].
    rewrite Z.mul_comm, Z.mul_pow2_bits_low by lia.
    apply Bool.andb_false_r.
  - apply Z.bits_inj'. intros k Hk. rewrite Z.land_spec, Z.bits_0.
    rewrite (testbit_bounded v d k Hv Hd).
    destruct (Z.ltb_spec k d); [ | rewrite Bool.andb_false_r; reflexivity].
    rewrite Z.mul_comm, Z.mul_pow2_bits_low by lia.
    apply Bool.andb_false_r.
Qed.

Lemma bytes_slice_wf (l : list Z) :
  l <> [] -> 8 * Z.of_nat (length l) < 2 ^ 31 ->
  wf_slice (bytes_slice BE l) /\ Slice.empty (bytes_slice BE l) = false.
Proof.
  intros Hne Hlen.
  assert (Hpos : 0 < Z.of_nat (length l)) by (destruct l; [congruence | cbn [length]; lia]).
  assert (Hs : bytes_slice BE l
               = Slice.mkBitSlice (mkRange 0 (8 * Z.of_nat (length l)))
                   (Some (ConstantInt (8 * Z.of_nat (length l)) (read_host BE l) 0)))
    by (destruct l; [congruence | reflexivity]).
  rewrite Hs. unfold wf_slice, Slice.empty, int_range, Range.getWidth, Range.empty.
  cbn [Slice.R Slice.Contents First Last].
  assert (Hn : (8 * Z.of_nat (length l) <=? 0) = false) by (apply Z.leb_gt; lia).
  rewrite Hn. pose proof (read_host_bounds l) as Hb.
  assert (0 < 2 ^ (8 * Z.of_nat (length l))) by (apply Z.pow_pos_nonneg; lia).
  repeat split; lia.
Qed.

Lemma bytes_step (l : list Z) (b : Z) :
  8 * (Z.of_nat (length l) + 1) < 2 ^ 31 ->
  Slice.Merge BE (bytes_slice BE l)
    (Slice.mkBitSlice (mkRange (8 * Z.of_nat (length l)) (8 * Z.of_nat (length l) + 8))
                      (Some (ConstantInt 8 (b mod 256) 0)))
  = Some (bytes_slice BE (l ++ [b])).
Proof.
  intros Hlen. pose proof (Z.mod_pos_bound b 256 ltac:(lia)) as Hb.
  destruct (list_eq_dec Z.eq_dec l []) as [-> | Hne].
  - cbn [bytes_slice app length Z.of_nat]. rewrite Merge_empty_l by reflexivity.
    unfold read_host. cbn [rev app read_le]. rewrite Z.mul_0_r, Z.add_0_r.
    destruct BE; reflexivity.
  - destruct (bytes_slice_wf l Hne ltac:(lia)) as [Hwf He].
    set (k := Z.of_nat (length l)) in *.
    assert (Hk : 0 < k) by (subst k; destruct l; [congruence | cbn [length]; lia]).
    set (elt := Slice.mkBitSlice (mkRange (8 * k) (8 * k + 8))
                  (Some (ConstantInt 8 (b mod 256) 0))).
    assert (Hwfe : wf_slice elt).
    { unfold wf_slice, elt, int_range, Range.getWidth, Range.empty.
      cbn [Slice.R Slice.Contents First Last].
      assert (Hn : (8 * k + 8 <=? 8 * k) = false) by (apply Z.leb_gt; lia).
      rewrite Hn. change (2 ^ 8) with 256. repeat split; lia. }
    assert (Hee : Slice.empty elt = false)
      by (unfold Slice.empty, Range.empty, elt; cbn [Slice.R First Last];
          apply Z.leb_gt; lia).
    assert (Hs : bytes_slice BE l
                 = Slice.mkBitSlice (mkRange 0 (8 * k))
                     (Some (ConstantInt (8 * k) (read_host BE l) 0)))
      by (destruct l; [congruence | reflexivity]).
    assert (Hx : Range.intersects (Slice.R (bytes_slice BE l)) (Slice.R elt) = false).
    { rewrite Hs. unfold Range.intersects, Range.empty, elt.
      cbn [Slice.R First Last].
      assert (H1 : (8 * k <? 8 * k) = false) by (apply Z.ltb_ge; lia).
      rewrite H1. rewrite Bool.andb_false_r. reflexivity. }
    rewrite (Merge_nonempty BE _ _ Hwf Hwfe He Hee Hx).
    assert (Hs' : bytes_slice BE (l ++ [b])
                  = Slice.mkBitSlice (mkRange 0 (8 * (k + 1)))
                      (Some (ConstantInt (8 * (k + 1)) (read_host BE (l ++ [b])) 0))).
    { unfold bytes_slice. rewrite length_app. cbn [length].
      replace (Z.of_nat (length l + 1)) with (k + 1) by (subst k; lia).
      destruct l; [congruence | reflexivity]. }
    rewrite Hs', Hs. unfold union_of, placed, offset_in, elt.
    cbn [Slice.R Slice.Contents fold_right fst snd First Last].
    assert (HJ : Range.Join (mkRange 0 (8 * k)) (mkRange (8 * k) (8 * k + 8))
                 = mkRange 0 (8 * (k + 1))).
    { rewrite Join_nonempty by (unfold Range.empty; cbn [First Last]; apply Z.leb_gt; lia).
      cbn [First Last]. f_equal; lia. }
    rewrite HJ. cbn [First Last].
    assert (HW : Range.getWidth (mkRange 0 (8 * (k + 1))) = 8 * (k + 1)).
    { unfold Range.getWidth, Range.empty. cbn [First Last].
      assert (Hn : (8 * (k + 1) <=? 0) = false) by (apply Z.leb_gt; lia).
      rewrite Hn. lia. }
    rewrite HW. rewrite !Z.ldiff_0_r, !Z.shiftl_0_l, !Z.lor_0_r.
    apply slice_int_eq; [ | reflexivity].
    pose proof (read_host_bounds l) as Hv. fold k in Hv.
    unfold read_host in *. destruct BE.
    + rewrite rev_app_distr. cbn [rev app read_le].
      replace (8 * (k + 1) - 8 * k) with 8 by lia.
      replace (8 * (k + 1) - (8 * k + 8)) with 0 by lia.
      rewrite Z.shiftl_0_r, Z.lor_comm.
      rewrite lor_shiftl_add by (change (2 ^ 8) with 256; lia).
      change (2 ^ 8) with 256. reflexivity.
    + rewrite read_le_app. fold k.
      replace (0 - 0) with 0 by lia. replace (8 * k - 0) with (8 * k) by lia.
      rewrite Z.shiftl_0_r. apply lor_shiftl_add; lia.
Qed.

Lemma firstn_snoc (l : list Z) (k : nat) :
  (k < length l)%nat ->
  exists b, nth_error l k = Some b /\ firstn (S k) l = firstn k l ++ [b].
Proof.
  revert k. induction l as [ | x xs IH]; intros k Hk; [cbn [length] in Hk; lia | ].
  destruct k as [ | k].
  - exists x. split; reflexivity.
  - destruct (IH k ltac:(cbn [length] in Hk; lia)) as (b & Hb & Hf).
    exists b. split; [exact Hb | ]. cbn [firstn app]. cbn [firstn] in Hf.
    rewrite Hf. reflexivity.
Qed.

Lemma upto_succ (k : nat) :
  upto 0 (Z.of_nat (S k)) = upto 0 (Z.of_nat k) ++ [Z.of_nat k].
Proof.
  unfold upto. rewrite !Z.sub_0_r, !Nat2Z.id, seq_S, map_app. reflexivity.
Qed.

Lemma ViewAsBits_byte (b : Z) :
  ViewAsBits TD BE (ConstantInt 8 (b mod 256) 0) (mkRange 0 8)
  = Some (Slice.mkBitSlice (mkRange 0 8) (Some (ConstantInt 8 (b mod 256) 0))).
Proof.
  rewrite ViewAsBits_int; [destruct BE; reflexivity | lia | reflexivity].
Qed.

Lemma fold_bytes (bytes : list Z) (k : nat) :
  (k <= length bytes)%nat -> 8 * Z.of_nat (length bytes) < 2 ^ 31 ->
  fold_left
    (fun Bits i =>
       Bits <- Bits ;;
       EltBits <- nth_view
                    (map (fun Elt => ViewAsBits TD BE Elt (mkRange 0 8))
                         (map (fun b => ConstantInt 8 (b mod 256) 0) bytes)) i ;;
       Moved <- Slice.Displace EltBits (to_int (to_unsigned (i * 8))) ;;
       Slice.Merge BE Bits Moved)
    (upto 0 (Z.of_nat k)) (Some Slice.nil)
  = Some (bytes_slice BE (firstn k bytes)).
Proof.
  intros Hk Hlen. induction k as [ | k IH]; [reflexivity | ].
  rewrite upto_succ, fold_left_app, IH by lia. cbn [fold_left].
  destruct (firstn_snoc bytes k ltac:(lia)) as (b & Hb & Hf).
  unfold nth_view. rewrite Nat2Z.id, !nth_error_map, Hb. cbn [option_map].
  rewrite ViewAsBits_byte.
  rewrite to_int_to_unsigned by lia.
  rewrite Displace_Some by reflexivity.
  unfold Range.Displace. cbn [Slice.R Slice.Contents First Last].
  rewrite Hf.
  assert (Hl : Z.of_nat (length (firstn k bytes)) = Z.of_nat k)
    by (rewrite length_firstn; lia).
  replace (0 + Z.of_nat k * 8) with (8 * Z.of_nat (length (firstn k bytes))) by lia.
  replace (8 + Z.of_nat k * 8) with (8 * Z.of_nat (length (firstn k bytes)) + 8) by lia.
  apply bytes_step. lia.
Qed.

Lemma ViewAsBits_bytes (bytes : list Z) :
  bytes <> [] -> 8 * Z.of_nat (length bytes) < 2 ^ 31 - 8 ->
  ViewAsBits TD BE
    (ConstantArray (IntegerTy 8) (map (fun b => ConstantInt 8 (b mod 256) 0) bytes))
    (mkRange 0 (8 * Z.of_nat (length bytes)))
  = Some (bytes_slice BE bytes).
Proof.
  intros Hne Hlen.
  assert (Hpos : 0 < Z.of_nat (length bytes))
    by (destruct bytes; [congruence | cbn [length]; lia]).
  set (n := Z.of_nat (length bytes)) in *.
  cbn [ViewAsBits getType]. rewrite length_map. fold n.
  rewrite StoreSize_byte_array, AllocSize_byte.
  assert (He : Range.empty (mkRange 0 (8 * n)) = false)
    by (unfold Range.empty; cbn [First Last]; apply Z.leb_gt; lia).
  rewrite He.
  assert (Hm : Range.Meet (mkRange 0 (8 * n)) (mkRange 0 (8 * n)) = mkRange 0 (8 * n)).
  { unfold Range.Meet. rewrite He. cbn [orb First Last].
    rewrite Z.max_id, Z.min_id. reflexivity. }
  rewrite Hm, He.
  assert (H0 : (0 <? 8 * n) = true) by (apply Z.ltb_lt; lia).
  rewrite H0. cbn [assert]. change (to_unsigned 8) with 8.
  change (0 <? 8) with true. cbn [assert].
  unfold Range.getFirst, Range.getLast. cbn [First Last].
  rewrite (to_unsigned_small n) by lia.
  change (to_unsigned 0 / 8) with 0.
  rewrite (to_unsigned_small (8 * n + 8 - 1)) by lia.
  replace ((8 * n + 8 - 1) / 8) with n
    by (apply Z.div_unique with 7; lia).
  rewrite Z.leb_refl. cbn [assert]. change (to_int 8) with 8.
  subst n. rewrite (fold_bytes bytes (length bytes)) by lia.
  rewrite firstn_all. reflexivity.
Qed.

Lemma InterpretAsType_byte_array (bytes : list Z) :
  bytes <> [] -> 8 * Z.of_nat (length bytes) < 2 ^ 30 ->
  InterpretAsType TD BE (IntegerTy (8 * Z.of_nat (length bytes)))
    (ConstantArray (IntegerTy 8) (map (fun b => ConstantInt 8 (b mod 256) 0) bytes)) 0
  = Some (ConstantInt (8 * Z.of_nat (length bytes)) (read_host BE bytes) 0).
Proof.
  intros Hne Hlen.
  assert (Hpos : 0 < Z.of_nat (length bytes))
    by (destruct bytes; [congruence | cbn [length]; lia]).
  assert (H30 : 2 ^ 30 + 8 < 2 ^ 31) by (cbn; lia).
  pose proof (ViewAsBits_bytes bytes Hne ltac:(lia)) as Hview.
  destruct (bytes_slice_wf bytes Hne ltac:(lia)) as [Hwf _].
  assert (Hs : bytes_slice BE bytes
               = Slice.mkBitSlice (mkRange 0 (8 * Z.of_nat (length bytes)))
                   (Some (ConstantInt (8 * Z.of_nat (length bytes)) (read_host BE bytes) 0)))
    by (destruct bytes; [congruence | reflexivity]).
  set (n := Z.of_nat (length bytes)) in *.
  cbn [InterpretAsType getType Ty_eqb]. unfold InterpretAsIntegerTy.
  rewrite StoreSize_int. cbn [getPrimitiveSizeInBits].
  replace (8 * ((8 * n + 7) / 8)) with (8 * n)
    by (f_equal; apply Z.div_unique with 7; lia).
  rewrite !(to_unsigned_small (8 * n)) by lia.
  rewrite Z.add_0_l, Z.sub_diag.
  rewrite (to_int_to_unsigned (8 * n)), (to_int_small (8 * n)) by lia.
  change (to_int (to_unsigned 0)) with 0.
  rewrite Hview, Hs.
  rewrite Hs in Hwf. destruct Hwf as [Hi Hc].
  cbn [Slice.R Slice.Contents] in Hi, Hc. destruct Hc as (He & Hw & _).
  rewrite Displace_Some by (apply contentsValid_int; assumption).
  unfold Range.Displace. cbn [Slice.R Slice.Contents First Last].
  change (- 0) with 0. rewrite !Z.add_0_r.
  assert (Hg : Slice.getBits BE
                 (Slice.mkBitSlice (mkRange 0 (8 * n))
                    (Some (ConstantInt (8 * n) (read_host BE bytes) 0)))
                 (mkRange 0 (8 * n))
               = Some (ConstantInt (8 * n) (read_host BE bytes) 0)).
  { unfold Slice.getBits. cbn [Slice.R Slice.Contents].
    rewrite He, Range_eqb_refl. reflexivity. }
  destruct BE; exact Hg.
Qed.

End Bytes.

(** X17. An integer, real, complex or vector constant whose type LLVM holds
    as an integer of whole bytes converts to the integer whose bytes, in the
    byte order of the target, are the bytes [native_encode_expr] wrote. *)
Theorem ConvertInitializer_CST_bytes (E : Environment) (code : cst_code)
    (type : gcc_type) (encoded : list Z) :
  let n := Z.of_nat (length encoded) in
  IntegerABIAlignment (getTargetData E) 8 = 1 ->
  0 < n -> 8 * n < 2 ^ 30 ->
  TYPE_SIZE type = Some (8 * n) ->
  ConvertType type = IntegerTy (8 * n) ->
  to_unsigned (getABITypeAlignment (getTargetData E) (IntegerTy (8 * n)) * 8)
    <= TYPE_ALIGN type ->
  ConvertInitializer E (CST code type encoded)
  = Some (ConstantInt (8 * n) (read_host (BYTES_BIG_ENDIAN E) encoded) 0).
Proof.
  intros n Hal Hn Hlen Hsize HT Halign. subst n.
  set (n := Z.of_nat (length encoded)) in *.
  assert (Hne : encoded <> []) by (intros ->; cbn in Hn; lia).
  cbn [ConvertInitializer TREE_TYPE_of]. unfold ConvertCST. rewrite Hsize.
  assert (H64 : 2 ^ 30 < 2 ^ 64) by (cbn; lia).
  rewrite (Z.mod_small (8 * n)) by lia.
  unfold CHAR_BIT.
  replace ((8 * n + 8 - 1) / 8) with n by (apply Z.div_unique with 7; lia).
  rewrite to_unsigned_small by lia. fold n.
  rewrite Z.leb_refl, Z.eqb_refl. cbn [assert].
  rewrite HT. subst n.
  rewrite (InterpretAsType_byte_array (getTargetData E) (BYTES_BIG_ENDIAN E) Hal encoded Hne Hlen).
  unfold check_guarantees. rewrite HT. cbn [isSized getType].
  rewrite Z.ltb_irrefl. cbn [negb assert isInt64 andb].
  set (n := Z.of_nat (length encoded)) in *.
  assert (Ha : (TYPE_ALIGN type
                <? to_unsigned (getABITypeAlignment (getTargetData E) (IntegerTy (8 * n)) * 8))
               = false) by (apply Z.ltb_ge; exact Halign).
  rewrite Ha. reflexivity.
Qed.

Lemma ConvertInitializer_CST_bytes_witness :
  ConvertInitializer (Examples.bare Examples.x86_64 true true)
    (CST INTEGER_CST (Examples.unsigned_type 4 32 32) [1; 2; 3; 4])
  = Some (ConstantInt (8 * 4) (read_host true [1; 2; 3; 4]) 0).
Proof.
  apply (ConvertInitializer_CST_bytes (Examples.bare Examples.x86_64 true true)
           INTEGER_CST (Examples.unsigned_type 4 32 32) [1; 2; 3; 4]);
    try reflexivity; cbn; lia.
Defined.


(** ** The cache of constants whose address was taken *)

Lemma Constant_eqb_refl : forall c : Constant, Constant_eqb c c = true.
Proof.
  fix IH 1.
  intros [w v u | k v u | p v u | e vs | p vs | e vs | T]; simpl.
  - rewrite !Z.eqb_refl. reflexivity.
  - rewrite FPKind_eqb_refl, !Z.eqb_refl. reflexivity.
  - rewrite Ty_eqb_refl, !Z.eqb_refl. reflexivity.
  - rewrite Ty_eqb_refl. simpl.
    induction vs as [ | x xs IHxs]; [reflexivity | ]. rewrite IH. exact IHxs.
  - rewrite Bool.eqb_reflx. simpl.
    induction vs as [ | x xs IHxs]; [reflexivity | ]. rewrite IH. exact IHxs.
  - rewrite Ty_eqb_refl. simpl.
    induction vs as [ | x xs IHxs]; [reflexivity | ]. rewrite IH. exact IHxs.
  - apply Ty_eqb_refl.
Qed.

Lemma Constant_eqb_eq : forall a b : Constant, Constant_eqb a b = true -> a = b.
Proof.
  fix IH 1.
  intros [w v u | k v u | p v u | e vs | p vs | e vs | T]
         [w' v' u' | k' v' u' | p' v' u' | e' vs' | p' vs' | e' vs' | T'];
    simpl; intros H; try discriminate H.
  - apply Bool.andb_true_iff in H. destruct H as [H H3].
    apply Bool.andb_true_iff in H. destruct H as [H1 H2].
    apply Z.eqb_eq in H1, H2, H3. congruence.
  - apply Bool.andb_true_iff in H. destruct H as [H H3].
    apply Bool.andb_true_iff in H. destruct H as [H1 H2].
    apply FPKind_eqb_eq in H1. apply Z.eqb_eq in H2, H3. congruence.
  - apply Bool.andb_true_iff in H. destruct H as [H H3].
    apply Bool.andb_true_iff in H. destruct H as [H1 H2].
    apply Ty_eqb_eq in H1. apply Z.eqb_eq in H2, H3. congruence.
  - apply Bool.andb_true_iff in H. destruct H as [H1 H2].
    apply Ty_eqb_eq in H1. subst e'. f_equal.
    revert vs' H2. induction vs as [ | x xs IHxs]; intros [ | y ys] H2;
      try discriminate H2; try reflexivity.
    apply Bool.andb_true_iff in H2. destruct H2 as [Hx Hxs].
    apply IH in Hx. apply IHxs in Hxs. congruence.
  - apply Bool.andb_true_iff in H. destruct H as [H1 H2].
    apply Bool.eqb_prop in H1. subst p'. f_equal.
    revert vs' H2. induction vs as [ | x xs IHxs]; intros [ | y ys] H2;
      try discriminate H2; try reflexivity.
    apply Bool.andb_true_iff in H2. destruct H2 as [Hx Hxs].
    apply IH in Hx. apply IHxs in Hxs. congruence.
  - apply Bool.andb_true_iff in H. destruct H as [H1 H2].
    apply Ty_eqb_eq in H1. subst e'. f_equal.
    revert vs' H2. induction vs as [ | x xs IHxs]; intros [ | y ys] H2;
      try discriminate H2; try reflexivity.
    apply Bool.andb_true_iff in H2. destruct H2 as [Hx Hxs].
    apply IH in Hx. apply IHxs in Hxs. congruence.
  - apply Ty_eqb_eq in H. congruence.
Qed.

Lemma CSTCache_lookup_In (Init : Constant) (Cache : list (Constant * nat))
    (Slot : nat) :
  CSTCache_lookup Init Cache = Some Slot -> In (Init, Slot) Cache.
Proof.
  induction Cache as [ | [Key S0] rest IH]; cbn [CSTCache_lookup]; intros H;
    [discriminate H | ].
  destruct (Constant_eqb Key Init) eqn:Heq.
  - apply Constant_eqb_eq in Heq. injection H as <-. subst. left. reflexivity.
  - right. apply IH. exact H.
Qed.

Section Addresses.
Variable E : Environment.
Variable CONSTANT_ALIGNMENT : option (tree -> Z -> Z).

Lemma AddressOfCST_inv (st st' : CSTState) (exp : tree) (Slot : nat) :
  AddressOfCST E CONSTANT_ALIGNMENT st exp = Some (Slot, st') ->
  exists Init,
    ConvertInitializer E exp = Some Init /\
    CSTCache_lookup Init (CSTCache st') = Some Slot /\
    (forall GV, nth_error (TheModule st) Slot = Some GV ->
                nth_error (TheModule st') Slot = Some GV) /\
    (st' = st \/
     CSTCache_lookup Init (CSTCache st) = None /\
     Slot = length (TheModule st) /\
     CSTCache st' = (Init, Slot) :: CSTCache st /\
     exists align,
       TheModule st'
       = TheModule st
         ++ [mkGlobalVariable (getType Init) true PrivateLinkage Init Names.cst align]).
Proof.
  unfold AddressOfCST. intros H.
  destruct (ConvertInitializer E exp) as [Init | ]; [ | discriminate H].
  exists Init. split; [reflexivity | ].
  destruct (CSTCache_lookup Init (CSTCache st)) as [S0 | ] eqn:Hl.
  - injection H as <- <-. split; [exact Hl | ]. split; [tauto | left; reflexivity].
  - injection H as <- <-. cbn [CSTCache TheModule CSTCache_lookup].
    rewrite Constant_eqb_refl. split; [reflexivity | ]. split.
    + intros GV HGV. rewrite nth_error_app1; [exact HGV | ].
      apply nth_error_Some. congruence.
    + right. repeat split. eexists. reflexivity.
Qed.

Lemma AddressOfCST_keeps (st st' : CSTState) (exp : tree) (Slot : nat) :
  cache_ok st ->
  AddressOfCST E CONSTANT_ALIGNMENT st exp = Some (Slot, st') ->
  cache_ok st'.
Proof.
  intros Hok H. destruct (AddressOfCST_inv st st' exp Slot H)
    as (Init & _ & _ & _ & [-> | (_ & HS & HC & align & HM)]); [exact Hok | ].
  unfold cache_ok. rewrite HC, HM. intros Key S0 [Hin | Hin].
  - injection Hin as <- <-. rewrite HS, nth_error_app2, Nat.sub_diag by lia.
    eexists. split; reflexivity.
  - destruct (Hok Key S0 Hin) as (GV & HGV & HI).
    exists GV. split; [ | exact HI].
    rewrite nth_error_app1; [exact HGV | ]. apply nth_error_Some. congruence.
Qed.

(** X18. [AddressOfCST] hands out one global per constant: of two requests
    made one after the other, the second returns the global of the first
    exactly when the two expressions convert to the same constant, and then
    it creates nothing. *)
Theorem AddressOfCST_same_slot (st st1 st2 : CSTState) (exp1 exp2 : tree)
    (Slot1 Slot2 : nat) :
  cache_ok st ->
  AddressOfCST E CONSTANT_ALIGNMENT st exp1 = Some (Slot1, st1) ->
  AddressOfCST E CONSTANT_ALIGNMENT st1 exp2 = Some (Slot2, st2) ->
  (Slot1 = Slot2 <-> ConvertInitializer E exp1 = ConvertInitializer E exp2) /\
  (Slot1 = Slot2 -> st2 = st1).
Proof.
  intros Hok H1 H2.
  pose proof (AddressOfCST_keeps st st1 exp1 Slot1 Hok H1) as Hok1.
  destruct (AddressOfCST_inv st st1 exp1 Slot1 H1) as (I1 & Hc1 & Hl1 & _ & _).
  destruct (AddressOfCST_inv st1 st2 exp2 Slot2 H2) as (I2 & Hc2 & Hl2 & _ & Hcase).
  assert (Hsame : I1 = I2 -> Slot1 = Slot2 /\ st2 = st1).
  { intros <-. unfold AddressOfCST in H2. rewrite Hc2, Hl1 in H2.
    injection H2 as <- <-. split; reflexivity. }
  assert (Hslot : Slot1 = Slot2 -> I1 = I2).
  { intros <-. destruct Hcase as [-> | (Hnone & HS & _)].
    - apply CSTCache_lookup_In in Hl1, Hl2.
      destruct (Hok1 _ _ Hl1) as (G1 & HG1 & HI1).
      destruct (Hok1 _ _ Hl2) as (G2 & HG2 & HI2). congruence.
    - apply CSTCache_lookup_In in Hl1.
      destruct (Hok1 _ _ Hl1) as (G1 & HG1 & _).
      assert (Hlt : (Slot1 < length (TheModule st1))%nat)
        by (apply nth_error_Some; congruence).
      lia. }
  rewrite Hc1, Hc2. split; [split | ].
  - intros Hs. f_equal. exact (Hslot Hs).
  - intros Hi. injection Hi as Hi. exact (proj1 (Hsame Hi)).
  - intros Hs. exact (proj2 (Hsame (Hslot Hs))).
Qed.

(** X19. The global [AddressOfCST] returns is a constant of private
    linkage whose initializer is the converted expression and whose type is
    the initializer's; the globals that existed before are left as they
    were, and the cache goes on naming a global that holds its constant. *)
Theorem AddressOfCST_global (st st' : CSTState) (exp : tree) (Slot : nat) :
  cache_ok st ->
  AddressOfCST E CONSTANT_ALIGNMENT st exp = Some (Slot, st') ->
  cache_ok st' /\
  firstn (length (TheModule st)) (TheModule st') = TheModule st /\
  exists Init GV,
    ConvertInitializer E exp = Some Init /\
    nth_error (TheModule st') Slot = Some GV /\
    GV_Initializer GV = Init /\
    (st' <> st ->
     GV_Type GV = getType Init /\ GV_isConstant GV = true /\
     GV_Linkage GV = PrivateLinkage /\
     length (TheModule st') = S (length (TheModule st))).
Proof.
  intros Hok H.
  pose proof (AddressOfCST_keeps st st' exp Slot Hok H) as Hok'.
  destruct (AddressOfCST_inv st st' exp Slot H)
    as (Init & Hc & Hl & _ & Hcase).
  split; [exact Hok' | ].
  pose proof (CSTCache_lookup_In _ _ _ Hl) as Hin.
  destruct (Hok' _ _ Hin) as (GV & HGV & HI).
  split.
  - destruct Hcase as [-> | (_ & _ & _ & align & ->)].
    + apply firstn_all.
    + rewrite firstn_app, Nat.sub_diag, firstn_all. cbn [firstn]. apply app_nil_r.
  - exists Init, GV. repeat match goal with |- _ /\ _ => split end; try assumption.
    intros Hnew. destruct Hcase as [-> | (_ & HS & _ & align & HM)]; [congruence | ].
    rewrite HM, HS, nth_error_app2, Nat.sub_diag in HGV by lia.
    injection HGV as <-. rewrite HM, length_app. cbn.
    repeat split. lia.
Qed.

End Addresses.

Lemma AddressOfCST_same_slot_witness :
  let E := Examples.bare Examples.x86_64 false true in
  let exp1 := CST INTEGER_CST (Examples.unsigned_type 4 32 32) [1; 0; 0; 0] in
  let exp2 := CST INTEGER_CST (Examples.unsigned_type 5 32 32) [1; 0; 0; 0] in
  let st1 := mkCSTState
               [mkGlobalVariable (IntegerTy 32) true PrivateLinkage (ConstantInt 32 1 0)
                                 Names.cst 32]
               [(ConstantInt 32 1 0, 0%nat)] in
  (0%nat = 0%nat <-> ConvertInitializer E exp1 = ConvertInitializer E exp2) /\
  (0%nat = 0%nat -> st1 = st1).
Proof.
  intros E exp1 exp2 st1.
  apply (AddressOfCST_same_slot E None (mkCSTState [] []) st1 st1 exp1 exp2 0 0).
  - intros Key Slot H. destruct H.
  - vm_compute. reflexivity.
  - vm_compute. reflexivity.
Defined.

Lemma AddressOfCST_global_witness :
  let E := Examples.bare Examples.x86_64 false true in
  let exp := CST INTEGER_CST (Examples.unsigned_type 4 32 32) [1; 0; 0; 0] in
  let st := mkCSTState [] [] in
  let st' := mkCSTState
               [mkGlobalVariable (IntegerTy 32) true PrivateLinkage (ConstantInt 32 1 0)
                                 Names.cst 32]
               [(ConstantInt 32 1 0, 0%nat)] in
  cache_ok st' /\
  firstn (length (TheModule st)) (TheModule st') = TheModule st /\
  exists Init GV,
    ConvertInitializer E exp = Some Init /\
    nth_error (TheModule st') 0 = Some GV /\
    GV_Initializer GV = Init /\
    (st' <> st ->
     GV_Type GV = getType Init /\ GV_isConstant GV = true /\
     GV_Linkage GV = PrivateLinkage /\
     length (TheModule st') = S (length (TheModule st))).
Proof.
  intros E exp st st'.
  apply (AddressOfCST_global E None st st' exp 0).
  - intros Key Slot H. destruct H.
  - vm_compute. reflexivity.
Defined.

(** ** The address of a dereference *)

(** X20. The address of a dereference is the constant of the dereferenced
    operand seen as the type of the operand: it has that type, and it is the
    operand's constant itself when that already has the type. *)
Theorem AddressOfINDIRECT_REF_type (E : Environment) (op : tree) (c : Constant) :
  representable (ConvertType (TREE_TYPE_of op)) ->
  AddressOfINDIRECT_REF E op = Some c ->
  getType c = ConvertType (TREE_TYPE_of op) /\
  exists C, ConvertInitializer E op = Some C /\
            (getType C = ConvertType (TREE_TYPE_of op) -> c = C).
Proof.
  intros HT H. unfold AddressOfINDIRECT_REF in H.
  destruct (ConvertInitializer E op) as [C | ]; [ | discriminate H].
  split.
  - exact (InterpretAsType_has_type _ _ _ _ _ _ HT H).
  - exists C. split; [reflexivity | ]. intros Hty.
    rewrite InterpretAsType_fast_path in H
      by (rewrite Hty; apply Ty_eqb_refl).
    injection H as <-. reflexivity.
Qed.

Lemma AddressOfINDIRECT_REF_type_witness :
  let E := Examples.bare Examples.x86_64 false true in
  let op := CST INTEGER_CST (Examples.unsigned_type 4 32 32) [1; 0; 0; 0] in
  getType (ConstantInt 32 1 0) = ConvertType (TREE_TYPE_of op) /\
  exists C, ConvertInitializer E op = Some C /\
            (getType C = ConvertType (TREE_TYPE_of op) -> ConstantInt 32 1 0 = C).
Proof.
  intros E op.
  apply (AddressOfINDIRECT_REF_type E op (ConstantInt 32 1 0)).
  - cbn. lia.
  - vm_compute. reflexivity.
Defined.


(** ** An integer seen as bytes and read back *)

Lemma InterpretAsType_array (TD : TargetData) (BE : bool) (EltTy : Ty) (n : Z)
    (C : Constant) (s : Z) :
  InterpretAsType TD BE (ArrayTy EltTy n) C s
  = if Ty_eqb (getType C) (ArrayTy EltTy n) then Some C
    else
      Vals <- collect
        (map (fun i => InterpretAsType TD BE EltTy C
                         (to_int (to_unsigned
                            (s + i * to_unsigned (getTypeAllocSizeInBits TD EltTy)))))
             (upto 0 (to_unsigned n))) ;;
      _ <- assert (all_of_type EltTy Vals) ;;
      Some (ConstantArray EltTy Vals).
Proof. reflexivity. Qed.

Lemma collect_map {A B} (f : A -> option B) (g : A -> B) (l : list A) :
  (forall i, In i l -> f i = Some (g i)) ->
  collect (map f l) = Some (map g l).
Proof.
  induction l as [ | x xs IH]; intros H; [reflexivity | ].
  cbn [map collect]. rewrite (H x (or_introl eq_refl)).
  rewrite IH by (intros i Hi; apply H; right; exact Hi). reflexivity.
Qed.

Lemma upto_In (n i : Z) : In i (upto 0 n) -> 0 <= i < n.
Proof.
  unfold upto. intros H. apply in_map_iff in H. destruct H as (k & <- & Hk).
  apply in_seq in Hk. lia.
Qed.

Section RoundTrip.
Variable TD : TargetData.
Variable BE : bool.
Hypothesis byte_aligned : IntegerABIAlignment TD 8 = 1.

Lemma InterpretAsType_byte_of (n v i : Z) :
  0 <= i < n -> 8 * n < 2 ^ 30 -> 0 <= v < 2 ^ (8 * n) ->
  InterpretAsType TD BE (IntegerTy 8) (ConstantInt (8 * n) v 0) (8 * i)
  = Some (ConstantInt 8
            (Z.shiftr v (if BE then 8 * n - 8 * i - 8 else 8 * i) mod 256) 0).
Proof.
  intros Hi Hn Hv.
  destruct (Z.eq_dec n 1) as [-> | Hn1].
  - assert (i = 0) by lia. subst i.
    rewrite InterpretAsType_fast_path by reflexivity.
    change (8 * 1) with 8 in *. change (2 ^ 8) with 256 in Hv.
    assert (Hd : (if BE then 8 - 8 * 0 - 8 else 8 * 0) = 0) by (destruct BE; reflexivity).
    rewrite Hd, Z.shiftr_0_r, Z.mod_small by lia. reflexivity.
  - pose proof (InterpretAsType_int_bits TD BE (8 * n) v 0 8 (8 * i)) as H.
    cbv zeta in H. rewrite !StoreSize_int in H.
    replace (8 * ((8 * n + 7) / 8)) with (8 * n) in H
      by (f_equal; apply Z.div_unique with 7; lia).
    change (8 * ((8 + 7) / 8)) with 8 in H.
    rewrite H; try lia; try exact Hv.
    + rewrite Z.shiftr_0_l. change (0 mod 2 ^ 8) with 0. change (2 ^ 8) with 256.
      destruct BE; reflexivity.
    + destruct BE; lia.
Qed.

Lemma read_le_bytes (n : nat) (v : Z) :
  0 <= v ->
  read_le (map (fun i => Z.shiftr v (8 * i)) (upto 0 (Z.of_nat n)))
  = v mod 2 ^ (8 * Z.of_nat n).
Proof.
  intros Hv. induction n as [ | n IH].
  - cbn [upto Z.of_nat]. change (2 ^ (8 * 0)) with 1. rewrite Z.mod_1_r. reflexivity.
  - rewrite upto_succ, map_app. cbn [map]. rewrite read_le_app, IH.
    rewrite length_map, upto_length, Z.sub_0_r, Nat2Z.id.
    rewrite Nat2Z.inj_succ.
    replace (8 * Z.succ (Z.of_nat n)) with (8 * Z.of_nat n + 8) by lia.
    rewrite Z.pow_add_r by lia. change (2 ^ 8) with 256.
    rewrite Z.rem_mul_r by (try apply Z.pow_nonzero; lia).
    rewrite Z.shiftr_div_pow2 by lia. reflexivity.
Qed.

Lemma read_le_rev_bytes (n : nat) : forall v : Z,
  0 <= v ->
  read_le (rev (map (fun i => Z.shiftr v (8 * Z.of_nat n - 8 * i - 8))
                    (upto 0 (Z.of_nat n))))
  = v mod 2 ^ (8 * Z.of_nat n).
Proof.
  induction n as [ | n IH]; intros v Hv.
  - cbn [upto Z.of_nat]. change (2 ^ (8 * 0)) with 1. rewrite Z.mod_1_r. reflexivity.
  - rewrite upto_succ, map_app, rev_app_distr. cbn [map rev app read_le].
    rewrite Nat2Z.inj_succ.
    replace (8 * Z.succ (Z.of_nat n) - 8 * Z.of_nat n - 8) with 0 by lia.
    rewrite Z.shiftr_0_r.
    assert (Hext : map (fun i => Z.shiftr v (8 * Z.succ (Z.of_nat n) - 8 * i - 8))
                       (upto 0 (Z.of_nat n))
                   = map (fun i => Z.shiftr (Z.shiftr v 8) (8 * Z.of_nat n - 8 * i - 8))
                         (upto 0 (Z.of_nat n))).
    { apply map_ext_in. intros i Hin. apply upto_In in Hin.
      rewrite Z.shiftr_shiftr by lia. f_equal. lia. }
    rewrite Hext, IH by (apply Z.shiftr_nonneg; exact Hv).
    replace (8 * Z.succ (Z.of_nat n)) with (8 + 8 * Z.of_nat n) by lia.
    rewrite Z.pow_add_r by lia. change (2 ^ 8) with 256.
    rewrite Z.rem_mul_r by (try apply Z.pow_nonzero; lia).
    rewrite Z.shiftr_div_pow2 by lia. reflexivity.
Qed.

(** X21. An integer of [n] bytes seen as an array of [n] bytes and read
    back as an integer is the integer again, on a target of either byte
    order. *)
Theorem InterpretAsType_bytes_round_trip (n v : Z) :
  0 < n -> 8 * n < 2 ^ 30 -> 0 <= v < 2 ^ (8 * n) ->
  (a <- InterpretAsType TD BE (ArrayTy (IntegerTy 8) n) (ConstantInt (8 * n) v 0) 0 ;;
   InterpretAsType TD BE (IntegerTy (8 * n)) a 0)
  = Some (ConstantInt (8 * n) v 0).
Proof.
  intros Hn Hlen Hv.
  set (bytes := map (fun i => Z.shiftr v (if BE then 8 * n - 8 * i - 8 else 8 * i))
                    (upto 0 n)).
  assert (Hl : Z.of_nat (length bytes) = n).
  { subst bytes. rewrite length_map, upto_length, Z.sub_0_r. lia. }
  assert (Harr : InterpretAsType TD BE (ArrayTy (IntegerTy 8) n) (ConstantInt (8 * n) v 0) 0
                 = Some (ConstantArray (IntegerTy 8)
                           (map (fun b => ConstantInt 8 (b mod 256) 0) bytes))).
  { rewrite InterpretAsType_array. cbn [getType Ty_eqb].
    rewrite (AllocSize_byte TD byte_aligned). change (to_unsigned 8) with 8.
    rewrite (to_unsigned_small n) by lia.
    rewrite (collect_map _ (fun i => ConstantInt 8
               (Z.shiftr v (if BE then 8 * n - 8 * i - 8 else 8 * i) mod 256) 0)).
    - assert (Hall : forall l : list Z,
                all_of_type (IntegerTy 8)
                  (map (fun i => ConstantInt 8
                          (Z.shiftr v (if BE then 8 * n - 8 * i - 8 else 8 * i) mod 256) 0) l)
                = true)
        by (induction l as [ | x xs IHl]; [reflexivity | exact IHl]).
      rewrite Hall. cbn [assert]. subst bytes. rewrite map_map. reflexivity.
    - intros i Hin. apply upto_In in Hin.
      rewrite Z.add_0_l, to_int_to_unsigned by lia.
      rewrite (Z.mul_comm i 8). apply InterpretAsType_byte_of; lia. }
  rewrite Harr.
  assert (Hne : bytes <> []).
  { intros Hnil. rewrite Hnil in Hl. cbn in Hl. lia. }
  pose proof (InterpretAsType_byte_array TD BE byte_aligned bytes Hne) as Hback.
  rewrite Hl in Hback. rewrite Hback by lia. do 2 f_equal.
  assert (Hv0 : 0 <= v) by lia.
  unfold read_host, bytes. rewrite <- (Z2Nat.id n) by lia.
  destruct BE.
  - rewrite read_le_rev_bytes by exact Hv0. apply Z.mod_small.
    rewrite Z2Nat.id by lia. exact Hv.
  - rewrite read_le_bytes by exact Hv0. apply Z.mod_small.
    rewrite Z2Nat.id by lia. exact Hv.
Qed.

End RoundTrip.

Lemma InterpretAsType_bytes_round_trip_witness :
  (a <- InterpretAsType Examples.x86_64 true (ArrayTy (IntegerTy 8) 4)
          (ConstantInt (8 * 4) 0x01020304 0) 0 ;;
   InterpretAsType Examples.x86_64 true (IntegerTy (8 * 4)) a 0)
  = Some (ConstantInt (8 * 4) 0x01020304 0).
Proof.
  apply (InterpretAsType_bytes_round_trip Examples.x86_64 true eq_refl 4 0x01020304);
    cbn; lia.
Defined.


(** ** Array constructors *)

Lemma RoundUpAlignment_multiple (q a : Z) :
  0 < a -> RoundUpAlignment (q * a) a = q * a.
Proof.
  intros Ha. unfold RoundUpAlignment.
  replace (q * a + a - 1) with (q * a + (a - 1)) by lia.
  rewrite Z.div_add_l by lia. rewrite Z.div_small by lia. lia.
Qed.

Lemma AllocSize_array (TD : TargetData) (e : Ty) (n : Z) :
  0 < getABITypeAlignment TD e ->
  getTypeAllocSizeInBits TD (ArrayTy e n) = n * getTypeAllocSizeInBits TD e.
Proof.
  unfold getABITypeAlignment, getTypeAllocSizeInBits. intros Ha.
  cbn [SizeAndAlignment]. set (sa := SizeAndAlignment TD e) in *.
  unfold AllocBitsOf at 1. cbn [fst snd].
  unfold AllocBitsOf. set (a := snd sa) in *.
  unfold RoundUpAlignment at 2.
  set (q := ((fst sa + 7) / 8 + a - 1) / a).
  replace (n * (8 * (q * a)) + 7) with (n * q * a * 8 + 7) by ring.
  rewrite Z.div_add_l by lia. change (7 / 8) with 0. rewrite Z.add_0_r.
  rewrite RoundUpAlignment_multiple by exact Ha.
  unfold RoundUpAlignment. fold q. ring.
Qed.

Lemma same_type_fold (TD : TargetData) (T : Ty) (l : list Constant)
    (init : Z * bool) :
  Forall (fun c => getType c = T) l ->
  fold_left
    (fun acc Elt =>
       if negb (Ty_eqb (getType Elt) T)
       then (Z.max (getABITypeAlignment TD (getType Elt)) (fst acc), true)
       else acc)
    l init = init.
Proof.
  intros H. revert init. induction H as [ | c l Hc Hl IH]; intros init; [reflexivity | ].
  cbn [fold_left]. rewrite Hc, Ty_eqb_refl. cbn [negb]. apply IH.
Qed.

Lemma skipn_app_exact {A} (l1 l2 : list A) (k : nat) :
  skipn (length l1 + k) (l1 ++ l2) = skipn k l2.
Proof.
  induction l1 as [ | x xs IH]; [reflexivity | exact IH].
Qed.

Lemma firstn_app_exact {A} (l1 l2 : list A) :
  firstn (length l1) (l1 ++ l2) = l1.
Proof.
  induction l1 as [ | x xs IH]; [destruct l2; reflexivity | ].
  cbn [length firstn app]. f_equal. exact IH.
Qed.

Lemma fill_next {A} (done : list A) (c : A) (M : nat) :
  (length done < M)%nat ->
  fill (map Some done ++ repeat None (M - length done))
       (Z.of_nat (length done)) (Z.of_nat (length done)) c
  = map Some (done ++ [c]) ++ repeat None (M - length (done ++ [c])).
Proof.
  intros Hlt. unfold fill. rewrite Z.leb_refl.
  rewrite Nat2Z.id.
  replace (length done) with (length (map (@Some A) done)) at 1 by apply length_map.
  rewrite firstn_app_exact.
  replace (Z.of_nat (length done) - Z.of_nat (length done) + 1) with 1 by lia.
  replace (Z.to_nat (Z.of_nat (length done) + 1))
    with (length (map (@Some A) done) + 1)%nat by (rewrite length_map; lia).
  rewrite skipn_app_exact.
  rewrite length_app. cbn [length].
  replace (M - length done)%nat with (S (M - (length done + 1)))%nat by lia.
  cbn [repeat skipn Z.to_nat Pos.to_nat Pos.iter_op Nat.add].
  rewrite map_app, <- app_assoc. reflexivity.
Qed.

(** X22. An array constructor that gives its values in order, without
    indices, each converting to a constant of the element type: the result
    is the array of the converted values, followed by the default value for
    the elements of the array type that were given no value. *)
Theorem ConvertArrayCONSTRUCTOR_in_order (E : Environment)
    (convert : tree -> gcc_type -> option Constant)
    (init_type elt_type : gcc_type) (trees : list tree) (vals : list Constant)
    (m : Z) :
  let TD := getTargetData E in
  let EltTy := ConvertType elt_type in
  TREE_CODE init_type = ARRAY_TYPE ->
  TREE_TYPE init_type = Some elt_type ->
  isSequentialCompatible init_type = true ->
  TYPE_LENGTH init_type = Some m ->
  ConvertType init_type = ArrayTy EltTy m ->
  0 < m < 2 ^ 32 -> Z.of_nat (length trees) <= m ->
  Forall2 (fun t c => convert t elt_type = Some c /\ getType c = EltTy) trees vals ->
  getType (getDefaultValue E EltTy) = EltTy ->
  0 < getABITypeAlignment TD EltTy ->
  to_unsigned (getABITypeAlignment TD EltTy * 8) <= TYPE_ALIGN init_type ->
  ConvertArrayCONSTRUCTOR E convert init_type (map (fun t => (NO_INDEX, t)) trees)
  = Some (ConstantArray EltTy
            (vals ++ repeat (getDefaultValue E EltTy)
                            (Z.to_nat m - length vals))).
Proof.
  intros TD EltTy Hcode Helt Hseq Hlen HT Hm Hcount Hvals Hdef Hal Halign.
  pose proof (Forall2_length Hvals) as Hlv.
  unfold ConvertArrayCONSTRUCTOR. rewrite Helt, Hseq, Hlen, Hcode, HT.
  cbn [assert]. fold TD. fold EltTy.
  set (EltSize := getTypeAllocSizeInBits TD EltTy).
  set (lb := match TYPE_DOMAIN init_type with
             | Some (min, _) => if min =? 0 then None else Some min
             | None => None
             end).
  match goal with
  | |- context [fold_left ?f _ _] => set (step := f)
  end.
  assert (Hres : resize (@nil (option Constant)) m = repeat None (Z.to_nat m)).
  { unfold resize. cbn [firstn length]. rewrite firstn_nil, Nat.sub_0_r. reflexivity. }
  rewrite Hres.
  assert (Hfold : forall rem vrem,
            Forall2 (fun t c => convert t elt_type = Some c /\ getType c = EltTy) rem vrem ->
            forall done,
              Z.of_nat (length done + length rem) <= m ->
              fold_left step (map (fun t => (NO_INDEX, t)) rem)
                (Some (map Some done ++ repeat None (Z.to_nat m - length done),
                       Z.of_nat (length done)))
              = Some (map Some (done ++ vrem)
                        ++ repeat None (Z.to_nat m - length (done ++ vrem)),
                      Z.of_nat (length (done ++ vrem)))).
  { intros rem vrem HF. induction HF as [ | t c rem vrem [Hconv Hty] HF IH];
      intros done Hd.
    - rewrite app_nil_r. reflexivity.
    - cbn [map fold_left]. cbn [length] in Hd.
      assert (Hstep : step (Some (map Some done ++ repeat None (Z.to_nat m - length done),
                                  Z.of_nat (length done))) (NO_INDEX, t)
                      = Some (map Some (done ++ [c])
                                ++ repeat None (Z.to_nat m - length (done ++ [c])),
                              Z.of_nat (length (done ++ [c])))).
      { subst step. cbn beta iota. rewrite Hconv, Hty. fold EltSize.
        rewrite Z.leb_refl, Z.ltb_irrefl. cbn [assert element_indices].
        rewrite length_app, length_map, repeat_length.
        assert (Hlt : (Z.of_nat (length done + (Z.to_nat m - length done))
                       <=? Z.of_nat (length done)) = false)
          by (apply Z.leb_gt; lia).
        rewrite Hlt, Z.leb_refl.
        rewrite fill_next by lia.
        rewrite to_unsigned_small by lia.
        rewrite length_app. cbn [length]. do 2 f_equal. lia. }
      rewrite Hstep. rewrite (IH (done ++ [c])).
      + rewrite <- app_assoc. reflexivity.
      + rewrite length_app. cbn [length]. lia. }
  specialize (Hfold trees vals Hvals [] ltac:(cbn [length]; lia)).
  cbn [map app length Z.of_nat] in Hfold. rewrite Nat.sub_0_r in Hfold.
  rewrite Hfold. cbn [fst].
  rewrite length_app, length_map, repeat_length.
  rewrite to_unsigned_small by lia.
  assert (Hnz : (Z.of_nat (length vals + (Z.to_nat m - length vals)) =? 0) = false)
    by (apply Z.eqb_neq; lia).
  rewrite Hnz.
  rewrite map_app, map_map, map_repeat. rewrite map_id.
  set (Elts := vals ++ repeat (getDefaultValue E EltTy) (Z.to_nat m - length vals)).
  assert (HElts : Forall (fun c => getType c = EltTy) Elts).
  { apply Forall_app. split.
    - clear - Hvals. induction Hvals as [ | t c l l' [_ Hc] _ IH]; constructor; assumption.
    - apply Forall_forall. intros x Hx. apply repeat_spec in Hx. subst x. exact Hdef. }
  assert (HlenE : Z.of_nat (length Elts) = m).
  { subst Elts. rewrite length_app, repeat_length. lia. }
  destruct Elts as [ | Elt0 Others] eqn:HE; [cbn [length] in HlenE; lia | ].
  inversion HElts as [ | ? ? H0 HO]; subst.
  rewrite H0. rewrite (same_type_fold TD EltTy Others _ HO).
  assert (Hpack : (TYPE_ALIGN init_type <? to_unsigned (getABITypeAlignment TD EltTy * 8))
                  = false) by (apply Z.ltb_ge; exact Halign).
  rewrite Hpack.
  rewrite (AllocSize_array TD EltTy _ Hal). fold EltSize.
  replace (Z.of_nat (length vals + (Z.to_nat (Z.of_nat (length (Elt0 :: Others))) - length vals)))
    with (Z.of_nat (length (Elt0 :: Others))) by lia.
  rewrite Z.ltb_irrefl. cbn [orb andb].
  rewrite Bool.andb_false_r. reflexivity.
Qed.

Lemma ConvertArrayCONSTRUCTOR_in_order_witness :
  let E := Examples.bare Examples.x86_64 false true in
  let convert := fun value t =>
    ConvertInitializerWithCast E (ConvertInitializer E value) (TREE_TYPE_of value) t in
  ConvertArrayCONSTRUCTOR E convert (Examples.char_array 50 (Some 3))
    (map (fun t => (NO_INDEX, t))
         [CST INTEGER_CST Examples.char_type [97]; CST INTEGER_CST Examples.char_type [98]])
  = Some (ConstantArray (ConvertType Examples.char_type)
            ([ConstantInt 8 97 0; ConstantInt 8 98 0]
             ++ repeat (getDefaultValue E (ConvertType Examples.char_type))
                       (Z.to_nat 3 - length [ConstantInt 8 97 0; ConstantInt 8 98 0]))).
Proof.
  intros E convert.
  apply (ConvertArrayCONSTRUCTOR_in_order E convert (Examples.char_array 50 (Some 3))
           Examples.char_type
           [CST INTEGER_CST Examples.char_type [97]; CST INTEGER_CST Examples.char_type [98]]
           [ConstantInt 8 97 0; ConstantInt 8 98 0] 3);
    try reflexivity; try (cbn; lia).
  repeat constructor.
Defined.


(** ** Scalars seen as integers and back *)


(** X24. The bits of a pointer, on a target whose pointers are whole bytes:
    an integer as wide as a pointer is interpreted as the pointer with that
    address, and interpreting the pointer as the integer type gives the
    integer back. *)
Theorem InterpretAsType_pointer_bits (TD : TargetData) (BE : bool) (p : Ty)
    (v u : Z) :
  let PW := PointerSizeInBits TD in
  0 < PW < 2 ^ 30 -> PW mod 8 = 0 ->
  0 <= v < 2 ^ PW -> 0 <= u < 2 ^ PW ->
  InterpretAsType TD BE (PointerTy p) (ConstantInt PW v u) 0
  = Some (ConstantPointer p v u) /\
  InterpretAsType TD BE (IntegerTy PW) (ConstantPointer p v u) 0
  = Some (ConstantInt PW v u).
Proof.
  intros PW HPW H8 Hv Hu. split.
  - cbn [InterpretAsType getType Ty_eqb]. unfold InterpretAsInteger, getIntPtrType.
    fold PW. cbn [getType Ty_eqb]. rewrite Z.eqb_refl. reflexivity.
  - assert (HS : 8 * ((PW + 7) / 8) = PW).
    { pose proof (Z.div_mod PW 8 ltac:(lia)) as Hd. rewrite H8, Z.add_0_r in Hd.
      rewrite Hd at 1. rewrite (Z.mul_comm 8 (PW / 8)), Z.div_add_l by lia.
      change (7 / 8) with 0. lia. }
    cbn [InterpretAsType getType Ty_eqb]. unfold InterpretAsIntegerTy.
    rewrite StoreSize_int, HS. cbn [getPrimitiveSizeInBits].
    rewrite !(to_unsigned_small PW) by lia.
    rewrite Z.add_0_l, Z.sub_diag.
    rewrite (to_int_to_unsigned PW), (to_int_small PW) by lia.
    change (to_int (to_unsigned 0)) with 0.
    assert (He : Range.empty (mkRange 0 PW) = false)
      by (unfold Range.empty; cbn [First Last]; apply Z.leb_gt; lia).
    assert (HSp : getTypeStoreSizeInBits TD (PointerTy p) = PW)
      by (unfold getTypeStoreSizeInBits, getTypeSizeInBits;
          cbn [SizeAndAlignment fst]; exact HS).
    cbn [ViewAsBits getType]. rewrite HSp, He.
    assert (Hm : Range.Meet (mkRange 0 PW) (mkRange 0 PW) = mkRange 0 PW).
    { unfold Range.Meet. rewrite He. cbn [orb First Last].
      rewrite Z.max_id, Z.min_id. reflexivity. }
    rewrite Hm, He.
    assert (H0 : (0 <? PW) = true) by (apply Z.ltb_lt; lia).
    rewrite H0. cbn [assert]. unfold getIntPtrType. fold PW.
    cbn [CreatePtrToInt]. rewrite !Z.mod_small by assumption.
    assert (Hi : int_range (mkRange 0 PW)) by (unfold int_range; cbn [First Last]; lia).
    assert (Hw : PW = Range.getWidth (mkRange 0 PW)).
    { unfold Range.getWidth. rewrite He. cbn [First Last]. lia. }
    rewrite make_Some by (apply contentsValid_int; assumption).
    rewrite Displace_Some by (apply contentsValid_int; assumption).
    unfold Range.Displace. cbn [Slice.R Slice.Contents First Last].
    change (- 0) with 0. rewrite !Z.add_0_r.
    assert (Hg : Slice.getBits BE
                   (Slice.mkBitSlice (mkRange 0 PW) (Some (ConstantInt PW v u)))
                   (mkRange 0 PW)
                 = Some (ConstantInt PW v u)).
    { unfold Slice.getBits. cbn [Slice.R Slice.Contents].
      rewrite He, Range_eqb_refl. reflexivity. }
    destruct BE; exact Hg.
Qed.

Lemma InterpretAsType_pointer_bits_witness :
  InterpretAsType Examples.x86_64 true (PointerTy (IntegerTy 8)) (ConstantInt 64 4096 0) 0
  = Some (ConstantPointer (IntegerTy 8) 4096 0) /\
  InterpretAsType Examples.x86_64 true (IntegerTy 64)
    (ConstantPointer (IntegerTy 8) 4096 0) 0
  = Some (ConstantInt 64 4096 0).
Proof.
  apply (InterpretAsType_pointer_bits Examples.x86_64 true (IntegerTy 8) 4096 0);
    try reflexivity; cbn; lia.
Defined.


(** ** Where the fields of a record constructor land *)

Lemma StructLayoutFrom_offsets (P : bool) (l : list (Z * Z)) :
  forall s a, fst (fst (StructLayoutFrom P l s a)) = StructOffsets P l s.
Proof.
  induction l as [ | m ms IH]; intros s a; cbn [StructLayoutFrom StructOffsets];
    [reflexivity | ].
  specialize (IH (RoundUpAlignment s (if P then 1 else snd m) + AllocBitsOf m / 8)
                 (Z.max (if P then 1 else snd m) a)).
  destruct (StructLayoutFrom P ms _ _) as [[offs sz] al]. cbn [fst] in *.
  f_equal. exact IH.
Qed.

Lemma getElementOffsets_eq (TD : TargetData) (P : bool) (Tys : list Ty) :
  getElementOffsets TD P Tys = StructOffsets P (map (SizeAndAlignment TD) Tys) 0.
Proof. apply StructLayoutFrom_offsets. Qed.

Lemma StructOffsets_app (P : bool) (l l' : list (Z * Z)) :
  forall s, StructOffsets P (l ++ l') s
            = StructOffsets P l s ++ StructOffsets P l' (StructEnd P l s).
Proof.
  induction l as [ | m ms IH]; intros s; cbn [app StructOffsets StructEnd];
    [reflexivity | ].
  rewrite IH. reflexivity.
Qed.

Lemma StructEnd_app (P : bool) (l l' : list (Z * Z)) :
  forall s, StructEnd P (l ++ l') s = StructEnd P l' (StructEnd P l s).
Proof.
  induction l as [ | m ms IH]; intros s; cbn [app StructEnd]; [reflexivity | ].
  apply IH.
Qed.

Lemma StructOffsets_length (P : bool) (l : list (Z * Z)) :
  forall s, length (StructOffsets P l s) = length l.
Proof.
  induction l as [ | m ms IH]; intros s; cbn [StructOffsets length]; [reflexivity | ].
  rewrite IH. reflexivity.
Qed.

Lemma RoundUpAlignment_1 (x : Z) : RoundUpAlignment x 1 = x.
Proof. unfold RoundUpAlignment. rewrite Z.div_1_r. lia. Qed.

Lemma AllocBitsOf_bytes (m : Z * Z) : 8 * (AllocBitsOf m / 8) = AllocBitsOf m.
Proof.
  unfold AllocBitsOf. set (r := RoundUpAlignment _ _).
  rewrite (Z.mul_comm 8 r), Z.div_mul by lia. lia.
Qed.

(** The padding element: [Units] bytes that need no alignment. *)
Lemma padding_member (TD : TargetData) (Units : Z) :
  IntegerABIAlignment TD 8 = 1 -> 0 < Units ->
  SizeAndAlignment TD (getType (UndefValue (GetUnitType Units))) = (8 * Units, 1).
Proof.
  intros Hal HU. unfold GetUnitType, BITS_PER_UNIT.
  destruct (Z.eqb_spec Units 1) as [-> | Hne].
  - cbn [UndefValue getType SizeAndAlignment]. rewrite Hal. reflexivity.
  - cbn [UndefValue getType]. rewrite repeat_length, Z2Nat.id by lia.
    cbn [SizeAndAlignment fst snd]. rewrite Hal.
    change (AllocBitsOf (8, 1)) with 8. f_equal. lia.
Qed.

Lemma fold_left_None {A B} (f : option A -> B -> option A) (l : list B) :
  (forall b, f None b = None) -> fold_left f l None = None.
Proof.
  intros Hf. induction l as [ | b bs IH]; [reflexivity | ].
  cbn [fold_left]. rewrite Hf. exact IH.
Qed.

Lemma needs_packing_false (E : Environment) (MaxAlign : Z)
    (Layout : list FieldContents) :
  needs_packing E MaxAlign Layout = Some false ->
  Forall (fun F => forall Val F',
            Field.extractContents (getTargetData E) (BYTES_BIG_ENDIAN E) F
            = Some (Val, F') ->
            let A := to_unsigned (getABITypeAlignment (getTargetData E) (getType Val) * 8) in
            A <> 0 /\
            to_unsigned (Range.getFirst (Field.getRange F)) mod A = 0) Layout.
Proof.
  induction Layout as [ | F rest IH]; intros H; [constructor | ].
  cbn [needs_packing] in H.
  destruct (Field.extractContents _ _ F) as [vf | ] eqn:Hx; [ | discriminate H].
  destruct (assert _) eqn:Ha in H; [ | discriminate H].
  apply assert_Some in Ha. apply Bool.negb_true_iff, Z.eqb_neq in Ha.
  destruct (_ || _) eqn:Hor in H; [discriminate H | ].
  apply Bool.orb_false_iff in Hor. destruct Hor as [_ Hmod].
  apply Bool.negb_false_iff, Z.eqb_eq in Hmod.
  constructor; [ | exact (IH H)].
  intros Val F' HV. rewrite Hx in HV. injection HV as ->.
  cbn [fst] in *. split; assumption.
Qed.

Lemma RoundUpAlignment_at (P : bool) (x a First : Z) :
  0 < a -> 8 * x = First -> (P = false -> First mod (a * 8) = 0) ->
  8 * RoundUpAlignment x (if P then 1 else a) = First.
Proof.
  intros Ha Hx HP. destruct P.
  - rewrite RoundUpAlignment_1. exact Hx.
  - specialize (HP eq_refl). apply Z.mod_divide in HP; [ | lia].
    destruct HP as [q Hq]. assert (Hxq : x = q * a) by lia.
    rewrite Hxq, RoundUpAlignment_multiple by exact Ha. lia.
Qed.

Lemma RoundUpAlignment_gap (e a First : Z) :
  0 < a -> First = (8 * e + a * 8 - 1) / (a * 8) * (a * 8) ->
  8 * RoundUpAlignment e a = First.
Proof.
  intros Ha ->. unfold RoundUpAlignment.
  replace (8 * e + a * 8 - 1) with ((e + a - 1) * 8 + 7) by lia.
  rewrite (Z.mul_comm a 8), <- Z.div_div by lia.
  rewrite Z.div_add_l by lia. change (7 / 8) with 0. rewrite Z.add_0_r. lia.
Qed.

Lemma nth_error_snoc {A} (l : list A) (x : A) (ext : list A) :
  nth_error ((l ++ [x]) ++ ext) (length l) = Some x.
Proof.
  rewrite <- app_assoc. rewrite nth_error_app2, Nat.sub_diag by lia. reflexivity.
Qed.

(** X25. The elements the layout loop of a record constructor creates: the
    value of every field lies, in the struct the elements make, at the
    first bit of the field (packed or not, as the loop before it decided),
    and the struct ends where the loop has arrived. *)
Theorem layout_elements_offsets (E : Environment) (MaxAlign : Z) (Pack : bool)
    (Layout : list FieldContents) (Elts : list Constant) (EndOfPrevious : Z) :
  IntegerABIAlignment (getTargetData E) 8 = 1 ->
  needs_packing E MaxAlign Layout = Some Pack ->
  Forall (field_fits E) Layout ->
  layout_elements E Pack Layout = Some (Elts, EndOfPrevious) ->
  (exists positions, Forall2 (field_at E Pack Elts) Layout positions) /\
  EndOfPrevious
  = 8 * StructEnd Pack (map (SizeAndAlignment (getTargetData E)) (map getType Elts)) 0.
Proof.
  intros Hal Hpack Hfits H.
  set (TD := getTargetData E) in *.
  set (mem := fun l : list Constant => map (SizeAndAlignment TD) (map getType l)).
  assert (Hmem_app : forall l l', mem (l ++ l') = mem l ++ mem l')
    by (intros l l'; unfold mem; rewrite !map_app; reflexivity).
  set (G := fun F =>
              field_fits E F /\
              (Pack = false ->
               forall Val F',
                 Field.extractContents TD (BYTES_BIG_ENDIAN E) F = Some (Val, F') ->
                 to_unsigned (Range.getFirst (Field.getRange F))
                   mod to_unsigned (getABITypeAlignment TD (getType Val) * 8) = 0)).
  assert (HG : Forall G Layout).
  { destruct Pack.
    - eapply Forall_impl; [ | exact Hfits]. intros F HF. split; [exact HF | discriminate].
    - pose proof (needs_packing_false E MaxAlign Layout Hpack) as Hnp.
      clear - Hfits Hnp. induction Hfits as [ | F l HF _ IH]; [constructor | ].
      inversion Hnp as [ | ? ? HnF Hnl]; subst. constructor; [ | exact (IH Hnl)].
      split; [exact HF | ]. intros _ Val F' HV. exact (proj2 (HnF Val F' HV)). }
  unfold layout_elements in H. fold TD in H.
  match type of H with
  | fold_left ?f _ _ = _ => set (step := f) in H
  end.
  assert (Hnone : forall F, step None F = None) by reflexivity.
  assert (Hgen : forall rest, Forall G rest ->
            forall Elts0 End0 EltsF EndF,
              fold_left step rest (Some (Elts0, End0)) = Some (EltsF, EndF) ->
              End0 = 8 * StructEnd Pack (mem Elts0) 0 -> 0 <= End0 < 2 ^ 32 ->
              (exists ps, Forall2 (field_at E Pack EltsF) rest ps) /\
              EndF = 8 * StructEnd Pack (mem EltsF) 0 /\
              exists ext, EltsF = Elts0 ++ ext).
  { intros rest Hrest. induction Hrest as [ | F rest [HF HFu] _ IH];
      intros Elts0 End0 EltsF EndF Hfold Hinv Hb.
    - cbn [fold_left] in Hfold. injection Hfold as <- <-.
      split; [exists []; constructor | ]. split; [exact Hinv | ].
      exists []. rewrite app_nil_r. reflexivity.
    - cbn [fold_left] in Hfold.
      destruct (step (Some (Elts0, End0)) F) as [[Elts1 End1] | ] eqn:Hs;
        [ | rewrite (fold_left_None step rest Hnone) in Hfold; discriminate Hfold].
      (* one turn of the loop *)
      assert (Hturn : exists Val F' pad Off,
                Field.extractContents TD (BYTES_BIG_ENDIAN E) F = Some (Val, F') /\
                Elts1 = (Elts0 ++ pad) ++ [Val] /\
                StructOffsets Pack (mem Elts1) 0
                = StructOffsets Pack (mem (Elts0 ++ pad)) 0 ++ [Off] /\
                8 * Off = to_unsigned (Range.getFirst (Field.getRange F)) /\
                End1 = 8 * StructEnd Pack (mem Elts1) 0 /\ 0 <= End1 < 2 ^ 32).
      { subst step. cbn beta iota in Hs.
        destruct (Field.extractContents TD (BYTES_BIG_ENDIAN E) F) as [[Val F'] | ] eqn:Hx;
          [ | discriminate Hs].
        cbn [fst] in Hs.
        destruct (HF Val F' Hx) as (Ha & Hsz & Hbound). fold TD in Ha, Hsz, Hbound.
        assert (HFu' : Pack = false ->
                  to_unsigned (Range.getFirst (Field.getRange F))
                    mod to_unsigned (getABITypeAlignment TD (getType Val) * 8) = 0)
          by (intros Hp; first [exact (HFu Hp Val F' Hx) | exact (HFu Hp Val F' eq_refl)]).
        clear HFu. rename HFu' into HFu.
        set (First := to_unsigned (Range.getFirst (Field.getRange F))) in *.
        set (a := getABITypeAlignment TD (getType Val)) in *.
        set (alloc := getTypeAllocSizeInBits TD (getType Val)) in *.
        assert (HFirst : 0 <= First < 2 ^ 32)
          by (subst First; unfold to_unsigned; apply Z.mod_pos_bound; lia).
        rewrite (to_unsigned_small (a * 8)) in * by lia.
        rewrite (to_unsigned_small (First + alloc)) in Hs by lia.
        destruct (assert (End0 <=? First)) eqn:Hle; [ | discriminate Hs].
        apply assert_Some, Z.leb_le in Hle.
        set (e0 := StructEnd Pack (mem Elts0) 0) in *.
        assert (Hlast : forall pad Off,
                  8 * Off = First ->
                  RoundUpAlignment (StructEnd Pack (mem (Elts0 ++ pad)) 0)
                    (if Pack then 1 else a) = Off ->
                  StructOffsets Pack (mem ((Elts0 ++ pad) ++ [Val])) 0
                  = StructOffsets Pack (mem (Elts0 ++ pad)) 0 ++ [Off] /\
                  First + alloc = 8 * StructEnd Pack (mem ((Elts0 ++ pad) ++ [Val])) 0).
        { intros pad Off HOff HR. rewrite Hmem_app, StructOffsets_app, StructEnd_app.
          change (mem [Val]) with [SizeAndAlignment TD (getType Val)].
          cbn [StructOffsets StructEnd].
          change (snd (SizeAndAlignment TD (getType Val))) with a.
          change (AllocBitsOf (SizeAndAlignment TD (getType Val))) with alloc.
          rewrite HR. split; [reflexivity | ].
          rewrite Z.mul_add_distr_l, HOff. unfold alloc, getTypeAllocSizeInBits.
          rewrite AllocBitsOf_bytes. reflexivity. }
        destruct (End0 <? First) eqn:Hlt.
        - apply Z.ltb_lt in Hlt.
          destruct (if negb Pack
                    then negb (First =? to_unsigned (End0 + a * 8 - 1) / (a * 8) * (a * 8))
                    else true) eqn:Hneed.
          + (* padding *)
            destruct (assert (to_unsigned (First - End0) mod BITS_PER_UNIT =? 0)) eqn:Hu;
              [ | discriminate Hs].
            apply assert_Some, Z.eqb_eq in Hu. unfold BITS_PER_UNIT in *.
            rewrite (to_unsigned_small (First - End0)) in * by lia.
            injection Hs as <- <-.
            set (Units := (First - End0) / 8) in *.
            assert (HU : First - End0 = 8 * Units)
              by (subst Units; pose proof (Z.div_mod (First - End0) 8 ltac:(lia)); lia).
            assert (HUpos : 0 < Units) by lia.
            set (pad := [UndefValue (GetUnitType Units)]).
            assert (Hpad : StructEnd Pack (mem (Elts0 ++ pad)) 0 = e0 + Units).
            { rewrite Hmem_app, StructEnd_app. fold e0. unfold mem, pad.
              cbn [map StructEnd]. rewrite (padding_member TD Units Hal HUpos).
              cbn [snd]. assert (Hone : (if Pack then 1 else 1) = 1) by (destruct Pack; reflexivity).
              rewrite Hone, RoundUpAlignment_1.
              unfold AllocBitsOf. cbn [fst snd]. rewrite RoundUpAlignment_1.
              rewrite (Z.mul_comm 8 Units), Z.div_add_l by lia.
              change (7 / 8) with 0. rewrite Z.add_0_r, (Z.mul_comm 8 Units), Z.div_mul by lia.
              reflexivity. }
            exists Val, F', pad, (e0 + Units).
            destruct (Hlast pad (e0 + Units)) as [Ho He]; try reflexivity.
            * lia.
            * rewrite Hpad.
              assert (H8 : 8 * RoundUpAlignment (e0 + Units) (if Pack then 1 else a) = First)
                by (apply RoundUpAlignment_at; [exact Ha | lia | exact HFu]).
              lia.
            * repeat match goal with |- _ /\ _ => split end;
                try reflexivity; try assumption; try lia;
                try (rewrite <- He; lia).
          + (* the alignment of the value takes care of the gap *)
            destruct Pack; [discriminate Hneed | ]. cbn [negb] in Hneed.
            apply Bool.negb_false_iff, Z.eqb_eq in Hneed.
            rewrite (to_unsigned_small (End0 + a * 8 - 1)) in Hneed by lia.
            injection Hs as <- <-.
            exists Val, F', [], (RoundUpAlignment e0 a).
            rewrite app_nil_r in *.
            assert (H8 : 8 * RoundUpAlignment e0 a = First)
              by (apply RoundUpAlignment_gap; [exact Ha | rewrite <- Hinv; exact Hneed]).
            destruct (Hlast [] (RoundUpAlignment e0 a)) as [Ho He]; try reflexivity.
            * exact H8.
            * rewrite app_nil_r. reflexivity.
            * rewrite app_nil_r in Ho, He.
              repeat match goal with |- _ /\ _ => split end;
                try reflexivity; try assumption; try lia;
                try (rewrite <- He; lia).
        - (* no gap *)
          apply Z.ltb_ge in Hlt. injection Hs as <- <-.
          exists Val, F', [], (RoundUpAlignment e0 (if Pack then 1 else a)).
          rewrite app_nil_r in *.
          assert (H8 : 8 * RoundUpAlignment e0 (if Pack then 1 else a) = First)
            by (apply RoundUpAlignment_at; [exact Ha | lia | exact HFu]).
          destruct (Hlast [] (RoundUpAlignment e0 (if Pack then 1 else a))) as [Ho He];
            try reflexivity.
          + exact H8.
          + rewrite app_nil_r. reflexivity.
          + rewrite app_nil_r in Ho, He.
            repeat match goal with |- _ /\ _ => split end;
              try reflexivity; try assumption; try lia;
              try (rewrite <- He; lia). }
      destruct Hturn as (Val & F' & pad & Off & Hx & HE1 & Hoffs & HOff & Hinv1 & Hb1).
      destruct (IH Elts1 End1 EltsF EndF Hfold Hinv1 Hb1) as ([ps Hps] & HendF & ext & HextF).
      split; [ | split; [exact HendF | ]].
      + exists (length (Elts0 ++ pad) :: ps). constructor; [ | exact Hps].
        exists Val, F'. split; [exact Hx | ]. split.
        * rewrite HextF, HE1. apply nth_error_snoc.
        * exists Off. split; [ | exact HOff].
          rewrite getElementOffsets_eq. fold TD. fold (mem EltsF).
          rewrite HextF, Hmem_app, StructOffsets_app, Hoffs.
          assert (Hl : length (StructOffsets Pack (mem (Elts0 ++ pad)) 0)
                       = length (Elts0 ++ pad))
            by (rewrite StructOffsets_length; unfold mem; rewrite !length_map; reflexivity).
          rewrite <- Hl. apply nth_error_snoc.
      + exists ((pad ++ [Val]) ++ ext). rewrite HextF, HE1.
        rewrite <- !app_assoc. reflexivity. }
  destruct (Hgen Layout HG [] 0 Elts EndOfPrevious H) as (Hps & Hend & _).
  - reflexivity.
  - lia.
  - split; [exact Hps | exact Hend].
Qed.

Lemma layout_elements_offsets_witness :
  let E := Examples.bare Examples.x86_64 false true in
  let Layout := [Field.mkFieldContents (mkRange 0 8) (Some (ConstantInt 8 1 0)) 0;
                 Field.mkFieldContents (mkRange 32 64) (Some (ConstantInt 32 2 0)) 32] in
  let Elts := [ConstantInt 8 1 0; ConstantInt 32 2 0] in
  (exists positions, Forall2 (field_at E false Elts) Layout positions) /\
  64 = 8 * StructEnd false
             (map (SizeAndAlignment (getTargetData E)) (map getType Elts)) 0.
Proof.
  intros E Layout Elts.
  apply (layout_elements_offsets E 32 false Layout Elts 64).
  - reflexivity.
  - vm_compute. reflexivity.
  - apply Forall_cons; [ | apply Forall_cons; [ | apply Forall_nil]];
      intros Val F' H; vm_compute in H; injection H as <- <-;
      cbn; repeat split; lia.
  - vm_compute. reflexivity.
Defined.
